(** * BasicPlottedMap: grid clustering, nearby query and haversine distance

    A shallow embedding of the three pieces of [script.js] that carry logic:
    [calculateDistance] (haversine), [createGridClusters] (grid partition
    through a JavaScript [Map] keyed by a template-literal string) and the
    filter-then-sort of [findNearbyPoints]; and of the code around them:
    the test data of [generateTestDataset] and [fetchMapPoints], the markers
    of [loadMapPoints], [loadPointsWithClustering] and [createClusterPopup],
    and the list of [showSampleNearbyPoints].

    - JavaScript numbers are IEEE-754 binary64 values: they are Rocq's
      primitive [float], whose operations [SpecFloat] specifies bit for bit
      (round to nearest, ties to even; one NaN).
    - What the language leaves to the host ([Math.sin], [Math.cos],
      [Math.atan2], the digit string of a number) is a parameter, a [Host].
      A theorem that needs a property of the host states it as a hypothesis;
      [SmallAngleHost] is a host on which all of them hold.
    - A call returns a [completion]: a value, or an exception.
    - The [Map] is the list of its entries in insertion order.
    - [Array.prototype.sort] is a stable insertion sort;
      [Array_sort_characterised] shows that no other stable sort differs.

    - [Math.random] is the sequence of the values it returns.
    - Leaflet's markers are records of what the script hands to Leaflet.

    The file has four parts: the program; the vocabulary of the statements, a
    host and sample data; lemmas; the claims and their instances on the
    sample data.  Further lemmas and properties of the program, with their
    instances, follow. *)

From Stdlib Require Import ZArith List Bool String Ascii Lia Permutation Sorted.
From Stdlib Require Import Floats.
Import ListNotations.

(* ===================================================================== *)
(** ** JavaScript numbers *)
(* ===================================================================== *)

Module Number.

(** [Math.PI]: the binary64 value nearest to pi, [0x400921FB54442D18]. *)
Definition Math_PI : float := 0x1.921fb54442d18p+1%float.

Definition Math_sqrt (x : float) : float := PrimFloat.sqrt x.

(** [Math.floor]: the largest integral value not above [x]; NaN, the
    infinities and both zeros are returned as they are.  A finite value
    [(-1)^s * m * 2^e] with [e >= 0] is already integral; otherwise the
    floor is [floor (+-m / 2^-e)], an integer below [2^53] in magnitude,
    hence representable ([Z.shiftr] rounds towards minus infinity). *)
Definition Math_floor (x : float) : float :=
  match Prim2SF x with
  | S754_finite s m e =>
      if (0 <=? e)%Z then x
      else SF2Prim (binary_normalize prec emax
                      (Z.shiftr (cond_Zopp s (Zpos m)) (- e)) 0 false)
  | _ => x
  end.

(** SameValueZero, the equality of [Map] keys and of [includes]:
    numeric equality (so [+0] and [-0] agree) extended by NaN = NaN. *)
Definition sameValueZero (x y : float) : bool :=
  (x =? y)%float || (is_nan x && is_nan y).

End Number.

Import Number.

(* ===================================================================== *)
(** ** What the host provides *)
(* ===================================================================== *)

(** ECMAScript calls [Math.sin], [Math.cos] and [Math.atan2]
    implementation-approximated, and fixes [Number::toString] only up to the
    choice among shortest digit strings.  They are fields of a [Host]. *)
Class Host := {
  Math_sin : float -> float;
  Math_cos : float -> float;
  Math_atan2 : float -> float -> float;
  Number_toString : float -> string
}.

(* ===================================================================== *)
(** ** Completions *)
(* ===================================================================== *)

(** A call either returns a value or throws.  [TypeError] is what reading a
    property of [undefined] throws; [InvalidArgument] is the error the
    specification names. *)
Inductive exception := TypeError | InvalidArgument.

Inductive completion (A : Type) :=
| Normal (v : A)
| Throw (e : exception).

Arguments Normal {A} v.
Arguments Throw {A} e.

Definition bind {A B} (c : completion A) (k : A -> completion B) : completion B :=
  match c with
  | Normal v => k v
  | Throw e => Throw e
  end.

Notation "x <- c ;; k" := (bind c (fun x => k))
  (at level 61, c at next level, right associativity).

(** [array.forEach(f)] for a callback that threads a state and may throw. *)
Fixpoint forEach {A S} (f : S -> A -> completion S) (l : list A) (s : S)
  : completion S :=
  match l with
  | [] => Normal s
  | x :: l' => s' <- f s x ;; forEach f l' s'
  end.

(* ===================================================================== *)
(** ** Data *)
(* ===================================================================== *)

(** A point as the point source builds it
    ([{id, name, lat, lng, type, description}]). *)
Record Point := {
  id : Z;
  name : string;
  lat : float;
  lng : float;
  type_ : string;
  description : string
}.

(** The object literal [{ points: [], gridX, gridY }]. *)
Record Cluster := {
  points : list Point;
  gridX : float;
  gridY : float
}.

(** [{lat, lng}]: the centre of a nearby query. *)
Record LatLng := { center_lat : float; center_lng : float }.

(* ===================================================================== *)
(** ** A JavaScript [Map] with string keys *)
(* ===================================================================== *)

(** Entries are kept in insertion order, which is the order [values()]
    iterates in.  [set] on a present key replaces the value in place; on a new
    key it appends. *)
Module JSMap.
Section WithValue.
Variable V : Type.

Definition t := list (string * V).

Definition empty : t := [].

Fixpoint has (k : string) (m : t) : bool :=
  match m with
  | [] => false
  | (k', _) :: m' => if String.eqb k k' then true else has k m'
  end.

Fixpoint get (k : string) (m : t) : option V :=
  match m with
  | [] => None
  | (k', v) :: m' => if String.eqb k k' then Some v else get k m'
  end.

Fixpoint set (k : string) (v : V) (m : t) : t :=
  match m with
  | [] => [(k, v)]
  | (k', v') :: m' =>
      if String.eqb k k' then (k', v) :: m' else (k', v') :: set k v m'
  end.

Definition keys (m : t) : list string := map fst m.
Definition values (m : t) : list V := map snd m.
End WithValue.
Arguments has {V} k m.
Arguments get {V} k m.
Arguments set {V} k v m.
Arguments keys {V} m.
Arguments values {V} m.
End JSMap.

(* ===================================================================== *)
(** ** The source functions *)
(* ===================================================================== *)

Section Source.
Context {host : Host}.
Local Open Scope float_scope.

(** [calculateDistance] (script.js, "Calculate distance between two
    coordinates using Haversine formula"). *)
Definition calculateDistance (lat1 lon1 lat2 lon2 : float) : float :=
  let R := 6371 in
  let dLat := (lat2 - lat1) * Math_PI / 180 in
  let dLon := (lon2 - lon1) * Math_PI / 180 in
  let a := Math_sin (dLat / 2) * Math_sin (dLat / 2) +
           Math_cos (lat1 * Math_PI / 180) * Math_cos (lat2 * Math_PI / 180) *
           Math_sin (dLon / 2) * Math_sin (dLon / 2) in
  let c := 2 * Math_atan2 (Math_sqrt a) (Math_sqrt (1 - a)) in
  let distance := R * c in
  distance.

(** The template literal [`${gridX},${gridY}`]. *)
Definition gridKeyOf (gridX gridY : float) : string :=
  (Number_toString gridX ++ "," ++ Number_toString gridY)%string.

Definition pointGridX (gridSize : float) (point : Point) : float :=
  Math_floor (lat point / gridSize).
Definition pointGridY (gridSize : float) (point : Point) : float :=
  Math_floor (lng point / gridSize).
Definition pointGridKey (gridSize : float) (point : Point) : string :=
  gridKeyOf (pointGridX gridSize point) (pointGridY gridSize point).

(** [clusters.get(gridKey).points.push(point)]: the object the map holds
    under [gridKey] is mutated, so the entry changes where it stands; on an
    absent key [get] is [undefined] and reading [.points] throws. *)
Definition pushPoint (gridKey : string) (point : Point)
    (clusters : JSMap.t Cluster) : completion (JSMap.t Cluster) :=
  match JSMap.get gridKey clusters with
  | Some c =>
      Normal (JSMap.set gridKey
                {| points := points c ++ [point];
                   gridX := gridX c; gridY := gridY c |} clusters)
  | None => Throw TypeError
  end.

(** The body of the [forEach] callback of [createGridClusters]. *)
Definition addPoint (gridSize : float) (clusters : JSMap.t Cluster)
    (point : Point) : completion (JSMap.t Cluster) :=
  let gridX := Math_floor (lat point / gridSize) in
  let gridY := Math_floor (lng point / gridSize) in
  let gridKey := gridKeyOf gridX gridY in
  let clusters :=
    if negb (JSMap.has gridKey clusters)
    then JSMap.set gridKey {| points := []; gridX := gridX; gridY := gridY |}
           clusters
    else clusters in
  pushPoint gridKey point clusters.

Definition clusterMap (points : list Point) (gridSize : float)
  : completion (JSMap.t Cluster) :=
  forEach (addPoint gridSize) points (JSMap.empty Cluster).

(** [createGridClusters(points, gridSize)]. *)
Definition createGridClusters (points : list Point) (gridSize : float)
  : completion (list Cluster) :=
  clusters <- clusterMap points gridSize ;;
  Normal (JSMap.values clusters).

(** *** [Array.prototype.sort] *)

(** ECMAScript's SortCompare for a user comparator: a NaN result counts
    as [+0]. *)
Definition SortCompare {A} (comparefn : A -> A -> float) (x y : A) : float :=
  let v := comparefn x y in
  if is_nan v then 0 else v.

(** The sort is stable (ECMAScript 2019).  For a comparator that orders its
    arguments consistently the sorted array is unique, whatever algorithm
    the engine runs; it is modelled by a stable insertion sort: [x] passes
    over [y] only when the comparator says [x] is greater. *)
Fixpoint sortInsert {A} (comparefn : A -> A -> float) (x : A) (l : list A)
  : list A :=
  match l with
  | [] => [x]
  | y :: l' =>
      if 0 <? SortCompare comparefn x y
      then y :: sortInsert comparefn x l'
      else x :: l
  end.

Fixpoint Array_sort {A} (comparefn : A -> A -> float) (l : list A) : list A :=
  match l with
  | [] => []
  | x :: l' => sortInsert comparefn x (Array_sort comparefn l')
  end.

(** *** The nearby query *)

Definition distanceFrom (center : LatLng) (point : Point) : float :=
  calculateDistance (center_lat center) (center_lng center)
    (lat point) (lng point).

(** The filter and the sort of [findNearbyPoints], as a function of what
    the source reads: the loaded [allPoints], and the [center] and
    [radius] it has just chosen. *)
Definition findNearbyPoints (allPoints : list Point) (center : LatLng)
    (radius : float) : completion (list Point) :=
  let nearbyPoints :=
    filter (fun point =>
              let distance := distanceFrom center point in
              distance <=? radius) allPoints in
  let nearbyPoints :=
    Array_sort (fun a b =>
                  let distanceA := distanceFrom center a in
                  let distanceB := distanceFrom center b in
                  distanceA - distanceB) nearbyPoints in
  Normal nearbyPoints.

End Source.

(* ===================================================================== *)
(** ** Vocabulary of the statements *)
(* ===================================================================== *)

(** *** Numbers *)

Module FloatSpec.

(** The value of a binary64 number that is not NaN, scaled by [2^1074]: an
    integer.  The infinities are placed beyond every finite value. *)
Definition scaled (x : spec_float) : Z :=
  match x with
  | S754_zero _ => 0
  | S754_nan => 0
  | S754_infinity s => cond_Zopp s (2 ^ 2100)
  | S754_finite s m e => cond_Zopp s (Zpos m * 2 ^ (e - emin))
  end%Z.

Definition not_nan (x : spec_float) : bool :=
  match x with S754_nan => false | _ => true end.

(** The order key of a number. *)
Definition ord (x : float) : Z := scaled (Prim2SF x).

(** The sign bit of a number; NaN counts as unsigned. *)
Definition SFsign (x : spec_float) : bool :=
  match x with
  | S754_zero s | S754_infinity s | S754_finite s _ _ => s
  | S754_nan => false
  end.

Definition sign_bit (x : float) : bool := SFsign (Prim2SF x).

(** [r] is NaN or carries the sign [s]. *)
Definition signed (s : bool) (r : spec_float) : Prop :=
  match r with
  | S754_zero s' | S754_infinity s' | S754_finite s' _ _ => s' = s
  | S754_nan => True
  end.

(** [r] is neither zero nor NaN, and carries the sign [s]. *)
Definition nonzero_signed (s : bool) (r : spec_float) : Prop :=
  match r with
  | S754_infinity s' | S754_finite s' _ _ => s' = s
  | _ => False
  end.

Definition SFfinite (x : spec_float) : bool :=
  match x with
  | S754_zero _ | S754_finite _ _ _ => true
  | _ => false
  end.

(** [x] is finite and [|x| < 2^k]. *)
Definition SFmag_le (x : spec_float) (k : Z) : Prop :=
  match x with
  | S754_zero _ => True
  | S754_finite _ m e => (Zpos (digits2_pos m) + e <= k)%Z
  | _ => False
  end.

Definition mag_le (x : float) (k : Z) : Prop := SFmag_le (Prim2SF x) k.

End FloatSpec.

(** *** What a theorem may ask of the host *)

Section HostLaws.
Context {host : Host}.
Import FloatSpec.
Local Open Scope float_scope.

(** [Math.sin] is odd: [sin(-x)] is [-sin(x)], signed zeros included. *)
Definition sin_odd : Prop := forall x, Math_sin (- x) = - Math_sin x.

(** ECMAScript: [Math.sin(+0)] is [+0]. *)
Definition sin_zero : Prop := Math_sin 0 = 0.

(** [Math.cos] of a finite number lies in [[-1, 1]]. *)
Definition cos_bounded : Prop :=
  forall x, is_finite x = true ->
            (-1 <=? Math_cos x) = true /\ (Math_cos x <=? 1) = true.

(** ECMAScript: [Math.atan2(+0, x)] is [+0] for [x > 0]; here at [x = 1]. *)
Definition atan2_zero : Prop := Math_atan2 0 1 = 0.

(** [Math.atan2 y x] of two arguments that are not negative (nor [-0]) is
    not negative: the angle lies in the first quadrant. *)
Definition atan2_first_quadrant : Prop :=
  forall y x, sign_bit y = false -> sign_bit x = false ->
              sign_bit (Math_atan2 y x) = false.

(** [Number::toString] tells numbers apart exactly as SameValueZero does:
    ["NaN"] for NaN, ["0"] for both zeros, and otherwise a digit string that
    reads back as the number itself. *)
Definition toString_faithful : Prop :=
  forall x y, Number_toString x = Number_toString y <-> sameValueZero x y = true.

(** A string without the separator of the grid key. *)
Fixpoint commaFree (s : string) : bool :=
  match s with
  | EmptyString => true
  | String c s' => negb (Ascii.eqb c ",") && commaFree s'
  end.

(** The digit string of a number holds no comma. *)
Definition toString_comma_free : Prop :=
  forall x, commaFree (Number_toString x) = true.

End HostLaws.

(** *** Clusters *)

(** Order of first appearance: each value once, at the place of its first
    occurrence. *)
Fixpoint firstAppearances (l : list string) : list string :=
  match l with
  | [] => []
  | x :: l' => x :: filter (fun y => negb (String.eqb y x)) (firstAppearances l')
  end.

Section ClusterVocabulary.
Context {host : Host}.
Variable gridSize : float.

(** The key a cluster is filed under, recomputed from its stored
    coordinates. *)
Definition clusterKey (c : Cluster) : string := gridKeyOf (gridX c) (gridY c).

(** The points of [l] whose key is [k], in the order of [l]. *)
Definition membersOf (k : string) (l : list Point) : list Point :=
  filter (fun p => String.eqb (pointGridKey gridSize p) k) l.

(** Two points fall in the same grid cell: their cell keys
    [(floor(lat / s), floor(lng / s))] agree component by component. *)
Definition sameCell (p q : Point) : bool :=
  sameValueZero (pointGridX gridSize p) (pointGridX gridSize q) &&
  sameValueZero (pointGridY gridSize p) (pointGridY gridSize q).

(** What the map holds once the points of [l] have been added: under each
    key a cluster that recomputes to that key, lists that key's points and
    stores the coordinates of the first of them. *)
Record entry_ok (l : list Point) (e : string * Cluster) : Prop := {
  eo_key : clusterKey (snd e) = fst e;
  eo_points : points (snd e) = membersOf (fst e) l;
  eo_first : exists p0 rest,
      points (snd e) = p0 :: rest /\
      gridX (snd e) = pointGridX gridSize p0 /\
      gridY (snd e) = pointGridY gridSize p0
}.

Definition clusters_ok (l : list Point) (m : JSMap.t Cluster) : Prop :=
  JSMap.keys m = firstAppearances (map (pointGridKey gridSize) l) /\
  Forall (entry_ok l) m.

End ClusterVocabulary.

(* ===================================================================== *)
(** ** A host to run the model on *)
(* ===================================================================== *)

(** The first-order behaviour of the three functions near the origin and the
    positive x axis ([sin x ~ x], [cos x ~ 1], [atan2 y x ~ y / x]), with the
    values ECMAScript fixes at NaN and the infinities; numbers are printed in
    binary, mantissa and exponent.  It shows that the host laws above hold
    together and lets the model run on concrete data; it is not the
    arithmetic of any engine. *)
Module SmallAngleHost.
Local Open Scope float_scope.

Definition sin (x : float) : float := if is_infinity x then nan else x.
Definition cos (x : float) : float := if is_finite x then 1 else nan.
Definition atan2 (y x : float) : float := y / x.

(** Binary digits, least significant first. *)
Fixpoint bits (p : positive) : string :=
  match p with
  | xH => "1"
  | xO q => String "0" (bits q)
  | xI q => String "1" (bits q)
  end.

Definition exponent (z : Z) : string :=
  match z with
  | Z0 => "0"
  | Zpos p => String "+" (bits p)
  | Zneg p => String "-" (bits p)
  end.

Definition toString (x : float) : string :=
  match Prim2SF x with
  | S754_nan => "NaN"
  | S754_zero _ => "0"
  | S754_infinity false => "Infinity"
  | S754_infinity true => "-Infinity"
  | S754_finite s m e =>
      ((if s then "-" else "") ++ "0b" ++ bits m ++ "p" ++ exponent e)%string
  end.

Definition host : Host :=
  {| Math_sin := sin; Math_cos := cos; Math_atan2 := atan2;
     Number_toString := toString |}.

End SmallAngleHost.

(* ===================================================================== *)
(** ** Sample data *)
(* ===================================================================== *)

(** Four of the points of [generateMockData], and the demo centre of
    [findNearbyPoints].  A decimal literal denotes the nearest binary64
    value, in JavaScript as here. *)
Module Sample.
Local Open Scope float_scope.
Local Open Scope string_scope.
#[local] Set Warnings "-inexact-float".

Definition newYork : Point :=
  {| id := 1; name := "New York City"; lat := 40.7128; lng := -74.0060;
     type_ := "city";
     description := "The largest city in the United States" |}.

Definition london : Point :=
  {| id := 2; name := "London"; lat := 51.5074; lng := -0.1278;
     type_ := "city"; description := "Capital of the United Kingdom" |}.

Definition melbourne : Point :=
  {| id := 11; name := "Melbourne"; lat := -37.8136; lng := 144.9631;
     type_ := "city"; description := "Cultural capital of Australia" |}.

Definition stKilda : Point :=
  {| id := 18; name := "St Kilda"; lat := -37.8677; lng := 144.9811;
     type_ := "suburb";
     description := "Famous beachside suburb 8km south of Melbourne CBD" |}.

Definition somePoints : list Point := [newYork; melbourne; london; stKilda].

Definition demoCenter : LatLng :=
  {| center_lat := -37.8136; center_lng := 144.9631 |}.

End Sample.

(* ===================================================================== *)
(** ** A host with an engine's values at one pair of antipodes *)
(* ===================================================================== *)

(** ECMAScript: [Math.atan2] of a NaN argument is NaN. *)
Definition atan2_nan {host : Host} : Prop :=
  forall y, Math_atan2 y nan = nan.

(** The sines and cosines the formula asks for between [(8, 0)] and
    [(-8, 180)]: of [8 * PI / 180] and its opposite, and of [PI / 2].  The
    values are the correctly rounded ones (nearest binary64 to the exact
    sine and cosine), which are also those glibc and fdlibm return. *)
Definition rounds_at_eight_degrees {host : Host} : Prop :=
  Math_sin (-0x1.1df46a2529d39p-3)%float = (-0x1.1d06c968d9e19p-3)%float /\
  Math_cos 0x1.1df46a2529d39p-3%float = 0x1.fb046a930947ap-1%float /\
  Math_cos (-0x1.1df46a2529d39p-3)%float = 0x1.fb046a930947ap-1%float /\
  Math_sin 0x1.921fb54442d18p+0%float = 1%float.

(** The small-angle host, with those four values in place of its own. *)
Module EightDegreesHost.
Local Open Scope float_scope.

Definition sin (x : float) : float :=
  if x =? -0x1.1df46a2529d39p-3 then -0x1.1d06c968d9e19p-3
  else if x =? 0x1.921fb54442d18p+0 then 1
  else SmallAngleHost.sin x.

Definition cos (x : float) : float :=
  if abs x =? 0x1.1df46a2529d39p-3 then 0x1.fb046a930947ap-1
  else SmallAngleHost.cos x.

Definition host : Host :=
  {| Math_sin := sin; Math_cos := cos; Math_atan2 := SmallAngleHost.atan2;
     Number_toString := SmallAngleHost.toString |}.

End EightDegreesHost.

(* ===================================================================== *)
(** ** More of script.js: the callers *)
(* ===================================================================== *)

(** [Math.round]: the integral value nearest to [x], a tie going towards
    plus infinity; NaN, the infinities, both zeros and integral values are
    returned as they are, and a value in [[-0.5, -0]] gives [-0].  For
    [x = +-m / 2^k] the result is [floor ((2 * +-m + 2^k) / 2^(k+1))]. *)
Definition Math_round (x : float) : float :=
  match Prim2SF x with
  | S754_finite s m e =>
      if (0 <=? e)%Z then x
      else
        let n := Z.shiftr (2 * cond_Zopp s (Zpos m) + 2 ^ (- e)) (- e + 1) in
        if (n =? 0)%Z then (if s then neg_zero else zero)
        else SF2Prim (binary_normalize prec emax n 0 false)
  | _ => x
  end.

(** The Number that an array length is; exact below [2^53]. *)
Definition Number_ofNat (n : nat) : float :=
  SF2Prim (binary_normalize prec emax (Z.of_nat n) 0 false).

(** *** Arrays and strings *)

(** [array[i]] for a Number [i]: the element at a whole index within
    bounds, [undefined] (here [None]) otherwise. *)
Definition Array_at {A} (l : list A) (i : float) : option A :=
  match Prim2SF i with
  | S754_zero _ => nth_error l 0
  | S754_finite false m e =>
      if (0 <=? e)%Z then nth_error l (Z.to_nat (Zpos m * 2 ^ e))
      else if (Zpos m mod 2 ^ (- e) =? 0)%Z
           then nth_error l (Z.to_nat (Zpos m / 2 ^ (- e)))
           else None
  | _ => None
  end.

(** The double quote, which a string literal of this file cannot hold. *)
Definition dquote : string := String (ascii_of_nat 34) EmptyString.

(** The bullet U+2022, in UTF-8. *)
Definition bullet : string :=
  String (ascii_of_nat 226) (String (ascii_of_nat 128)
    (String (ascii_of_nat 162) EmptyString)).

(** [for (let i = 0; i < size; i++) body], from counter [i] on. *)
Fixpoint forLoop {S} (i size : nat) (body : nat -> S -> completion S) (s : S)
  : completion S :=
  match size with
  | O => Normal s
  | Datatypes.S size' => s' <- body i s ;; forLoop (Datatypes.S i) size' body s'
  end.

(** *** Leaflet objects, as far as the script builds them *)

(** The click listener of a marker: the call its arrow function makes. *)
Inductive ClickHandler :=
| handleMarkerClick (point : Point)
| handleClusterClick (cluster : Cluster).

Record DivIcon := {
  className : string;
  html : string;
  iconSize : float * float
}.

(** [L.marker(latlng, {icon}).bindPopup(popup).on('click', click)]. *)
Record Marker := {
  latlng : float * float;
  icon : option DivIcon;
  popup : string;
  click : ClickHandler
}.

(** The globals of the script that the loaders read and write; [view] is
    the list of positions the bounds last handed to [map.fitBounds] were
    built from.  The status line and the timings are left out. *)
Record App := {
  allPoints : list Point;
  isLeafletAvailable : bool;
  markersLayer : option (list Marker);
  view : option (list (float * float))
}.

(** [{ ...point, distance }]. *)
Record NearbyPoint := {
  spread : Point;
  distance : float
}.

Section Callers.
Context {host : Host}.
Local Open Scope string_scope.
Local Open Scope float_scope.
#[local] Set Warnings "-inexact-float".

(** [`${array.length}`]. *)
Definition lengthString {A} (l : list A) : string :=
  Number_toString (Number_ofNat (List.length l)).

(** *** Test data *)

Section Random.
(** The values [Math.random()] returns during one call of
    [generateTestDataset], in the order of the calls. *)
Variable Math_random : nat -> float.

Definition centers : list LatLng :=
  [ {| center_lat := 40.7128; center_lng := -74.0060 |};
    {| center_lat := 51.5074; center_lng := -0.1278 |};
    {| center_lat := 35.6762; center_lng := 139.6503 |};
    {| center_lat := -33.8688; center_lng := 151.2093 |};
    {| center_lat := 48.8566; center_lng := 2.3522 |} ].

(** The loop bodies of [generateTestDataset]; the state is the array built
    so far and the number of calls of [Math.random] made. *)
Definition pushRandom (i : nat) (s : list Point * nat)
  : completion (list Point * nat) :=
  let '(points, calls) := s in
  Normal ((points ++
          [ {| id := Z.of_nat i + 1000;
               name := "Test Point " ++ Number_toString (Number_ofNat i + 1);
               lat := (Math_random calls - 0.5) * 180;
               lng := (Math_random (calls + 1) - 0.5) * 360;
               type_ := "test";
               description :=
                 "Generated test point " ++
                 Number_toString (Number_ofNat i + 1) ++
                 " for stress testing" |} ])%list,
          (calls + 2)%nat).

Definition pushClustered (i : nat) (s : list Point * nat)
  : completion (list Point * nat) :=
  let '(points, calls) := s in
  match Array_at centers
          (Math_floor (Math_random calls * Number_ofNat (List.length centers))) with
  | None => Throw TypeError
  | Some center =>
      let radius := 0.5 in
      let angle := Math_random (calls + 1) * 2 * Math_PI in
      let distance := Math_random (calls + 2) * radius in
      Normal ((points ++
              [ {| id := Z.of_nat i + 1000;
                   name := "Clustered Point " ++
                           Number_toString (Number_ofNat i + 1);
                   lat := center_lat center + (distance * Math_cos angle);
                   lng := center_lng center + (distance * Math_sin angle);
                   type_ := "test-clustered";
                   description :=
                     "Clustered test point " ++
                     Number_toString (Number_ofNat i + 1) |} ])%list,
              (calls + 3)%nat)
  end.

(** [generateTestDataset(size, type)], for a whole [size] as the menu of
    the page offers; the generation time it records is left out. *)
Definition generateTestDataset (size : nat) (type : string)
  : completion (list Point) :=
  s <- (if String.eqb type "random"
        then forLoop 0 size pushRandom ([], 0%nat)
        else if String.eqb type "clustered"
        then forLoop 0 size pushClustered ([], 0%nat)
        else Normal ([], 0%nat)) ;;
  Normal (fst s).

(** The array literal of [fetchMapPoints]. *)
Definition mockPoints : list Point :=
  [ {| id := 1; name := "New York City"; lat := 40.7128; lng := -74.0060;
       type_ := "city";
       description := "The largest city in the United States" |};
    {| id := 2; name := "London"; lat := 51.5074; lng := -0.1278;
       type_ := "city"; description := "Capital of the United Kingdom" |};
    {| id := 3; name := "Tokyo"; lat := 35.6762; lng := 139.6503;
       type_ := "city"; description := "Capital of Japan" |};
    {| id := 4; name := "Sydney"; lat := -33.8688; lng := 151.2093;
       type_ := "city"; description := "Largest city in Australia" |};
    {| id := 5; name := "Paris"; lat := 48.8566; lng := 2.3522;
       type_ := "city"; description := "Capital of France" |};
    {| id := 6; name := "Cairo"; lat := 30.0444; lng := 31.2357;
       type_ := "city"; description := "Capital of Egypt" |};
    {| id := 7; name := "Mumbai"; lat := 19.0760; lng := 72.8777;
       type_ := "city"; description := "Financial capital of India" |};
    {| id := 8; name := "São Paulo"; lat := -23.5505; lng := -46.6333;
       type_ := "city"; description := "Largest city in Brazil" |};
    {| id := 9; name := "Cape Town"; lat := -33.9249; lng := 18.4241;
       type_ := "city";
       description := "Legislative capital of South Africa" |};
    {| id := 10; name := "Vancouver"; lat := 49.2827; lng := -123.1207;
       type_ := "city"; description := "Coastal city in Canada" |};
    {| id := 11; name := "Melbourne"; lat := -37.8136; lng := 144.9631;
       type_ := "city"; description := "Cultural capital of Australia" |};
    {| id := 12; name := "Geelong"; lat := -38.1499; lng := 144.3617;
       type_ := "city";
       description := "Port city 75km southwest of Melbourne" |};
    {| id := 13; name := "Ballarat"; lat := -37.5622; lng := 143.8503;
       type_ := "city";
       description :=
         "Historic gold rush city 105km northwest of Melbourne" |};
    {| id := 14; name := "Bendigo"; lat := -36.7570; lng := 144.2794;
       type_ := "city";
       description := "Regional city 150km north of Melbourne" |};
    {| id := 15; name := "Mornington"; lat := -38.2176; lng := 145.0391;
       type_ := "coastal";
       description :=
         "Coastal town on Mornington Peninsula, 60km south of Melbourne" |};
    {| id := 16; name := "Dandenong Ranges"; lat := -37.8339;
       lng := 145.3464; type_ := "landmark";
       description :=
         "Mountain range and national park 40km east of Melbourne" |};
    {| id := 17; name := "Frankston"; lat := -38.1342; lng := 145.1231;
       type_ := "suburb";
       description := "Bayside suburb 40km southeast of Melbourne" |};
    {| id := 18; name := "St Kilda"; lat := -37.8677; lng := 144.9811;
       type_ := "suburb";
       description := "Famous beachside suburb 8km south of Melbourne CBD" |};
    {| id := 19; name := "Richmond"; lat := -37.8197; lng := 144.9934;
       type_ := "suburb";
       description := "Inner-city suburb 5km east of Melbourne CBD" |};
    {| id := 20; name := "Footscray"; lat := -37.7993; lng := 144.9005;
       type_ := "suburb";
       description := "Multicultural suburb 8km west of Melbourne CBD" |} ].

(** [fetchMapPoints(testMode, testSize, testType)], without its delay and
    the timings it records. *)
Definition fetchMapPoints (testMode : bool) (testSize : nat)
    (testType : string) : completion (list Point) :=
  if testMode && (0 <? testSize)%nat then
    testPoints <- generateTestDataset testSize testType ;;
    Normal testPoints
  else Normal mockPoints.

End Random.

(** *** Markers *)

(** [`<strong>${point.name}</strong><br>${point.description}`]. *)
Definition pointPopup (point : Point) : string :=
  "<strong>" ++ name point ++ "</strong><br>" ++ description point.

(** The marker both loaders make for a single point. *)
Definition pointMarker (point : Point) : Marker :=
  {| latlng := (lat point, lng point);
     icon := None;
     popup := pointPopup point;
     click := handleMarkerClick point |}.

(** [createClusterPopup(points)]. *)
Definition createClusterPopup (points : list Point) : string :=
  let maxShow := 5%nat in
  let content :=
    "<div><strong>Cluster (" ++ lengthString points ++
    " points)</strong><br>" in
  let content :=
    fold_left (fun content point =>
                 content ++ bullet ++ " " ++ name point ++ "<br>")
      (firstn maxShow points) content in
  let content :=
    if (maxShow <? List.length points)%nat
    then content ++ "... and " ++
         Number_toString (Number_ofNat (List.length points) - Number_ofNat maxShow)
         ++ " more"
    else content in
  content ++ "</div>".

(** [cluster.points.reduce((sum, p) => sum + p.lat, 0) /
    cluster.points.length], and the same for [lng]. *)
Definition centerLat (cluster : Cluster) : float :=
  fold_left (fun sum p => sum + lat p) (points cluster) 0 /
  Number_ofNat (List.length (points cluster)).
Definition centerLng (cluster : Cluster) : float :=
  fold_left (fun sum p => sum + lng p) (points cluster) 0 /
  Number_ofNat (List.length (points cluster)).

Definition clusterIcon (cluster : Cluster) : DivIcon :=
  {| className := "cluster-marker";
     html :=
       "<div style=" ++ dquote ++
       "background: #ff6b35; color: white; border-radius: 50%; width: 30px; height: 30px; display: flex; align-items: center; justify-content: center; font-weight: bold; border: 2px solid white; box-shadow: 0 2px 4px rgba(0,0,0,0.3);"
       ++ dquote ++ ">" ++ lengthString (points cluster) ++ "</div>";
     iconSize := (30, 30) |}.

(** The body of the first [clusters.forEach] of [loadPointsWithClustering]:
    the marker added for one cluster.  An array of length 1 has an element
    0, so [cluster.points[0]] is that element. *)
Definition clusterMarker (cluster : Cluster) : Marker :=
  match points cluster with
  | [point] => pointMarker point
  | _ =>
      {| latlng := (centerLat cluster, centerLng cluster);
         icon := Some (clusterIcon cluster);
         popup := createClusterPopup (points cluster);
         click := handleClusterClick cluster |}
  end.

(** [loadPointsWithClustering(points)], on the layer and the view it finds:
    the layer and the view it leaves. *)
Definition loadPointsWithClustering (points : list Point)
    (layer : list Marker) (fitted : option (list (float * float)))
  : completion (list Marker * option (list (float * float))) :=
  clusters <- createGridClusters points 0.5 ;;
  let layer :=
    fold_left (fun layer cluster => (layer ++ [clusterMarker cluster])%list)
      clusters layer in
  let fitted :=
    if (0 <? List.length clusters)%nat
    then Some (map (fun cluster => (centerLat cluster, centerLng cluster))
                 clusters)
    else fitted in
  Normal (layer, fitted).

(** [loadMapPoints(testMode, testSize, testType)], run to its end without
    another event in between.  An exception is caught at the place the
    state has reached: [allPoints] is assigned after the fetch, the layer
    is cleared before the clusters are made. *)
Definition loadMapPoints (Math_random : nat -> float) (app : App)
    (testMode : bool) (testSize : nat) (testType : string) : App :=
  match fetchMapPoints Math_random testMode testSize testType with
  | Throw _ => app
  | Normal points =>
      match isLeafletAvailable app, markersLayer app with
      | true, Some _ =>
          let cleared : list Marker := [] in
          if (1000 <? List.length points)%nat then
            match loadPointsWithClustering points cleared (view app) with
            | Normal (layer, fitted) =>
                {| allPoints := points; isLeafletAvailable := true;
                   markersLayer := Some layer; view := fitted |}
            | Throw _ =>
                {| allPoints := points; isLeafletAvailable := true;
                   markersLayer := Some cleared; view := view app |}
            end
          else
            let layer :=
              fold_left (fun layer point => (layer ++ [pointMarker point])%list)
                points cleared in
            {| allPoints := points; isLeafletAvailable := true;
               markersLayer := Some layer;
               view := if (0 <? List.length points)%nat
                       then Some (map latlng layer) else view app |}
      | _, _ =>
          {| allPoints := points;
             isLeafletAvailable := isLeafletAvailable app;
             markersLayer := markersLayer app; view := view app |}
      end
  end.

(** *** The sample of nearby points *)

Definition sampleCenter : LatLng :=
  {| center_lat := 51.5074; center_lng := -0.1278 |}.
Definition sampleRadius : float := 3000.

(** The [filter], [map] and [sort] of [showSampleNearbyPoints]. *)
Definition showSampleNearbyPoints (allPoints : list Point)
  : list NearbyPoint :=
  Array_sort (fun a b => distance a - distance b)
    (map (fun point =>
            let distance := distanceFrom sampleCenter point in
            {| spread := point; distance := Math_round distance |})
       (filter (fun point =>
                  let distance := distanceFrom sampleCenter point in
                  distance <=? sampleRadius) allPoints)).

End Callers.

(** *** What the new statements speak of *)

(** The points a marker stands for. *)
Definition represented (m : Marker) : list Point :=
  match click m with
  | handleMarkerClick point => [point]
  | handleClusterClick cluster => points cluster
  end.

(** The state the page starts in, before the first [loadMapPoints]:
    [initializeLeafletMap] creates the layer when Leaflet is defined. *)
Definition initialApp (leafletDefined : bool) : App :=
  {| allPoints := [];
     isLeafletAvailable := leafletDefined;
     markersLayer := if leafletDefined then Some [] else None;
     view := None |}.

(** The markers on the map stand for the loaded points, each point under
    exactly one marker; a layer exists only with Leaflet. *)
Definition consistent (app : App) : Prop :=
  match markersLayer app with
  | Some layer =>
      isLeafletAvailable app = true /\
      Permutation (List.concat (map represented layer)) (allPoints app)
  | None => True
  end.

(** A request to load: the values [Math.random] will return during it, and
    the arguments of [loadMapPoints]. *)
Record LoadRequest := {
  randoms : nat -> float;
  testMode : bool;
  testSize : nat;
  testType : string
}.

Definition afterLoads {host : Host} (app : App) (requests : list LoadRequest)
  : App :=
  fold_left (fun app r =>
               loadMapPoints (randoms r) app (testMode r) (testSize r)
                 (testType r))
    requests app.

(** [Math.cos] is even. *)
Definition cos_even {host : Host} : Prop :=
  forall x, Math_cos (- x)%float = Math_cos x.

(** [Math.random] returns numbers of [[0, 1)]. *)
Definition unit_random (Math_random : nat -> float) : Prop :=
  forall n, (0 <=? Math_random n)%float = true /\
            (Math_random n <? 1)%float = true.

(* ===================================================================== *)
(** ** Binary64 arithmetic *)
(* ===================================================================== *)

(** *** Order *)

Module FloatOrder.
Import FloatSpec.
Local Open Scope Z_scope.

Lemma digits2_bounds (p : positive) :
  2 ^ (Zpos (digits2_pos p) - 1) <= Zpos p < 2 ^ Zpos (digits2_pos p).
Proof.
  induction p as [p IH|p IH|]; simpl digits2_pos.
  - rewrite Pos2Z.inj_succ.
    replace (Z.succ (Zpos (digits2_pos p)) - 1) with (Z.succ (Zpos (digits2_pos p) - 1)) by lia.
    rewrite !Z.pow_succ_r by lia. lia.
  - rewrite Pos2Z.inj_succ.
    replace (Z.succ (Zpos (digits2_pos p)) - 1) with (Z.succ (Zpos (digits2_pos p) - 1)) by lia.
    rewrite !Z.pow_succ_r by lia. lia.
  - simpl. lia.
Qed.

(** What [bounded] says of a finite number [m * 2^e]. *)
Lemma bounded_inv (m : positive) (e : Z) :
  bounded prec emax m e = true ->
  emin <= e <= emax - prec /\
  Zpos (digits2_pos m) <= prec /\
  (emin < e -> Zpos (digits2_pos m) = prec).
Proof.
  unfold bounded, canonical_mantissa, fexp, SpecFloat.emin, prec, emax.
  intros H. apply andb_true_iff in H. destruct H as [H1 H2].
  apply Z.eqb_eq in H1. apply Z.leb_le in H2. lia.
Qed.

Lemma finite_magnitude (m : positive) (e : Z) :
  bounded prec emax m e = true ->
  0 < Zpos m * 2 ^ (e - emin) < 2 ^ 2100.
Proof.
  intros H. destruct (bounded_inv _ _ H) as (He & Hd & _).
  pose proof (digits2_bounds m) as [_ Hm].
  unfold SpecFloat.emin, prec, emax in *.
  assert (H0 : 0 < 2 ^ (e - (3 - 1024 - 53))) by (apply Z.pow_pos_nonneg; lia).
  split; [lia|].
  apply Z.lt_le_trans with (2 ^ 53 * 2 ^ (e - (3 - 1024 - 53))).
  - apply Z.mul_lt_mono_pos_r; [assumption|].
    eapply Z.lt_le_trans; [exact Hm|]. apply Z.pow_le_mono_r; lia.
  - rewrite <- Z.pow_add_r by lia. apply Z.pow_le_mono_r; lia.
Qed.

Lemma finite_compare (m1 m2 : positive) (e1 e2 : Z) :
  bounded prec emax m1 e1 = true -> bounded prec emax m2 e2 = true ->
  (Zpos m1 * 2 ^ (e1 - emin) ?= Zpos m2 * 2 ^ (e2 - emin)) =
  match e1 ?= e2 with
  | Lt => Lt
  | Gt => Gt
  | Eq => Pos.compare_cont Eq m1 m2
  end.
Proof.
  intros H1 H2.
  destruct (bounded_inv _ _ H1) as (He1 & Hd1 & Hn1).
  destruct (bounded_inv _ _ H2) as (He2 & Hd2 & Hn2).
  pose proof (digits2_bounds m1) as [Hl1 Hu1].
  pose proof (digits2_bounds m2) as [Hl2 Hu2].
  assert (Hlt : forall ma mb ea eb,
             emin <= ea < eb ->
             Zpos ma < 2 ^ prec -> 2 ^ (prec - 1) <= Zpos mb ->
             Zpos ma * 2 ^ (ea - emin) < Zpos mb * 2 ^ (eb - emin)).
  { intros ma mb ea eb Hab Ha Hb.
    replace (eb - emin) with ((eb - ea - 1) + 1 + (ea - emin)) by lia.
    rewrite (Z.pow_add_r 2 (eb - ea - 1 + 1)), (Z.pow_add_r 2 (eb - ea - 1)) by lia.
    assert (0 < 2 ^ (ea - emin)) by (apply Z.pow_pos_nonneg; lia).
    assert (1 <= 2 ^ (eb - ea - 1)) by (apply (Z.pow_le_mono_r 2 0); lia).
    replace (2 ^ prec) with (2 ^ (prec - 1) * 2) in Ha by reflexivity.
    change (2 ^ 1) with 2.
    generalize dependent (2 ^ (prec - 1)). generalize dependent (2 ^ (ea - emin)).
    generalize dependent (2 ^ (eb - ea - 1)). intros Pw HP K HK T Ha Hb.
    assert (Z.pos ma * K < Z.pos mb * 2 * K) by nia.
    assert (Z.pos mb * 2 * K * 1 <= Z.pos mb * 2 * K * Pw)
      by (apply Z.mul_le_mono_nonneg_l; lia).
    lia. }
  assert (Hup : forall m, Zpos (digits2_pos m) <= prec -> Zpos m < 2 ^ Zpos (digits2_pos m) ->
                          Zpos m < 2 ^ prec).
  { intros m Hd Hu. eapply Z.lt_le_trans; [exact Hu|].
    apply Z.pow_le_mono_r; lia. }
  destruct (Z.compare_spec e1 e2) as [E|E|E].
  - subst e2. rewrite <- Zmult_compare_compat_r; [reflexivity|].
    apply Z.lt_gt, Z.pow_pos_nonneg; lia.
  - apply Z.compare_lt_iff. apply Hlt; [lia|auto|].
    rewrite <- Hn2 by lia. exact Hl2.
  - apply Z.compare_gt_iff. apply Hlt; [lia|auto|].
    rewrite <- Hn1 by lia. exact Hl1.
Qed.

(** On valid numbers that are not NaN, IEEE comparison is the comparison
    of the scaled values. *)
Lemma SFcompare_scaled (x y : spec_float) :
  valid_binary x = true -> valid_binary y = true ->
  not_nan x = true -> not_nan y = true ->
  SFcompare x y = Some (scaled x ?= scaled y).
Proof.
  assert (Hlt : forall a b, a < b -> Some Lt = Some (a ?= b))
    by (intros a b H; f_equal; symmetry; now apply Z.compare_lt_iff).
  assert (Hgt : forall a b, b < a -> Some Gt = Some (a ?= b))
    by (intros a b H; f_equal; symmetry; now apply Z.compare_gt_iff).
  assert (Hinf : 0 < 2 ^ 2100) by (apply Z.pow_pos_nonneg; lia).
  destruct x as [sx|sx| |sx mx ex], y as [sy|sy| |sy my ey];
    cbn [valid_binary not_nan]; intros Vx Vy Nx Ny; try discriminate;
    try pose proof (finite_magnitude _ _ Vx) as Mx;
    try pose proof (finite_magnitude _ _ Vy) as My;
    unfold SFcompare, scaled, cond_Zopp;
    try (destruct sx); try (destruct sy);
    try reflexivity;
    try (apply Hlt; lia); try (apply Hgt; lia).
  - pose proof (finite_compare _ _ _ _ Vy Vx) as Hc.
    f_equal. rewrite Z.compare_opp, Hc, (Z.compare_antisym ex ey).
    destruct (ex ?= ey); cbn [CompOpp]; try reflexivity.
    now rewrite Pos.compare_cont_antisym.
  - f_equal. symmetry. now apply finite_compare.
Qed.
End FloatOrder.

(** *** Rounding *)

Module Rounding.
Import FloatSpec.
Local Open Scope Z_scope.

Lemma binary_round_aux_signed s m e l :
  signed s (binary_round_aux prec emax s m e l).
Proof.
  unfold binary_round_aux.
  destruct (shr_fexp prec emax m e l) as [mrs' e'].
  destruct (shr_fexp prec emax _ e' loc_Exact) as [mrs'' e''].
  destruct (shr_m mrs''); [reflexivity| |exact I].
  destruct (e'' <=? emax - prec); reflexivity.
Qed.

Lemma binary_round_signed s m e : signed s (binary_round prec emax s m e).
Proof.
  unfold binary_round. destruct (shl_align _ _ _). apply binary_round_aux_signed.
Qed.

Lemma shr_1_m mrs : 0 <= shr_m mrs -> shr_m (shr_1 mrs) = Z.div2 (shr_m mrs).
Proof.
  destruct mrs as [m r s]. simpl.
  destruct m as [|[p|p|]|p]; simpl; intros H; try reflexivity; lia.
Qed.

Lemma iter_shr_1_m n : forall mrs,
  0 <= shr_m mrs ->
  shr_m (iter_pos shr_1 n mrs) = Z.shiftr (shr_m mrs) (Zpos n).
Proof.
  assert (Hnn : forall a k, 0 <= a -> 0 <= k -> 0 <= Z.shiftr a k)
    by (intros; now apply Z.shiftr_nonneg).
  assert (H1 : forall mrs, 0 <= shr_m mrs ->
               shr_m (shr_1 mrs) = Z.shiftr (shr_m mrs) 1).
  { intros mrs H. rewrite shr_1_m by assumption. now rewrite Z.div2_spec. }
  induction n as [n IH|n IH|]; intros mrs H; cbn [iter_pos].
  - rewrite IH, IH, H1 by (rewrite ?IH, ?H1 by (rewrite ?H1; auto with zarith); auto with zarith).
    rewrite !Z.shiftr_shiftr by lia. f_equal. lia.
  - rewrite IH, IH by (rewrite ?IH by assumption; auto with zarith).
    rewrite !Z.shiftr_shiftr by lia. f_equal. lia.
  - now apply H1.
Qed.

Lemma shr_record_of_loc_m m l : shr_m (shr_record_of_loc m l) = m.
Proof. destruct l as [|[| |]]; reflexivity. Qed.

Lemma Zdigits2_bounds m :
  1 <= m -> 1 <= Zdigits2 m /\ 2 ^ (Zdigits2 m - 1) <= m < 2 ^ Zdigits2 m.
Proof.
  destruct m as [|p|p]; try lia. intros _. simpl.
  split; [lia|]. apply FloatOrder.digits2_bounds.
Qed.

(** Rounding to the format's exponent keeps a positive mantissa positive
    as long as the number lies above the smallest exponent. *)
Lemma shr_fexp_pos m e l :
  1 <= m -> emin <= e ->
  1 <= shr_m (fst (shr_fexp prec emax m e l)) /\
  emin <= snd (shr_fexp prec emax m e l).
Proof.
  intros Hm He. unfold shr_fexp, shr.
  destruct (Zdigits2_bounds m Hm) as (Hd & Hlo & Hhi).
  remember (Zdigits2 m) as d.
  destruct (fexp prec emax (d + e) - e) as [|n|n] eqn:En; simpl;
    rewrite ?shr_record_of_loc_m; try (split; assumption).
  rewrite iter_shr_1_m by (rewrite shr_record_of_loc_m; lia).
  rewrite shr_record_of_loc_m.
  unfold fexp in En.
  assert (Hemin : emin = -1074) by reflexivity.
  assert (Hprec : prec = 53) by reflexivity.
  split; [|lia].
  rewrite Z.shiftr_div_pow2 by lia.
  apply Z.div_le_lower_bound; [apply Z.pow_pos_nonneg; lia|].
  rewrite Z.mul_1_r. eapply Z.le_trans; [|exact Hlo].
  apply Z.pow_le_mono_r; lia.
Qed.

Lemma round_nearest_even_ge m l : m <= round_nearest_even m l.
Proof.
  unfold round_nearest_even. destruct l as [|[| |]]; try lia.
  destruct (Z.even m); lia.
Qed.

Lemma binary_round_aux_pos s m e l :
  1 <= m -> emin <= e ->
  nonzero_signed s (binary_round_aux prec emax s m e l).
Proof.
  intros Hm He. unfold binary_round_aux.
  pose proof (shr_fexp_pos m e l Hm He) as [H1 H2].
  destruct (shr_fexp prec emax m e l) as [mrs' e']. simpl in H1, H2.
  pose proof (round_nearest_even_ge (shr_m mrs') (loc_of_shr_record mrs')) as Hr.
  pose proof (shr_fexp_pos _ e' loc_Exact (Z.le_trans _ _ _ H1 Hr) H2) as [H3 H4].
  destruct (shr_fexp prec emax _ e' loc_Exact) as [mrs'' e'']. simpl in H3, H4.
  destruct (shr_m mrs''); try lia.
  destruct (e'' <=? emax - prec); reflexivity.
Qed.

Lemma digits2_pos_iter_xO d m :
  Zpos (digits2_pos (Pos.iter xO m d)) = Zpos (digits2_pos m) + Zpos d.
Proof.
  induction d as [|d IH] using Pos.peano_ind.
  - simpl. lia.
  - rewrite Pos.iter_succ. simpl digits2_pos. lia.
Qed.

Lemma binary_round_pos s m e :
  emin <= e -> nonzero_signed s (binary_round prec emax s m e).
Proof.
  intros He. unfold binary_round, shl_align.
  destruct (fexp prec emax (Zpos (digits2_pos m) + e) - e) eqn:En;
    apply binary_round_aux_pos; try lia.
  unfold fexp in *. lia.
Qed.

Lemma binary_normalize_sign m e :
  emin <= e ->
  match m with
  | 0 => binary_normalize prec emax m e false = S754_zero false
  | Zpos _ => nonzero_signed false (binary_normalize prec emax m e false)
  | Zneg _ => nonzero_signed true (binary_normalize prec emax m e false)
  end.
Proof.
  intros He. destruct m; simpl; [reflexivity| |]; now apply binary_round_pos.
Qed.
End Rounding.

(** *** Comparison and subtraction *)

Module FloatFacts.
Import FloatSpec FloatOrder Rounding.
Local Open Scope Z_scope.

Lemma iter_xO_value d m : Zpos (Pos.iter xO m d) = Zpos m * 2 ^ Zpos d.
Proof.
  induction d as [|d IH] using Pos.peano_ind.
  - simpl. lia.
  - rewrite Pos.iter_succ, Pos2Z.inj_succ, Z.pow_succ_r by lia.
    rewrite Pos2Z.inj_xO, IH. lia.
Qed.

Lemma shl_align_value m e e' :
  e' <= e -> Zpos (fst (shl_align m e e')) = Zpos m * 2 ^ (e - e').
Proof.
  intros H. unfold shl_align.
  destruct (e' - e) as [|d|d] eqn:E; simpl fst.
  - replace (e - e') with 0 by lia. simpl. lia.
  - lia.
  - rewrite iter_xO_value. f_equal. f_equal. lia.
Qed.

(** The aligned mantissas that [SFadd] and [SFsub] combine are the scaled
    values, up to a common power of two. *)
Lemma aligned_scaled s m e ez :
  emin <= ez <= e ->
  scaled (S754_finite s m e) =
  cond_Zopp s (Zpos (fst (shl_align m e ez))) * 2 ^ (ez - emin).
Proof.
  intros H. rewrite shl_align_value by lia. unfold scaled.
  replace (e - emin) with ((e - ez) + (ez - emin)) by lia.
  rewrite (Z.pow_add_r 2 (e - ez) (ez - emin)) by lia.
  destruct s; unfold cond_Zopp; ring.
Qed.

Lemma SFltb_zero_nonzero_signed s r :
  nonzero_signed s r -> SFltb (S754_zero false) r = negb s.
Proof. destruct r as [| | |]; simpl; try tauto; intros ->; now destruct s. Qed.

(** The sign of a difference decides the order of its operands:
    subtraction never rounds a non-zero difference to zero. *)
Lemma SFsub_pos (x y : spec_float) :
  valid_binary x = true -> valid_binary y = true ->
  not_nan x = true -> not_nan y = true ->
  SFltb (S754_zero false) (SFsub prec emax x y) = (scaled y <? scaled x).
Proof.
  assert (Hinf : 0 < 2 ^ 2100) by (apply Z.pow_pos_nonneg; lia).
  destruct x as [sx|sx| |sx mx ex], y as [sy|sy| |sy my ey];
    cbn [valid_binary not_nan]; intros Vx Vy Nx Ny; try discriminate;
    try pose proof (finite_magnitude _ _ Vx) as Mx;
    try pose proof (finite_magnitude _ _ Vy) as My.
  1-8: unfold SFsub, scaled, cond_Zopp;
       try (destruct sx); try (destruct sy); unfold SFltb, SFcompare;
       symmetry; first [apply Z.ltb_lt; lia | apply Z.ltb_ge; lia].
  destruct (bounded_inv _ _ Vx) as (Hex & _).
  destruct (bounded_inv _ _ Vy) as (Hey & _).
  unfold SFsub.
  set (ez := Z.min ex ey).
  assert (Hez : emin <= ez) by (unfold ez; lia).
  rewrite (aligned_scaled sx mx ex ez), (aligned_scaled sy my ey ez)
    by (unfold ez; lia).
  set (X := cond_Zopp sx _). set (Y := cond_Zopp sy _).
  assert (HK : 0 < 2 ^ (ez - emin)) by (apply Z.pow_pos_nonneg; lia).
  pose proof (binary_normalize_sign (X - Y) ez Hez) as Hn.
  destruct (X - Y) as [|p|p] eqn:E.
  - rewrite Hn. symmetry. apply Z.ltb_ge. nia.
  - rewrite (SFltb_zero_nonzero_signed _ _ Hn). symmetry. apply Z.ltb_lt. nia.
  - rewrite (SFltb_zero_nonzero_signed _ _ Hn). symmetry. apply Z.ltb_ge. nia.
Qed.

Local Open Scope float_scope.

Lemma is_nan_spec (x : float) : is_nan x = negb (not_nan (Prim2SF x)).
Proof.
  unfold is_nan. rewrite eqb_spec. unfold SFeqb.
  destruct (not_nan (Prim2SF x)) eqn:N.
  - rewrite SFcompare_scaled by (auto using Prim2SF_valid).
    now rewrite Z.compare_refl.
  - destruct (Prim2SF x); try discriminate. reflexivity.
Qed.

Lemma not_nan_of (x : float) : is_nan x = false -> not_nan (Prim2SF x) = true.
Proof. rewrite is_nan_spec. now destruct (not_nan _). Qed.

Lemma compare_ord (x y : float) :
  is_nan x = false -> is_nan y = false ->
  SFcompare (Prim2SF x) (Prim2SF y) = Some (ord x ?= ord y)%Z.
Proof.
  intros Hx Hy. apply SFcompare_scaled; auto using Prim2SF_valid, not_nan_of.
Qed.

Lemma ltb_ord (x y : float) :
  is_nan x = false -> is_nan y = false -> (x <? y) = (ord x <? ord y)%Z.
Proof.
  intros Hx Hy. rewrite ltb_spec. unfold SFltb, Z.ltb.
  now rewrite compare_ord.
Qed.

Lemma leb_ord (x y : float) :
  is_nan x = false -> is_nan y = false -> (x <=? y) = (ord x <=? ord y)%Z.
Proof.
  intros Hx Hy. rewrite leb_spec. unfold SFleb, Z.leb.
  rewrite compare_ord by assumption. now destruct (ord x ?= ord y)%Z.
Qed.

Lemma eqb_ord (x y : float) :
  is_nan x = false -> is_nan y = false -> (x =? y) = (ord x =? ord y)%Z.
Proof.
  intros Hx Hy. rewrite eqb_spec. unfold SFeqb.
  rewrite compare_ord by assumption.
  destruct (Z.eqb_spec (ord x) (ord y)) as [E|E].
  - now rewrite E, Z.compare_refl.
  - destruct (Z.compare_spec (ord x) (ord y)); [contradiction|reflexivity..].
Qed.

(** A comparison with NaN is false. *)
Lemma leb_nan_l (x y : float) : is_nan x = true -> (x <=? y) = false.
Proof.
  rewrite is_nan_spec, leb_spec. destruct (Prim2SF x); try discriminate.
  reflexivity.
Qed.

Lemma leb_nan_r (x y : float) : is_nan y = true -> (x <=? y) = false.
Proof.
  rewrite is_nan_spec, leb_spec. destruct (Prim2SF y); try discriminate.
  now destruct (Prim2SF x).
Qed.

Lemma leb_true_not_nan (x y : float) :
  (x <=? y) = true -> is_nan x = false /\ is_nan y = false.
Proof.
  intros H. split.
  - destruct (is_nan x) eqn:E; [|reflexivity]. now rewrite leb_nan_l in H.
  - destruct (is_nan y) eqn:E; [|reflexivity]. now rewrite leb_nan_r in H.
Qed.

Lemma eqb_true_not_nan (x y : float) :
  (x =? y) = true -> is_nan x = false /\ is_nan y = false.
Proof.
  rewrite !is_nan_spec, eqb_spec. unfold SFeqb.
  destruct (Prim2SF x), (Prim2SF y); simpl; try discriminate; auto.
Qed.

Lemma ltb_zero_nan (x : float) : is_nan x = true -> (0 <? x) = false.
Proof.
  rewrite is_nan_spec, ltb_spec. destruct (Prim2SF x); try discriminate.
  reflexivity.
Qed.

(** [x - y > 0] exactly when [x > y], for operands that are not NaN. *)
Lemma sub_pos (x y : float) :
  is_nan x = false -> is_nan y = false ->
  (0 <? x - y) = (ord y <? ord x)%Z.
Proof.
  intros Hx Hy. rewrite ltb_spec, sub_spec.
  change (Prim2SF 0) with (S754_zero false).
  apply SFsub_pos; auto using Prim2SF_valid, not_nan_of.
Qed.

Lemma ltb_true_not_nan (x y : float) :
  (x <? y) = true -> is_nan x = false /\ is_nan y = false.
Proof.
  rewrite !is_nan_spec, ltb_spec. unfold SFltb.
  destruct (Prim2SF x), (Prim2SF y); simpl; try discriminate; auto.
Qed.

Lemma eqb_leb (x y : float) : (x =? y) = true -> (x <=? y) = true.
Proof.
  intros H. destruct (eqb_true_not_nan _ _ H) as [Hx Hy].
  rewrite eqb_ord in H by assumption. rewrite leb_ord by assumption.
  apply Z.eqb_eq in H. apply Z.leb_le. lia.
Qed.

Lemma ltb_not_leb (x y : float) : (y <? x) = true -> (x <=? y) = false.
Proof.
  intros H. destruct (ltb_true_not_nan _ _ H) as [Hy Hx].
  rewrite ltb_ord in H by assumption. rewrite leb_ord by assumption.
  apply Z.ltb_lt in H. apply Z.leb_gt. lia.
Qed.
End FloatFacts.

(** *** Signs *)

Module Signs.
Import FloatSpec FloatOrder Rounding FloatFacts.

Lemma signed_false_SFsign r : signed false r -> SFsign r = false.
Proof. destruct r; simpl; auto. Qed.

Lemma SFmul_signed x y :
  signed (xorb (SFsign x) (SFsign y)) (SFmul prec emax x y).
Proof.
  destruct x as [sx|sx| |sx mx ex], y as [sy|sy| |sy my ey];
    try exact I; try reflexivity.
  apply binary_round_aux_signed.
Qed.

Lemma SFsqrt_sign x :
  x <> S754_zero true -> SFsign (SFsqrt prec emax x) = false.
Proof.
  destruct x as [[|]|[|]| |[|] m e]; try reflexivity; try congruence.
  intros _. unfold SFsqrt.
  destruct (SFsqrt_core_binary prec emax (Z.pos m) e) as [[mz ez] lz].
  apply signed_false_SFsign, binary_round_aux_signed.
Qed.

(** A sum is [-0] only when both terms are. *)
Lemma SFadd_neg_zero x y :
  valid_binary x = true -> valid_binary y = true ->
  SFadd prec emax x y = S754_zero true ->
  x = S754_zero true /\ y = S754_zero true.
Proof.
  destruct x as [sx|sx| |sx mx ex], y as [sy|sy| |sy my ey];
    cbn [valid_binary]; intros Vx Vy; unfold SFadd;
    try (destruct sx); try (destruct sy); try discriminate; auto.
  all: destruct (bounded_inv _ _ Vx) as (Hex & _);
    destruct (bounded_inv _ _ Vy) as (Hey & _);
    match goal with
    | |- binary_normalize _ _ ?m ?e _ = _ -> _ =>
        assert (He : (emin <= e)%Z) by lia;
        pose proof (binary_normalize_sign m e He) as Hn;
        destruct m; intros E; rewrite E in Hn; try discriminate; contradiction
    end.
Qed.

(** A difference of two finite numbers is never [-0]. *)
Lemma SFsub_finite_neg_zero sx mx ex y :
  bounded prec emax mx ex = true -> valid_binary y = true ->
  SFsub prec emax (S754_finite sx mx ex) y <> S754_zero true.
Proof.
  intros Vx. destruct y as [sy|sy| |sy my ey]; cbn [valid_binary]; intros Vy;
    unfold SFsub; try discriminate.
  destruct (bounded_inv _ _ Vx) as (Hex & _).
  destruct (bounded_inv _ _ Vy) as (Hey & _).
  match goal with
  | |- binary_normalize _ _ ?m ?e _ <> _ =>
      assert (He : (emin <= e)%Z) by lia;
      pose proof (binary_normalize_sign m e He) as Hn;
      destruct m; intros E; rewrite E in Hn; try discriminate; contradiction
  end.
Qed.

Local Open Scope float_scope.

Lemma mul_sign (x y : float) :
  sign_bit x = false -> sign_bit y = false -> sign_bit (x * y) = false.
Proof.
  unfold sign_bit. intros Hx Hy. rewrite mul_spec.
  apply signed_false_SFsign. rewrite <- (xorb_nilpotent false).
  rewrite <- Hx at 1. rewrite <- Hy. apply SFmul_signed.
Qed.

Lemma mul_self_sign (x : float) : sign_bit (x * x) = false.
Proof.
  unfold sign_bit. rewrite mul_spec.
  apply signed_false_SFsign. rewrite <- (xorb_nilpotent (SFsign (Prim2SF x))).
  apply SFmul_signed.
Qed.

Lemma add_sign_l (x y : float) :
  Prim2SF x <> S754_zero true -> Prim2SF (x + y) <> S754_zero true.
Proof.
  intros Hx E. rewrite add_spec in E.
  apply SFadd_neg_zero in E; auto using Prim2SF_valid. tauto.
Qed.

Lemma sign_bit_not_neg_zero (x : float) :
  sign_bit x = false -> Prim2SF x <> S754_zero true.
Proof. unfold sign_bit. intros H E. now rewrite E in H. Qed.

Lemma sqrt_sign (x : float) :
  Prim2SF x <> S754_zero true -> sign_bit (Math_sqrt x) = false.
Proof.
  intros H. unfold sign_bit, Math_sqrt. rewrite sqrt_spec.
  now apply SFsqrt_sign.
Qed.

Lemma one_sub_not_neg_zero (a : float) : Prim2SF (1 - a) <> S754_zero true.
Proof.
  rewrite sub_spec. pose proof (Prim2SF_valid 1) as V.
  change (Prim2SF 1) with (S754_finite false 4503599627370496 (-52)) in *.
  apply SFsub_finite_neg_zero; [exact V|apply Prim2SF_valid].
Qed.

(** A number that is not negative lies above every negative one. *)
Lemma sign_clear_not_leb_neg (d r : float) :
  sign_bit d = false -> (r <? 0) = true -> (d <=? r) = false.
Proof.
  intros Hd Hr. destruct (is_nan d) eqn:Nd; [now apply leb_nan_l|].
  destruct (ltb_true_not_nan _ _ Hr) as [Nr _].
  rewrite ltb_ord in Hr by (auto; reflexivity).
  rewrite leb_ord by assumption.
  apply Z.ltb_lt in Hr. apply Z.leb_gt.
  change (ord 0) with 0%Z in Hr.
  enough (0 <= ord d)%Z by lia.
  unfold sign_bit, ord in *. pose proof (Prim2SF_valid d) as V.
  assert (Hinf : (0 < 2 ^ 2100)%Z) by (apply Z.pow_pos_nonneg; lia).
  destruct (Prim2SF d) as [s|s| |s m e];
    cbn [SFsign scaled valid_binary] in *; subst; unfold cond_Zopp;
    try pose proof (finite_magnitude _ _ V); lia.
Qed.
End Signs.

(** *** Sign symmetry *)

Module Mirror.
Import FloatSpec Rounding.

Lemma SFopp_involutive x : SFopp (SFopp x) = x.
Proof. destruct x; simpl; now rewrite ?negb_involutive. Qed.

Lemma binary_round_aux_opp s m e l :
  binary_round_aux prec emax (negb s) m e l =
  SFopp (binary_round_aux prec emax s m e l).
Proof.
  unfold binary_round_aux.
  destruct (shr_fexp prec emax m e l) as [mrs' e'].
  destruct (shr_fexp prec emax _ e' loc_Exact) as [mrs'' e''].
  destruct (shr_m mrs''); try reflexivity.
  destruct (e'' <=? emax - prec)%Z; reflexivity.
Qed.

Lemma binary_round_opp s m e :
  binary_round prec emax (negb s) m e = SFopp (binary_round prec emax s m e).
Proof.
  unfold binary_round. destruct (shl_align _ _ _). apply binary_round_aux_opp.
Qed.

Lemma binary_normalize_opp m e :
  m <> 0%Z ->
  binary_normalize prec emax (- m) e false =
  SFopp (binary_normalize prec emax m e false).
Proof.
  destruct m; [congruence| |]; intros _; simpl;
    [apply (binary_round_opp false)|].
  change true with (negb false).
  now rewrite binary_round_opp, SFopp_involutive.
Qed.

Lemma SFmul_opp_l x y :
  SFmul prec emax (SFopp x) y = SFopp (SFmul prec emax x y).
Proof.
  destruct x as [sx|sx| |sx mx ex], y as [sy|sy| |sy my ey];
    cbn [SFopp SFmul]; try reflexivity; rewrite <- ?negb_xorb_l; try reflexivity.
  apply binary_round_aux_opp.
Qed.

Lemma SFmul_comm x y : SFmul prec emax x y = SFmul prec emax y x.
Proof.
  destruct x as [sx|sx| |sx mx ex], y as [sy|sy| |sy my ey];
    cbn [SFmul]; try reflexivity; rewrite (xorb_comm sx sy); try reflexivity.
  now rewrite Pos.mul_comm, Z.add_comm.
Qed.

Lemma SFdiv_opp_l x y :
  SFdiv prec emax (SFopp x) y = SFopp (SFdiv prec emax x y).
Proof.
  destruct x as [sx|sx| |sx mx ex], y as [sy|sy| |sy my ey];
    cbn [SFopp SFdiv]; try reflexivity; rewrite <- ?negb_xorb_l; try reflexivity.
  destruct (SFdiv_core_binary prec emax (Z.pos mx) ex (Z.pos my) ey) as [[mz ez] lz].
  apply binary_round_aux_opp.
Qed.

(** Swapping the operands of a subtraction negates the difference, except
    that a zero difference of equal operands is [+0] both ways. *)
Lemma SFsub_swap x y :
  SFsub prec emax x y = SFopp (SFsub prec emax y x) \/
  SFsub prec emax x y = SFsub prec emax y x.
Proof.
  destruct x as [sx|sx| |sx mx ex], y as [sy|sy| |sy my ey];
    cbn [SFsub SFopp];
    try (destruct sx); try (destruct sy); cbn [negb SFopp]; auto.
  all: rewrite (Z.min_comm ey ex);
    match goal with
    | |- context [binary_normalize _ _ (?a - ?b)%Z ?e _] =>
        replace (b - a)%Z with (- (a - b))%Z by ring;
        destruct (Z.eq_dec (a - b) 0) as [E|E];
        [rewrite E; auto | left; rewrite (binary_normalize_opp _ _ E)]
    end;
    now rewrite SFopp_involutive.
Qed.

Local Open Scope float_scope.

Lemma opp_involutive (x : float) : - - x = x.
Proof.
  apply Prim2SF_inj. rewrite !opp_spec. apply SFopp_involutive.
Qed.

Lemma mul_opp_l (x y : float) : (- x) * y = - (x * y).
Proof.
  apply Prim2SF_inj. rewrite opp_spec, !mul_spec, opp_spec. apply SFmul_opp_l.
Qed.

Lemma mul_comm (x y : float) : x * y = y * x.
Proof. apply Prim2SF_inj. rewrite !mul_spec. apply SFmul_comm. Qed.

Lemma mul_opp_r (x y : float) : x * (- y) = - (x * y).
Proof. now rewrite (mul_comm x), mul_opp_l, (mul_comm y). Qed.

Lemma div_opp_l (x y : float) : (- x) / y = - (x / y).
Proof.
  apply Prim2SF_inj. rewrite opp_spec, !div_spec, opp_spec. apply SFdiv_opp_l.
Qed.

Lemma sub_swap (x y : float) : x - y = - (y - x) \/ x - y = y - x.
Proof.
  destruct (SFsub_swap (Prim2SF x) (Prim2SF y)) as [H|H]; [left|right];
    apply Prim2SF_inj; rewrite ?opp_spec, !sub_spec; exact H.
Qed.

Lemma mul_opp_opp (x y : float) : (- x) * (- y) = x * y.
Proof. now rewrite mul_opp_l, mul_opp_r, opp_involutive. Qed.
End Mirror.

(** *** Magnitudes *)

Module Magnitude.
Import FloatSpec FloatOrder Rounding.
Local Open Scope Z_scope.

Lemma Zdigits2_nonneg m : 0 <= Zdigits2 m.
Proof. destruct m; simpl; lia. Qed.

Lemma Zdigits2_le_of_lt m k : 0 <= m < 2 ^ k -> 0 <= k -> Zdigits2 m <= k.
Proof.
  intros [H0 Hk] K. destruct (Z.eq_dec m 0) as [->|Hne]; [simpl; lia|].
  destruct (Zdigits2_bounds m) as (Hd & Hlo & _); [lia|].
  assert (2 ^ (Zdigits2 m - 1) < 2 ^ k) by lia.
  apply Z.pow_lt_mono_r_iff in H; lia.
Qed.

Lemma Zdigits2_upper m : 0 <= m -> m < 2 ^ Zdigits2 m.
Proof.
  intros H. destruct (Z.eq_dec m 0) as [->|Hne]; [simpl; lia|].
  apply Zdigits2_bounds. lia.
Qed.

Lemma Zdigits2_succ m : 0 <= m -> Zdigits2 (m + 1) <= Zdigits2 m + 1.
Proof.
  intros H. pose proof (Zdigits2_upper m H). pose proof (Zdigits2_nonneg m).
  apply Zdigits2_le_of_lt; [|lia].
  rewrite Z.pow_add_r by lia. change (2 ^ 1) with 2. lia.
Qed.

Lemma Zdigits2_mono a b : 0 <= a <= b -> Zdigits2 a <= Zdigits2 b.
Proof.
  intros H. pose proof (Zdigits2_upper b ltac:(lia)).
  apply Zdigits2_le_of_lt; [lia|apply Zdigits2_nonneg].
Qed.

Lemma Zdigits2_shiftr m n :
  0 <= m -> 0 < n -> Zdigits2 (Z.shiftr m n) <= Z.max 0 (Zdigits2 m - n).
Proof.
  intros Hm Hn. pose proof (Zdigits2_upper m Hm) as Hu.
  pose proof (Zdigits2_nonneg m) as Hd.
  rewrite Z.shiftr_div_pow2 by lia.
  assert (Hp : 0 < 2 ^ n) by (apply Z.pow_pos_nonneg; lia).
  destruct (Z.le_gt_cases n (Zdigits2 m)) as [Hle|Hgt].
  - apply Zdigits2_le_of_lt; [|lia]. split; [apply Z.div_pos; lia|].
    apply Z.div_lt_upper_bound; [lia|].
    rewrite <- Z.pow_add_r by lia.
    replace (n + Z.max 0 (Zdigits2 m - n)) with (Zdigits2 m) by lia. exact Hu.
  - rewrite Z.div_small; [simpl; lia|]. split; [lia|].
    eapply Z.lt_le_trans; [exact Hu|]. apply Z.pow_le_mono_r; lia.
Qed.

Lemma round_nearest_even_le m l : round_nearest_even m l <= m + 1.
Proof.
  unfold round_nearest_even. destruct l as [|[| |]]; try lia.
  destruct (Z.even m); lia.
Qed.

(** One rounding step: the mantissa stays non-negative, the exponent rises
    to the format's, and the magnitude does not grow. *)
Lemma shr_fexp_bound m e l :
  0 <= m ->
  0 <= shr_m (fst (shr_fexp prec emax m e l)) /\
  snd (shr_fexp prec emax m e l) = Z.max e (fexp prec emax (Zdigits2 m + e)) /\
  Zdigits2 (shr_m (fst (shr_fexp prec emax m e l))) +
    snd (shr_fexp prec emax m e l) <=
  Z.max (Zdigits2 m + e) (fexp prec emax (Zdigits2 m + e)).
Proof.
  intros Hm. unfold shr_fexp, shr.
  set (d := Zdigits2 m). set (f := fexp prec emax (d + e)).
  destruct (f - e) as [|n|n] eqn:En; cbn [fst snd];
    rewrite ?shr_record_of_loc_m; fold d; try lia.
  rewrite iter_shr_1_m by (rewrite shr_record_of_loc_m; lia).
  rewrite shr_record_of_loc_m.
  pose proof (Zdigits2_shiftr m (Zpos n) Hm ltac:(lia)). fold d in H.
  split; [apply Z.shiftr_nonneg; lia|]. split; lia.
Qed.

(** Rounding a number below [2^(K-1)] yields a finite number below [2^K]. *)
Lemma binary_round_aux_mag s m e l K :
  0 <= m -> e <= emax - prec ->
  Zdigits2 m + e + 1 <= K -> emin + 1 <= K -> K <= emax ->
  SFmag_le (binary_round_aux prec emax s m e l) K.
Proof.
  intros Hm He Hd HK1 HK2. unfold binary_round_aux.
  pose proof (shr_fexp_bound m e l Hm) as (H1 & H2 & H3).
  destruct (shr_fexp prec emax m e l) as [mrs' e']. cbn [fst snd] in *.
  pose proof (round_nearest_even_ge (shr_m mrs') (loc_of_shr_record mrs')) as Hge.
  pose proof (round_nearest_even_le (shr_m mrs') (loc_of_shr_record mrs')) as Hle.
  set (m1 := round_nearest_even _ _) in *.
  assert (Hm1 : 0 <= m1) by lia.
  pose proof (shr_fexp_bound m1 e' loc_Exact Hm1) as (H4 & H5 & H6).
  assert (Hd1 : Zdigits2 m1 <= Zdigits2 (shr_m mrs') + 1).
  { etransitivity; [apply (Zdigits2_mono m1 (shr_m mrs' + 1)); lia|].
    now apply Zdigits2_succ. }
  destruct (shr_fexp prec emax m1 e' loc_Exact) as [mrs'' e'']. cbn [fst snd] in *.
  assert (Hemin : emin = -1074) by reflexivity.
  assert (Hprec : prec = 53) by reflexivity.
  assert (Hemax : emax = 1024) by reflexivity.
  unfold fexp in *.
  destruct (shr_m mrs'') as [|p|p] eqn:Ep; [exact I| |lia].
  simpl Zdigits2 in H6.
  destruct (Z.leb_spec e'' (emax - prec)); cbn [SFmag_le]; lia.
Qed.

Lemma digits2_pos_mul a b :
  Zpos (digits2_pos (a * b)) <= Zpos (digits2_pos a) + Zpos (digits2_pos b).
Proof.
  pose proof (digits2_bounds a) as [_ Ha]. pose proof (digits2_bounds b) as [_ Hb].
  change (Zpos (digits2_pos (a * b))) with (Zdigits2 (Zpos (a * b))).
  apply Zdigits2_le_of_lt; [|lia].
  rewrite Z.pow_add_r, Pos2Z.inj_mul by lia. nia.
Qed.

Lemma SFmul_mag x y a b :
  valid_binary x = true -> valid_binary y = true ->
  SFmag_le x a -> SFmag_le y b ->
  emin <= a + b -> a + b + 1 <= emax ->
  SFmag_le (SFmul prec emax x y) (a + b + 1).
Proof.
  destruct x as [sx|sx| |sx mx ex], y as [sy|sy| |sy my ey];
    cbn [valid_binary SFmag_le SFmul]; intros Vx Vy Hx Hy H1 H2;
    try exact I; try contradiction.
  destruct (bounded_inv _ _ Vx) as (Hex & Hdx & Hnx).
  destruct (bounded_inv _ _ Vy) as (Hey & Hdy & Hny).
  pose proof (digits2_pos_mul mx my).
  assert (Hemin : emin = -1074) by reflexivity.
  assert (Hprec : prec = 53) by reflexivity.
  assert (Hemax : emax = 1024) by reflexivity.
  apply binary_round_aux_mag; cbn [Zdigits2]; lia.
Qed.

Import FloatFacts.

Lemma SFdiv_mag x sy my ey a :
  valid_binary x = true -> bounded prec emax my ey = true ->
  SFmag_le x a ->
  emin <= a - ey -> a - ey + 1 <= emax ->
  SFmag_le (SFdiv prec emax x (S754_finite sy my ey)) (a - ey + 1).
Proof.
  destruct x as [sx|sx| |sx mx ex];
    cbn [valid_binary SFmag_le SFdiv]; intros Vx Vy Hx H1 H2;
    try exact I; try contradiction.
  destruct (bounded_inv _ _ Vx) as (Hex & Hdx & Hnx).
  destruct (bounded_inv _ _ Vy) as (Hey & Hdy & Hny).
  unfold SFdiv_core_binary. cbn [Zdigits2].
  set (d1 := Zpos (digits2_pos mx)) in *. set (d2 := Zpos (digits2_pos my)) in *.
  set (e' := Z.min (fexp prec emax (d1 + ex - (d2 + ey))) (ex - ey)).
  set (s := ex - ey - e').
  set (m' := match s with Z.pos _ => Z.shiftl (Zpos mx) s | 0 => Zpos mx | Z.neg _ => 0 end).
  assert (Hs : 0 <= s) by (unfold s, e'; lia).
  assert (Hm' : 0 <= m' < 2 ^ (d1 + s)).
  { pose proof (digits2_bounds mx) as [_ Hu]. fold d1 in Hu.
    unfold m'. destruct s as [|p|p] eqn:Es; try lia.
    - rewrite Z.add_0_r. lia.
    - rewrite Z.shiftl_mul_pow2, Z.pow_add_r by lia.
      assert (0 < 2 ^ Zpos p) by (apply Z.pow_pos_nonneg; lia). nia. }
  rewrite (surjective_pairing (Z.div_eucl m' (Zpos my))).
  change (fst (Z.div_eucl m' (Z.pos my))) with (m' / Zpos my).
  assert (Hq : 0 <= m' / Zpos my <= m').
  { split; [apply Z.div_pos; lia|]. apply Z.div_le_upper_bound; [lia|]. nia. }
  assert (Hdq : Zdigits2 (m' / Zpos my) <= d1 + s).
  { apply Zdigits2_le_of_lt; [lia|]. unfold d1. lia. }
  assert (Hemin : emin = -1074) by reflexivity.
  assert (Hprec : prec = 53) by reflexivity.
  assert (Hemax : emax = 1024) by reflexivity.
  assert (Hd2 : 1 <= d2) by (unfold d2; lia).
  assert (He' : e' <= fexp prec emax (d1 + ex - (d2 + ey))) by (unfold e'; lia).
  unfold fexp in He'.
  apply binary_round_aux_mag; unfold s in *; lia.
Qed.

Local Open Scope float_scope.

Lemma mul_mag (x y : float) (a b : Z) :
  mag_le x a -> mag_le y b ->
  (emin <= a + b)%Z -> (a + b + 1 <= emax)%Z -> mag_le (x * y) (a + b + 1).
Proof.
  unfold mag_le. intros. rewrite mul_spec.
  apply SFmul_mag; auto using Prim2SF_valid.
Qed.

Lemma div_mag (x y : float) (a : Z) sy my ey :
  Prim2SF y = S754_finite sy my ey ->
  mag_le x a -> (emin <= a - ey)%Z -> (a - ey + 1 <= emax)%Z ->
  mag_le (x / y) (a - ey + 1).
Proof.
  unfold mag_le. intros Ey Hx H1 H2. rewrite div_spec, Ey.
  pose proof (Prim2SF_valid y) as Vy. rewrite Ey in Vy.
  apply SFdiv_mag; auto using Prim2SF_valid.
Qed.

Lemma mag_le_finite (x : float) (k : Z) : mag_le x k -> is_finite x = true.
Proof.
  unfold mag_le, is_finite, is_infinity. rewrite is_nan_spec, eqb_spec, abs_spec.
  change (Prim2SF infinity) with (S754_infinity false).
  destruct (Prim2SF x); simpl; tauto.
Qed.

Lemma is_finite_spec (x : float) :
  is_finite x = SFfinite (Prim2SF x).
Proof.
  unfold is_finite, is_infinity. rewrite is_nan_spec, eqb_spec, abs_spec.
  change (Prim2SF infinity) with (S754_infinity false).
  destruct (Prim2SF x) as [s|s| |s m e]; reflexivity.
Qed.

(** A number between [-b] and [b] inherits the magnitude of [b]. *)
Lemma range_mag (x b : float) (k : Z) :
  (- b <=? x) = true -> (x <=? b) = true ->
  (ord b < 2 ^ (k + 1074))%Z -> (- 2 ^ (k + 1074) < ord (- b))%Z ->
  (-1074 <= k <= 1024)%Z ->
  mag_le x k.
Proof.
  intros Hlo Hhi Hb Hb' Hk.
  destruct (leb_true_not_nan _ _ Hlo) as [Nb' Nx].
  destruct (leb_true_not_nan _ _ Hhi) as [_ Nb].
  rewrite leb_ord in Hlo, Hhi by assumption.
  apply Z.leb_le in Hlo, Hhi.
  unfold mag_le, ord in *. apply not_nan_of in Nx.
  assert (Hinf : (2 ^ (k + 1074) <= 2 ^ 2100)%Z) by (apply Z.pow_le_mono_r; lia).
  destruct (Prim2SF x) as [s|s| |s m e] eqn:Ex; cbn [SFmag_le scaled] in *;
    try discriminate; try exact I.
  - destruct s; unfold cond_Zopp in *; lia.
  - pose proof (Prim2SF_valid x) as V. rewrite Ex in V. cbn [valid_binary] in V.
    destruct (bounded_inv _ _ V) as (He & _).
    pose proof (digits2_bounds m) as [Hl _].
    assert (Hemin : emin = (-1074)%Z) by reflexivity. rewrite Hemin in *.
    assert (HK : (0 < 2 ^ (e - -1074))%Z) by (apply Z.pow_pos_nonneg; lia).
    assert (Hm : (Zpos m * 2 ^ (e - -1074) < 2 ^ (k + 1074))%Z)
      by (destruct s; unfold cond_Zopp in *; lia).
    assert (H2 : (2 ^ (Zpos (digits2_pos m) - 1) * 2 ^ (e - -1074) < 2 ^ (k + 1074))%Z) by nia.
    rewrite <- Z.pow_add_r in H2 by lia.
    apply Z.pow_lt_mono_r_iff in H2; lia.
Qed.
End Magnitude.

(* ===================================================================== *)
(** ** Lists, the map and the grid key *)
(* ===================================================================== *)

Lemma firstAppearances_In (l : list string) (x : string) :
  In x (firstAppearances l) <-> In x l.
Proof.
  induction l as [|a l IH]; simpl; [tauto|].
  rewrite filter_In, IH.
  destruct (String.eqb_spec x a) as [->|Hne]; simpl; intuition congruence.
Qed.

Lemma firstAppearances_NoDup (l : list string) : NoDup (firstAppearances l).
Proof.
  induction l as [|a l IH]; simpl; constructor.
  - rewrite filter_In, String.eqb_refl. simpl. intros [_ H]; discriminate.
  - now apply NoDup_filter.
Qed.

Lemma firstAppearances_snoc (l : list string) (x : string) :
  firstAppearances (l ++ [x]) =
  if existsb (String.eqb x) l then firstAppearances l
  else firstAppearances l ++ [x].
Proof.
  induction l as [|a l IH]; simpl; [reflexivity|].
  rewrite IH.
  destruct (String.eqb_spec x a) as [->|Hne]; simpl.
  - destruct (existsb (String.eqb a) l); [reflexivity|].
    rewrite filter_app. simpl. rewrite String.eqb_refl. simpl.
    now rewrite app_nil_r.
  - destruct (existsb (String.eqb x) l); [reflexivity|].
    rewrite filter_app. simpl.
    destruct (String.eqb_spec x a); [contradiction|reflexivity].
Qed.

Module JSMapFacts.
Section Facts.
Variable V : Type.
Implicit Types (m : JSMap.t V) (k : string) (v : V).

Lemma has_keys m k : JSMap.has k m = existsb (String.eqb k) (JSMap.keys m).
Proof.
  induction m as [|[k' v'] m IH]; simpl; [reflexivity|].
  now destruct (String.eqb k k').
Qed.

Lemma has_In m k : JSMap.has k m = true <-> In k (JSMap.keys m).
Proof.
  rewrite has_keys, existsb_exists. split.
  - intros (x & Hx & E). apply String.eqb_eq in E. now subst.
  - intros H. exists k. split; [assumption|apply String.eqb_refl].
Qed.

Lemma set_absent m k v :
  JSMap.has k m = false -> JSMap.set k v m = m ++ [(k, v)].
Proof.
  induction m as [|[k' v'] m IH]; simpl; [reflexivity|].
  destruct (String.eqb k k'); [discriminate|].
  intros H. now rewrite IH.
Qed.

Lemma get_absent m k : JSMap.has k m = false -> JSMap.get k m = None.
Proof.
  induction m as [|[k' v'] m IH]; simpl; [reflexivity|].
  now destruct (String.eqb k k').
Qed.

Lemma get_app_absent m m' k :
  JSMap.has k m = false -> JSMap.get k (m ++ m') = JSMap.get k m'.
Proof.
  induction m as [|[k' v'] m IH]; simpl; [reflexivity|].
  now destruct (String.eqb k k').
Qed.

Lemma set_app_absent m m' k v :
  JSMap.has k m = false -> JSMap.set k v (m ++ m') = m ++ JSMap.set k v m'.
Proof.
  induction m as [|[k' v'] m IH]; simpl; [reflexivity|].
  destruct (String.eqb k k'); [discriminate|].
  intros H. now rewrite IH.
Qed.

(** A present key splits the map around its entry. *)
Lemma present_split m k :
  JSMap.has k m = true ->
  exists m1 v0 m2, m = m1 ++ (k, v0) :: m2 /\ JSMap.has k m1 = false.
Proof.
  induction m as [|[k' v'] m IH]; simpl; [discriminate|].
  destruct (String.eqb_spec k k') as [->|Hne].
  - intros _. now exists [], v', m.
  - intros H. destruct (IH H) as (m1 & v0 & m2 & -> & Hm1).
    exists ((k', v') :: m1), v0, m2. split; [reflexivity|].
    simpl. now destruct (String.eqb_spec k k').
Qed.
End Facts.
End JSMapFacts.

Lemma forEach_snoc {A S} (f : S -> A -> completion S) (l : list A) (x : A) (s : S) :
  forEach f (l ++ [x]) s = (s' <- forEach f l s ;; f s' x).
Proof.
  revert s. induction l as [|a l IH]; intros s; simpl.
  - now destruct (f s x).
  - destruct (f s a) as [s1|e]; simpl; [apply IH|reflexivity].
Qed.

Section Clusterer.
Context {host : Host}.
Variable gridSize : float.

Local Abbreviation key := (pointGridKey gridSize).
Local Abbreviation membersOf := (membersOf gridSize).
Local Abbreviation entry_ok := (entry_ok gridSize).
Local Abbreviation clusters_ok := (clusters_ok gridSize).

Lemma membersOf_snoc k l p :
  membersOf k (l ++ [p]) =
  membersOf k l ++ (if String.eqb (key p) k then [p] else []).
Proof. unfold membersOf. rewrite filter_app. reflexivity. Qed.

Lemma membersOf_absent k l : ~ In k (map key l) -> membersOf k l = [].
Proof.
  induction l as [|a l IH]; simpl; [reflexivity|].
  intros H. destruct (String.eqb_spec (key a) k) as [E|_]; [tauto|].
  apply IH. tauto.
Qed.

Lemma entry_ok_other l p e :
  entry_ok l e -> key p <> fst e -> entry_ok (l ++ [p]) e.
Proof.
  intros [Hk Hp Hf] Hne. split; [assumption| |assumption].
  rewrite membersOf_snoc, Hp.
  destruct (String.eqb_spec (key p) (fst e)); [contradiction|].
  now rewrite app_nil_r.
Qed.

Lemma addPoint_ok l m p :
  clusters_ok l m ->
  exists m', addPoint gridSize m p = Normal m' /\ clusters_ok (l ++ [p]) m'.
Proof.
  intros [Hkeys Hall].
  assert (Hnd : NoDup (JSMap.keys m))
    by (rewrite Hkeys; apply firstAppearances_NoDup).
  unfold addPoint. fold (pointGridX gridSize p) (pointGridY gridSize p).
  fold (key p).
  assert (Hsnoc : firstAppearances (map key (l ++ [p])) =
                  if JSMap.has (key p) m then JSMap.keys m
                  else JSMap.keys m ++ [key p]).
  { rewrite map_app. simpl. rewrite firstAppearances_snoc, <- Hkeys.
    rewrite JSMapFacts.has_keys, Hkeys.
    replace (existsb (String.eqb (key p)) (firstAppearances (map key l)))
      with (existsb (String.eqb (key p)) (map key l)); [reflexivity|].
    apply eq_true_iff_eq. rewrite !existsb_exists.
    split; intros (x & Hx & E); exists x; split; try assumption;
      now apply firstAppearances_In. }
  destruct (JSMap.has (key p) m) eqn:Hhas; simpl.
  - (* the cell already has a cluster *)
    destruct (JSMapFacts.present_split _ _ _ Hhas) as (m1 & c & m2 & -> & Hm1).
    unfold pushPoint. rewrite JSMapFacts.get_app_absent by assumption.
    simpl. rewrite String.eqb_refl. eexists. split; [reflexivity|].
    rewrite JSMapFacts.set_app_absent by assumption.
    simpl. rewrite String.eqb_refl.
    split.
    + rewrite Hsnoc. unfold JSMap.keys. now rewrite !map_app.
    + unfold JSMap.keys in Hnd. rewrite map_app in Hnd. simpl in Hnd.
      apply NoDup_remove_2 in Hnd.
      apply Forall_app in Hall. destruct Hall as [H1 H2].
      inversion H2 as [|? ? Hc H2']; subst.
      apply Forall_app. split; [|constructor].
      * rewrite Forall_forall in *. intros e He. apply entry_ok_other; auto.
        intros E. apply Hnd. apply in_or_app. left.
        rewrite E. now apply in_map.
      * destruct Hc as [Hk Hp (p0 & rest & Hf & Hx & Hy)]. simpl in *.
        split; simpl.
        -- exact Hk.
        -- rewrite membersOf_snoc, Hp, String.eqb_refl. reflexivity.
        -- exists p0, (rest ++ [p]). rewrite Hf. auto.
      * rewrite Forall_forall in *. intros e He. apply entry_ok_other; auto.
        intros E. apply Hnd. apply in_or_app. right.
        rewrite E. now apply in_map.
  - (* a new cell *)
    unfold pushPoint.
    rewrite JSMapFacts.set_absent by assumption.
    rewrite JSMapFacts.get_app_absent by assumption.
    simpl. rewrite String.eqb_refl. eexists. split; [reflexivity|].
    rewrite JSMapFacts.set_app_absent by assumption.
    simpl. rewrite String.eqb_refl.
    assert (Hnot : ~ In (key p) (JSMap.keys m)).
    { intros Hin. apply JSMapFacts.has_In in Hin. congruence. }
    split.
    + rewrite Hsnoc. unfold JSMap.keys. now rewrite map_app.
    + apply Forall_app. split; [|constructor; [|constructor]].
      * rewrite Forall_forall in *. intros e He. apply entry_ok_other; auto.
        intros E. apply Hnot. rewrite E. now apply in_map.
      * split; simpl.
        -- reflexivity.
        -- rewrite membersOf_snoc, String.eqb_refl, membersOf_absent;
             [reflexivity|].
           rewrite Hkeys, firstAppearances_In in Hnot. exact Hnot.
        -- exists p, []. auto.
Qed.

Lemma clusterMap_ok (l : list Point) :
  exists m, clusterMap l gridSize = Normal m /\ clusters_ok l m.
Proof.
  unfold clusterMap.
  induction l as [|p l IH] using rev_ind.
  - exists []. split; [reflexivity|]. split; [reflexivity|constructor].
  - destruct IH as (m & Hm & Hok).
    rewrite forEach_snoc, Hm. simpl. now apply addPoint_ok.
Qed.
End Clusterer.

Section ClustererTheorems.
Context {host : Host}.

Lemma membersOf_partition (s : float) (ks : list string) (l : list Point) :
  NoDup ks ->
  (forall p, In p l -> In (pointGridKey s p) ks) ->
  Permutation (List.concat (map (fun k => membersOf s k l) ks)) l.
Proof.
  intros Hnd. induction l as [|a l IH]; intros Hin.
  - clear Hin Hnd. induction ks as [|k ks IHk]; simpl; [constructor|exact IHk].
  - destruct (in_split (pointGridKey s a) ks) as (ks1 & ks2 & ->);
      [apply Hin; now left|].
    assert (Hother : forall ks', ~ In (pointGridKey s a) ks' ->
              map (fun k => membersOf s k (a :: l)) ks' =
              map (fun k => membersOf s k l) ks').
    { intros ks' Hn. apply map_ext_in. intros k Hk. unfold membersOf. simpl.
      destruct (String.eqb_spec (pointGridKey s a) k); [|reflexivity].
      subst. contradiction. }
    pose proof (NoDup_remove_2 _ _ _ Hnd) as Hn.
    specialize (IH (fun p Hp => Hin p (or_intror Hp))).
    rewrite map_app, List.concat_app in *. simpl in *.
    rewrite !Hother by (intros H; apply Hn, in_or_app; auto).
    unfold membersOf at 2. simpl. rewrite String.eqb_refl.
    fold (membersOf s (pointGridKey s a) l).
    simpl. apply Permutation_sym, Permutation_cons_app, Permutation_sym.
    exact IH.
Qed.

(** The clusterer never throws, and its result is determined by the
    keys of the points: one cluster per key in order of first appearance,
    holding that key's points in input order and the coordinates computed
    for its first point. *)
Lemma createGridClusters_spec (P : list Point) (s : float) :
  exists cs,
    createGridClusters P s = Normal cs /\
    map clusterKey cs = firstAppearances (map (pointGridKey s) P) /\
    Forall (fun c =>
              points c = membersOf s (clusterKey c) P /\
              exists p0 rest, points c = p0 :: rest /\
                              gridX c = pointGridX s p0 /\
                              gridY c = pointGridY s p0) cs.
Proof.
  destruct (clusterMap_ok s P) as (m & Hm & Hkeys & Hall).
  exists (JSMap.values m). unfold createGridClusters. rewrite Hm. simpl.
  split; [reflexivity|].
  assert (Hk : map clusterKey (JSMap.values m) = JSMap.keys m).
  { unfold JSMap.values, JSMap.keys. rewrite map_map. apply map_ext_in.
    intros e He. rewrite Forall_forall in Hall. now destruct (Hall e He). }
  split; [now rewrite Hk|].
  unfold JSMap.values. rewrite Forall_map.
  eapply Forall_impl; [|exact Hall].
  intros e [H1 H2 H3]. rewrite H1. auto.
Qed.

Lemma cluster_member_key (P : list Point) (s : float) (c : Cluster) (p : Point) :
  points c = membersOf s (clusterKey c) P ->
  In p (points c) -> In p P /\ pointGridKey s p = clusterKey c.
Proof.
  intros -> H. apply filter_In in H. destruct H as [H1 H2].
  now apply String.eqb_eq in H2.
Qed.

Lemma cluster_index_unique (cs : list Cluster) (i j : nat) (ci cj : Cluster) :
  NoDup (map clusterKey cs) ->
  nth_error cs i = Some ci -> nth_error cs j = Some cj ->
  clusterKey ci = clusterKey cj -> i = j.
Proof.
  intros Hnd Hi Hj E.
  apply (proj1 (NoDup_nth_error (map clusterKey cs)) Hnd).
  - rewrite length_map. apply nth_error_Some. congruence.
  - rewrite !nth_error_map, Hi, Hj. simpl. now rewrite E.
Qed.
End ClustererTheorems.

Lemma commaFree_app (a b : string) :
  commaFree (a ++ b) = commaFree a && commaFree b.
Proof.
  induction a as [|c a IH]; simpl; [reflexivity|].
  now rewrite IH, andb_assoc.
Qed.

(** Two comma-free strings joined to their right-hand sides by a comma can be
    read back. *)
Lemma comma_join_inj (a a' b b' : string) :
  commaFree a = true -> commaFree a' = true ->
  (a ++ "," ++ b = a' ++ "," ++ b')%string -> a = a' /\ b = b'.
Proof.
  revert a'. induction a as [|c a IH]; intros [|c' a'] Ha Ha' E; simpl in *.
  - injection E as E. auto.
  - injection E as E1 E2. subst c'. discriminate.
  - injection E as E1 E2. subst c. discriminate.
  - injection E as E1 E2. subst c'.
    apply andb_true_iff in Ha, Ha'.
    destruct (IH a') as [-> ->]; tauto.
Qed.

Section CellKeys.
Context {host : Host}.

Lemma gridKeyOf_eq (x y x' y' : float) :
  toString_faithful -> toString_comma_free ->
  gridKeyOf x y = gridKeyOf x' y' <->
  sameValueZero x x' = true /\ sameValueZero y y' = true.
Proof.
  intros Hf Hc. unfold gridKeyOf. split.
  - intros E. apply comma_join_inj in E; auto.
    destruct E as [E1 E2]. split; now apply Hf.
  - intros [E1 E2]. apply Hf in E1, E2. now rewrite E1, E2.
Qed.

Lemma pointGridKey_eq (s : float) (p q : Point) :
  toString_faithful -> toString_comma_free ->
  pointGridKey s p = pointGridKey s q <-> sameCell s p q = true.
Proof.
  intros Hf Hc. unfold pointGridKey, sameCell.
  rewrite gridKeyOf_eq, andb_true_iff by assumption. reflexivity.
Qed.
End CellKeys.

(* ===================================================================== *)
(** ** The sort *)
(* ===================================================================== *)

Section SortFacts.
Context {A : Type}.
Variable comparefn : A -> A -> float.
Local Abbreviation passes x y := (0 <? SortCompare comparefn x y)%float.

Lemma sortInsert_perm (x : A) (l : list A) :
  Permutation (sortInsert comparefn x l) (x :: l).
Proof.
  induction l as [|y l IH]; simpl; [reflexivity|].
  destruct (passes x y); [|reflexivity].
  rewrite IH. apply perm_swap.
Qed.

Lemma Array_sort_perm (l : list A) : Permutation (Array_sort comparefn l) l.
Proof.
  induction l as [|x l IH]; simpl; [reflexivity|].
  rewrite sortInsert_perm. now constructor.
Qed.

(** An element that never passes over another element of its own class
    keeps its place among them. *)
Lemma sortInsert_filter (f : A -> bool) (x : A) (l : list A) :
  (forall y, In y l -> passes x y = true -> f x = true -> f y = true -> False) ->
  filter f (sortInsert comparefn x l) = filter f (x :: l).
Proof.
  induction l as [|y l IH]; intros H; [reflexivity|].
  cbn [sortInsert]. destruct (passes x y) eqn:E; [|reflexivity].
  cbn [filter]. rewrite IH by (intros z Hz; apply H; now right).
  cbn [filter].
  destruct (f x) eqn:Fx, (f y) eqn:Fy; try reflexivity.
  exfalso. apply (H y); auto. now left.
Qed.

Lemma Array_sort_filter (f : A -> bool) (l : list A) :
  (forall x y, In x l -> In y l -> passes x y = true ->
               f x = true -> f y = true -> False) ->
  filter f (Array_sort comparefn l) = filter f l.
Proof.
  induction l as [|x l IH]; intros H; [reflexivity|].
  cbn [Array_sort]. rewrite sortInsert_filter.
  - cbn [filter]. rewrite IH; [reflexivity|].
    intros a b Ha Hb. apply H; now right.
  - intros y Hy. apply H; [now left|right].
    eapply Permutation_in; [apply Array_sort_perm|exact Hy].
Qed.

(** Sortedness, for a comparator that agrees with an integer key on the
    elements at hand. *)
Variable key : A -> Z.

Lemma sortInsert_sorted (x : A) (l : list A) :
  (forall y, In y l -> passes x y = (key y <? key x)%Z) ->
  StronglySorted (fun a b => (key a <= key b)%Z) l ->
  StronglySorted (fun a b => (key a <= key b)%Z) (sortInsert comparefn x l).
Proof.
  induction l as [|y l IH]; intros H Hs; cbn [sortInsert].
  - repeat constructor.
  - inversion Hs as [|? ? Hs' Hy]; subst.
    rewrite (H y) by now left.
    destruct (Z.ltb_spec (key y) (key x)) as [Hlt|Hge].
    + constructor.
      * apply IH; [intros z Hz; apply H; now right|assumption].
      * rewrite Forall_forall in *. intros z Hz.
        apply (Permutation_in _ (sortInsert_perm x l)) in Hz.
        destruct Hz as [<-|Hz]; [lia|auto].
    + constructor; [assumption|].
      constructor; [assumption|].
      rewrite Forall_forall in *. intros z Hz. specialize (Hy z Hz). lia.
Qed.

Lemma Array_sort_sorted (l : list A) :
  (forall x y, In x l -> In y l -> passes x y = (key y <? key x)%Z) ->
  StronglySorted (fun a b => (key a <= key b)%Z) (Array_sort comparefn l).
Proof.
  induction l as [|x l IH]; intros H; cbn [Array_sort]; [constructor|].
  apply sortInsert_sorted.
  - intros y Hy. apply H; [now left|right].
    eapply Permutation_in; [apply Array_sort_perm|exact Hy].
  - apply IH. intros a b Ha Hb. apply H; now right.
Qed.
End SortFacts.

Section SortUnique.
Context {A : Type}.
Variable key : A -> Z.
Local Abbreviation sortedByKey := (StronglySorted (fun a b => (key a <= key b)%Z)).
Local Abbreviation classOf v := (filter (fun x => (key x =? v)%Z)).

Lemma sorted_head_least (a : A) (t : list A) (x : A) :
  sortedByKey (a :: t) -> In x (a :: t) -> (key a <= key x)%Z.
Proof.
  intros Hs [<-|Hx]; [lia|].
  inversion Hs as [|? ? _ Hall]; subst.
  rewrite Forall_forall in Hall. auto.
Qed.

Lemma class_transfer (l l' : list A) (x : A) :
  (forall v, classOf v l = classOf v l') -> In x l -> In x l'.
Proof.
  intros Hc Hx.
  assert (H : In x (classOf (key x) l))
    by (apply filter_In; split; [assumption|apply Z.eqb_refl]).
  rewrite Hc in H. now apply filter_In in H.
Qed.

(** A list sorted by key is determined by the sequences of its elements of
    each key: two stable sorts of one list are the same list. *)
Lemma stable_sorted_unique (out1 : list A) : forall out2,
  sortedByKey out1 -> sortedByKey out2 ->
  (forall v, classOf v out1 = classOf v out2) ->
  out1 = out2.
Proof.
  induction out1 as [|a t1 IH]; intros [|b t2] H1 H2 Hc.
  - reflexivity.
  - specialize (Hc (key b)). cbn [filter] in Hc. rewrite Z.eqb_refl in Hc.
    discriminate.
  - specialize (Hc (key a)). cbn [filter] in Hc. rewrite Z.eqb_refl in Hc.
    discriminate.
  - assert (Hab : key a = key b).
    { assert (Ia : In a (b :: t2))
        by (apply (class_transfer (a :: t1)); [assumption|now left]).
      assert (Ib : In b (a :: t1))
        by (apply (class_transfer (b :: t2)); [now symmetry|now left]).
      pose proof (sorted_head_least b t2 a H2 Ia).
      pose proof (sorted_head_least a t1 b H1 Ib).
      lia. }
    pose proof (Hc (key b)) as E. cbn [filter] in E.
    rewrite Hab, Z.eqb_refl in E. injection E as <- Et.
    f_equal. apply IH.
    + now inversion H1.
    + now inversion H2.
    + intros v. specialize (Hc v). cbn [filter] in Hc.
      destruct (Z.eqb_spec (key a) v) as [Ev|_]; [|exact Hc].
      now injection Hc.
Qed.
End SortUnique.

(** The model of [Array.prototype.sort] returns the one stable sort there
    is, for a comparator that agrees with a key on the elements at hand. *)
Lemma Array_sort_characterised {A} (comparefn : A -> A -> float) (key : A -> Z)
    (l out : list A) :
  (forall x y, In x l -> In y l ->
               (0 <? SortCompare comparefn x y)%float = (key y <? key x)%Z) ->
  StronglySorted (fun a b => (key a <= key b)%Z) out ->
  (forall v, filter (fun x => (key x =? v)%Z) out =
             filter (fun x => (key x =? v)%Z) l) ->
  out = Array_sort comparefn l.
Proof.
  intros Hcmp Hs Hc. apply (stable_sorted_unique key); [assumption| |].
  - now apply Array_sort_sorted.
  - intros v. rewrite Hc. symmetry. apply Array_sort_filter.
    intros x y Hx Hy Hp Ex Ey. rewrite (Hcmp x y Hx Hy) in Hp.
    apply Z.eqb_eq in Ex, Ey. apply Z.ltb_lt in Hp. lia.
Qed.

(* ===================================================================== *)
(** ** The nearby query *)
(* ===================================================================== *)

Section Nearby.
Import FloatSpec FloatFacts.
Context {host : Host}.
Variable center : LatLng.
Local Open Scope float_scope.

Local Abbreviation dist := (distanceFrom center).
Local Abbreviation byDistance :=
  (fun a b : Point => distanceFrom center a - distanceFrom center b).

(** On points whose distance is a number, the comparator of
    [findNearbyPoints] sends [a] behind [b] exactly when [a] is farther. *)
Lemma byDistance_passes (a b : Point) :
  is_nan (dist a) = false -> is_nan (dist b) = false ->
  (0 <? SortCompare byDistance a b) = (ord (dist b) <? ord (dist a))%Z.
Proof.
  intros Ha Hb. unfold SortCompare.
  rewrite <- (sub_pos _ _ Ha Hb).
  destruct (is_nan (dist a - dist b)) eqn:E; [|reflexivity].
  rewrite (ltb_zero_nan _ E). reflexivity.
Qed.

Lemma nearby_sorted (l : list Point) :
  Forall (fun p => is_nan (dist p) = false) l ->
  StronglySorted (fun a b => (dist a <=? dist b) = true)
    (Array_sort byDistance l).
Proof.
  intros Hl. rewrite Forall_forall in Hl.
  assert (Hs := Array_sort_sorted byDistance (fun p => ord (dist p)) l
                  (fun a b Ha Hb => byDistance_passes a b (Hl a Ha) (Hl b Hb))).
  assert (Hin : forall p, In p (Array_sort byDistance l) -> is_nan (dist p) = false).
  { intros p Hp. apply Hl. eapply Permutation_in; [apply Array_sort_perm|exact Hp]. }
  revert Hs Hin. generalize (Array_sort byDistance l). intros out Hs.
  induction Hs as [|a out Hs IH Ha]; intros Hin; constructor.
  - apply IH. intros p Hp. apply Hin. now right.
  - rewrite Forall_forall in *. intros b Hb.
    rewrite leb_ord by (apply Hin; simpl; auto).
    apply Z.leb_le. auto.
Qed.

Lemma nearby_stable (l : list Point) (d : float) :
  Forall (fun p => is_nan (dist p) = false) l ->
  filter (fun p => dist p =? d) (Array_sort byDistance l) =
  filter (fun p => dist p =? d) l.
Proof.
  intros Hl. rewrite Forall_forall in Hl.
  apply Array_sort_filter. intros a b Ha Hb Hp Da Db.
  rewrite byDistance_passes in Hp by auto.
  destruct (eqb_true_not_nan _ _ Da) as [_ Hd].
  rewrite eqb_ord in Da, Db by auto.
  apply Z.eqb_eq in Da, Db. apply Z.ltb_lt in Hp. lia.
Qed.
End Nearby.

(* ===================================================================== *)
(** ** The distance *)
(* ===================================================================== *)

Section DistanceSign.
Import FloatSpec Signs.
Context {host : Host}.
Local Open Scope float_scope.

Lemma calculateDistance_sign (lat1 lon1 lat2 lon2 : float) :
  atan2_first_quadrant ->
  sign_bit (calculateDistance lat1 lon1 lat2 lon2) = false.
Proof.
  intros Hatan. unfold calculateDistance.
  apply mul_sign; [reflexivity|].
  apply mul_sign; [reflexivity|].
  apply Hatan.
  - apply sqrt_sign, add_sign_l, sign_bit_not_neg_zero, mul_self_sign.
  - apply sqrt_sign, one_sub_not_neg_zero.
Qed.
End DistanceSign.

Section DistanceSymmetry.
Import Mirror.
Context {host : Host}.
Local Open Scope float_scope.

(** The haversine terms see a coordinate difference only through
    [sin(d * PI / 180 / 2)] multiplied by itself. *)
Lemma half_angle_swap (c x y : float) :
  sin_odd ->
  c * Math_sin ((x - y) * Math_PI / 180 / 2) * Math_sin ((x - y) * Math_PI / 180 / 2) =
  c * Math_sin ((y - x) * Math_PI / 180 / 2) * Math_sin ((y - x) * Math_PI / 180 / 2).
Proof.
  intros Hodd. destruct (sub_swap x y) as [E|E]; rewrite E; [|reflexivity].
  rewrite mul_opp_l, !div_opp_l, Hodd, !mul_opp_r, mul_opp_l, opp_involutive.
  reflexivity.
Qed.

Lemma half_angle_sq_swap (x y : float) :
  sin_odd ->
  Math_sin ((x - y) * Math_PI / 180 / 2) * Math_sin ((x - y) * Math_PI / 180 / 2) =
  Math_sin ((y - x) * Math_PI / 180 / 2) * Math_sin ((y - x) * Math_PI / 180 / 2).
Proof.
  intros Hodd. destruct (sub_swap x y) as [E|E]; rewrite E; [|reflexivity].
  rewrite mul_opp_l, !div_opp_l, Hodd, mul_opp_opp.
  reflexivity.
Qed.

Lemma calculateDistance_swap (lat1 lon1 lat2 lon2 : float) :
  sin_odd ->
  calculateDistance lat1 lon1 lat2 lon2 = calculateDistance lat2 lon2 lat1 lon1.
Proof.
  intros Hodd. unfold calculateDistance. cbv zeta.
  rewrite (half_angle_sq_swap lat2 lat1 Hodd).
  rewrite (half_angle_swap _ lon2 lon1 Hodd).
  rewrite (mul_comm (Math_cos (lat1 * Math_PI / 180))).
  reflexivity.
Qed.
End DistanceSymmetry.

Section DistanceIdentity.
Import FloatSpec FloatOrder Magnitude FloatFacts Signs.
Context {host : Host}.
Local Open Scope float_scope.

Lemma sub_self (x : float) : is_finite x = true -> x - x = 0.
Proof.
  rewrite is_finite_spec. intros H. apply Prim2SF_inj. rewrite sub_spec.
  change (Prim2SF 0) with (S754_zero false).
  destruct (Prim2SF x) as [[|]|s| |s m e]; try discriminate; try reflexivity.
  unfold SF64sub, SFsub. cbv zeta. now rewrite Z.sub_diag.
Qed.

(** A finite number times zero, times zero, added to [+0], leaves [+0]
    whatever its sign. *)
Lemma add_zero_product (u : float) (k : Z) :
  mag_le u k -> 0 + u * 0 * 0 = 0.
Proof.
  unfold mag_le. intros Hm. apply Prim2SF_inj.
  rewrite add_spec, !mul_spec.
  change (Prim2SF 0) with (S754_zero false).
  destruct (Prim2SF u) as [[|]|s| |[|] m e]; cbn [SFmag_le] in *;
    try contradiction; reflexivity.
Qed.

(** Degrees in [[-90, 90]] convert to finite radians. *)
Lemma radians_finite (lat : float) :
  (-90 <=? lat) = true -> (lat <=? 90) = true ->
  is_finite (lat * Math_PI / 180) = true.
Proof.
  intros Hlo Hhi.
  assert (Hlat : mag_le lat 7).
  { apply (range_mag lat 90); try assumption; try lia; vm_compute; reflexivity. }
  assert (Hpi : mag_le Math_PI 2) by (vm_compute; discriminate).
  pose proof (mul_mag _ _ _ _ Hlat Hpi ltac:(vm_compute; discriminate)
                ltac:(vm_compute; discriminate)) as Hmul.
  eapply mag_le_finite.
  eapply (div_mag _ 180 _ false 6333186975989760 (-45)); [reflexivity|exact Hmul| |];
    vm_compute; discriminate.
Qed.

Lemma calculateDistance_self (lat lon : float) :
  sin_zero -> cos_bounded -> atan2_zero ->
  (-90 <=? lat) = true -> (lat <=? 90) = true -> is_finite lon = true ->
  calculateDistance lat lon lat lon = 0.
Proof.
  intros Hsin Hcos Hatan Hlo Hhi Hlon.
  assert (Hlat : is_finite lat = true).
  { apply (mag_le_finite lat 7).
    apply (range_mag lat 90); try assumption; try lia; vm_compute; reflexivity. }
  pose proof (radians_finite lat Hlo Hhi) as Hrad.
  destruct (Hcos _ Hrad) as [H1 H2].
  assert (Mc : mag_le (Math_cos (lat * Math_PI / 180)) 1)
    by (apply (range_mag _ 1); try assumption; try lia; vm_compute; reflexivity).
  pose proof (mul_mag _ _ _ _ Mc Mc ltac:(vm_compute; discriminate)
                ltac:(vm_compute; discriminate)) as Hmul.
  unfold calculateDistance. cbv zeta.
  rewrite (sub_self lat Hlat), (sub_self lon Hlon).
  replace (0 * Math_PI / 180 / 2) with 0 by reflexivity.
  unfold sin_zero in Hsin. rewrite Hsin.
  replace (0 * 0) with 0 by reflexivity.
  rewrite (add_zero_product _ _ Hmul).
  replace (Math_sqrt 0) with 0 by reflexivity.
  replace (Math_sqrt (1 - 0)) with 1 by reflexivity.
  unfold atan2_zero in Hatan. rewrite Hatan. reflexivity.
Qed.
End DistanceIdentity.

(* ===================================================================== *)
(** ** The laws hold on the small-angle host *)
(* ===================================================================== *)

Module SmallAngleHostLaws.
Import FloatSpec SmallAngleHost FloatOrder Rounding FloatFacts Signs Mirror
       Magnitude.
Local Open Scope float_scope.
#[local] Existing Instance host.

Lemma host_sin_odd : sin_odd.
Proof.
  intros x. cbn [Math_sin host]. unfold sin.
  assert (E : is_infinity (- x) = is_infinity x).
  { unfold is_infinity. rewrite !eqb_spec, !abs_spec, opp_spec.
    now destruct (Prim2SF x). }
  rewrite E. destruct (is_infinity x); reflexivity.
Qed.

Lemma host_sin_zero : sin_zero.
Proof. reflexivity. Qed.

Lemma host_cos_bounded : cos_bounded.
Proof.
  intros x Hx. cbn [Math_cos host]. unfold cos. rewrite Hx.
  split; reflexivity.
Qed.

Lemma host_atan2_zero : atan2_zero.
Proof. reflexivity. Qed.

Lemma SFdiv_signed x y :
  signed (xorb (SFsign x) (SFsign y)) (SFdiv prec emax x y).
Proof.
  destruct x as [sx|sx| |sx mx ex], y as [sy|sy| |sy my ey];
    try exact I; try reflexivity.
  cbn [SFdiv SFsign].
  destruct (SFdiv_core_binary prec emax (Z.pos mx) ex (Z.pos my) ey) as [[mz ez] lz].
  apply binary_round_aux_signed.
Qed.

Lemma host_atan2_first_quadrant : atan2_first_quadrant.
Proof.
  intros y x Hy Hx. cbn [Math_atan2 host]. unfold atan2, sign_bit in *.
  rewrite div_spec. apply signed_false_SFsign.
  rewrite <- (xorb_nilpotent false). rewrite <- Hy at 1. rewrite <- Hx.
  apply SFdiv_signed.
Qed.

Lemma bits_head p (r : string) :
  exists c t, (bits p ++ r)%string = String c t /\ c <> "p"%char.
Proof.
  destruct p; simpl; eexists; eexists; split; try reflexivity; discriminate.
Qed.

Lemma bits_join_inj p : forall q (r r' : string),
  (bits p ++ String "p" r = bits q ++ String "p" r')%string -> p = q /\ r = r'.
Proof.
  induction p as [p IH|p IH|]; intros [q|q|] r r' E; cbn [bits append] in E;
    try discriminate; injection E as E.
  - apply IH in E. destruct E as [-> ->]. auto.
  - destruct (bits_head p (String "p" r)) as (c & t & Hc & Hne).
    rewrite Hc in E. injection E as E _. congruence.
  - apply IH in E. destruct E as [-> ->]. auto.
  - destruct (bits_head q (String "p" r')) as (c & t & Hc & Hne).
    rewrite Hc in E. injection E as E _. congruence.
  - auto.
Qed.

Lemma bits_inj p q : bits p = bits q -> p = q.
Proof.
  intros E. assert (H : (bits p ++ String "p" "" = bits q ++ String "p" "")%string)
    by now rewrite E.
  now apply bits_join_inj in H.
Qed.

Lemma exponent_inj e e' : exponent e = exponent e' -> e = e'.
Proof.
  destruct e as [|p|p], e' as [|q|q]; cbn [exponent]; intros E;
    try discriminate; try reflexivity;
    try (destruct p; discriminate); try (destruct q; discriminate);
    injection E as E; apply bits_inj in E; now subst.
Qed.

Lemma bits_commaFree p : commaFree (bits p) = true.
Proof. induction p; simpl; auto. Qed.

Lemma exponent_commaFree e : commaFree (exponent e) = true.
Proof. destruct e; simpl; auto using bits_commaFree. Qed.

Lemma host_toString_comma_free : toString_comma_free.
Proof.
  intros x. cbn [Number_toString host]. unfold toString.
  destruct (Prim2SF x) as [s|[|]| |[|] m e]; try reflexivity;
    simpl; rewrite commaFree_app, bits_commaFree; simpl;
    apply exponent_commaFree.
Qed.

(** SameValueZero on the decoded numbers. *)
Lemma sameValueZero_spec (x y : float) :
  sameValueZero x y = true <->
  match Prim2SF x, Prim2SF y with
  | S754_zero _, S754_zero _ => True
  | X, Y => X = Y
  end.
Proof.
  unfold sameValueZero. rewrite orb_true_iff, andb_true_iff, !is_nan_spec, eqb_spec.
  unfold SFeqb.
  destruct (Prim2SF x) as [sx|sx| |sx mx ex], (Prim2SF y) as [sy|sy| |sy my ey];
    cbn [SFcompare not_nan negb];
    try (destruct sx); try (destruct sy);
    try (split; [intros [H|[H1 H2]]; try discriminate; auto
                | intros H; try discriminate; auto]; fail).
  all: change (PosDef.Pos.compare_cont Eq mx my) with (Pos.compare mx my);
    split;
    [ intros [H|[H1 H2]]; try discriminate;
      destruct (Z.compare_spec ex ey) as [E|E|E]; try discriminate; subst;
      destruct (Pos.compare_spec mx my) as [E|E|E]; try discriminate;
      now subst
    | intros H; injection H as -> ->; left;
      now rewrite Z.compare_refl, Pos.compare_refl ].
Qed.

Lemma host_toString_faithful : toString_faithful.
Proof.
  intros x y. rewrite sameValueZero_spec.
  cbn [Number_toString host]. unfold toString.
  destruct (Prim2SF x) as [sx|[|]| |[|] mx ex], (Prim2SF y) as [sy|[|]| |[|] my ey];
    simpl; split; intros H; try discriminate; try reflexivity; try exact I.
  all: try (injection H as -> ->; reflexivity).
  all: injection H as H; apply bits_join_inj in H; destruct H as [-> H];
    apply exponent_inj in H; now subst.
Qed.
End SmallAngleHostLaws.
(* ===================================================================== *)
(** ** The claims *)
(* ===================================================================== *)

Section Claims.
Import FloatSpec FloatFacts Signs.
Context {host : Host}.
Local Open Scope float_scope.

Lemma negative_radius_excludes (center : LatLng) (radius : float) (p : Point) :
  atan2_first_quadrant -> (radius <? 0) = true ->
  (distanceFrom center p <=? radius) = false.
Proof.
  intros Hatan Hr. apply sign_clear_not_leb_neg; [|assumption].
  now apply calculateDistance_sign.
Qed.

Lemma filter_none {A} (f : A -> bool) (l : list A) :
  (forall x, f x = false) -> filter f l = [].
Proof.
  intros H. induction l as [|a l IH]; simpl; [reflexivity|].
  now rewrite H.
Qed.

Lemma within_not_nan (center : LatLng) (radius : float) (allPoints : list Point) :
  Forall (fun p => is_nan (distanceFrom center p) = false)
    (filter (fun p => distanceFrom center p <=? radius) allPoints).
Proof.
  apply Forall_forall. intros p Hp. apply filter_In in Hp.
  now destruct (leb_true_not_nan _ _ (proj2 Hp)).
Qed.

(** C1. The nearby query returns exactly the input points whose distance
    from the centre is at most the radius (a point at exactly the radius
    is kept, one beyond it is dropped), in non-decreasing order of
    distance, points at equal distance keeping their input order. *)
Theorem nearby_within_sorted_stable
    (allPoints : list Point) (center : LatLng) (radius : float) :
  exists out,
    findNearbyPoints allPoints center radius = Normal out /\
    Permutation out
      (filter (fun p => distanceFrom center p <=? radius) allPoints) /\
    (forall p, In p out <->
               In p allPoints /\ (distanceFrom center p <=? radius) = true) /\
    (forall p, In p allPoints ->
               (distanceFrom center p =? radius) = true -> In p out) /\
    (forall p, (radius <? distanceFrom center p) = true -> ~ In p out) /\
    StronglySorted
      (fun a b => (distanceFrom center a <=? distanceFrom center b) = true)
      out /\
    (forall d,
        filter (fun p => distanceFrom center p =? d) out =
        filter (fun p => distanceFrom center p =? d)
          (filter (fun p => distanceFrom center p <=? radius) allPoints)).
Proof.
  eexists. split; [reflexivity|].
  pose proof (within_not_nan center radius allPoints) as Hnn.
  set (kept := filter _ allPoints) in *.
  assert (Hperm := Array_sort_perm
                     (fun a b => distanceFrom center a - distanceFrom center b) kept).
  assert (Hin : forall p,
             In p (Array_sort (fun a b => distanceFrom center a - distanceFrom center b) kept) <->
             In p allPoints /\ (distanceFrom center p <=? radius) = true).
  { intros p. rewrite <- (filter_In (fun p => distanceFrom center p <=? radius)).
    split; apply Permutation_in; [assumption|now apply Permutation_sym]. }
  split; [exact Hperm|]. split; [exact Hin|].
  split; [|split; [|split]].
  - intros p Hp E. apply Hin. split; [assumption|now apply eqb_leb].
  - intros p Hlt Hp. apply Hin in Hp. destruct Hp as [_ Hp].
    now rewrite (ltb_not_leb _ _ Hlt) in Hp.
  - now apply nearby_sorted.
  - intros d. now apply nearby_stable.
Qed.

(** C2. For a positive cell size the clusters are a total partition of
    the input: their member sequences together are the input as a
    multiset, and no point is a member of two clusters. *)
Theorem clusters_partition (P : list Point) (s : float) :
  (0 <? s) = true ->
  exists cs,
    createGridClusters P s = Normal cs /\
    Permutation (List.concat (map points cs)) P /\
    (forall i j ci cj p,
        nth_error cs i = Some ci -> nth_error cs j = Some cj ->
        In p (points ci) -> In p (points cj) -> i = j).
Proof.
  intros _. destruct (createGridClusters_spec P s) as (cs & Hcs & Hkeys & Hall).
  exists cs. split; [assumption|].
  assert (Hnd : NoDup (map clusterKey cs))
    by (rewrite Hkeys; apply firstAppearances_NoDup).
  rewrite Forall_forall in Hall. split.
  - replace (map points cs)
      with (map (fun k => membersOf s k P) (map clusterKey cs)).
    + apply membersOf_partition; [assumption|].
      intros p Hp. rewrite Hkeys. apply firstAppearances_In. now apply in_map.
    + rewrite map_map. apply map_ext_in. intros c Hc.
      symmetry. now apply Hall.
  - intros i j ci cj p Hi Hj Hpi Hpj.
    apply (cluster_index_unique cs i j ci cj Hnd Hi Hj).
    destruct (Hall ci (nth_error_In _ _ Hi)) as [Hci _].
    destruct (Hall cj (nth_error_In _ _ Hj)) as [Hcj _].
    destruct (cluster_member_key P s ci p Hci Hpi) as [_ <-].
    now destruct (cluster_member_key P s cj p Hcj Hpj) as [_ <-].
Qed.

(** C3. For a positive cell size two input points are in the same cluster
    exactly when their cell keys [(floor(lat / s), floor(lng / s))] are
    equal, and the coordinates a cluster stores equal the cell key of each
    of its members.  Keys are compared as the map compares them (numeric
    equality, NaN equal to itself). *)
Theorem clusters_by_cell_key (P : list Point) (s : float) :
  toString_faithful -> toString_comma_free -> (0 <? s) = true ->
  exists cs,
    createGridClusters P s = Normal cs /\
    (forall p q, In p P -> In q P ->
       ((exists c, In c cs /\ In p (points c) /\ In q (points c)) <->
        sameCell s p q = true)) /\
    (forall c p, In c cs -> In p (points c) ->
       sameValueZero (gridX c) (pointGridX s p) = true /\
       sameValueZero (gridY c) (pointGridY s p) = true).
Proof.
  intros Hf Hc _. destruct (createGridClusters_spec P s) as (cs & Hcs & Hkeys & Hall).
  exists cs. split; [assumption|]. rewrite Forall_forall in Hall. split.
  - intros p q Hp Hq. rewrite <- (pointGridKey_eq s p q Hf Hc). split.
    + intros (c & Hin & Hpc & Hqc). destruct (Hall c Hin) as [Hm _].
      destruct (cluster_member_key P s c p Hm Hpc) as [_ ->].
      now destruct (cluster_member_key P s c q Hm Hqc) as [_ ->].
    + intros E.
      assert (Hk : In (pointGridKey s p) (map clusterKey cs))
        by (rewrite Hkeys; apply firstAppearances_In; now apply in_map).
      apply in_map_iff in Hk. destruct Hk as (c & Hck & Hin).
      exists c. split; [assumption|]. destruct (Hall c Hin) as [-> _].
      unfold membersOf. rewrite !filter_In, Hck, <- E, String.eqb_refl. auto.
  - intros c p Hin Hpc. destruct (Hall c Hin) as [Hm _].
    destruct (cluster_member_key P s c p Hm Hpc) as [_ E].
    unfold pointGridKey, clusterKey in E. symmetry in E.
    now apply gridKeyOf_eq in E.
Qed.

(** C4. For a positive cell size the output is determined by the input:
    the clusters come in the order in which their cell keys first appear
    in the input, each cluster lists exactly its key's points in input
    order, and equal inputs give equal outputs. *)
Theorem clusters_in_input_order (P : list Point) (s : float) :
  (0 <? s) = true ->
  exists cs,
    createGridClusters P s = Normal cs /\
    map clusterKey cs = firstAppearances (map (pointGridKey s) P) /\
    (forall c, In c cs ->
       points c =
       filter (fun p => String.eqb (pointGridKey s p) (clusterKey c)) P) /\
    (forall P' s', P' = P -> s' = s -> createGridClusters P' s' = Normal cs).
Proof.
  intros _. destruct (createGridClusters_spec P s) as (cs & Hcs & Hkeys & Hall).
  exists cs. repeat split; try assumption.
  - intros c Hc. rewrite Forall_forall in Hall. now destruct (Hall c Hc).
  - intros P' s' -> ->. assumption.
Qed.

(** C5. The distance is symmetric in its two coordinates, on a host whose
    sine is odd: swapping the coordinates gives the same binary64 value, so
    the two results compare equal with [==] whenever they are numbers. *)
Theorem distance_symmetric (lat1 lon1 lat2 lon2 : float) :
  sin_odd ->
  calculateDistance lat1 lon1 lat2 lon2 = calculateDistance lat2 lon2 lat1 lon1 /\
  (is_nan (calculateDistance lat1 lon1 lat2 lon2) = false ->
   (calculateDistance lat1 lon1 lat2 lon2 =?
    calculateDistance lat2 lon2 lat1 lon1) = true).
Proof.
  intros Hodd. rewrite <- (calculateDistance_swap lat1 lon1 lat2 lon2 Hodd).
  split; [reflexivity|].
  unfold is_nan. now destruct (_ =? _).
Qed.

(** What does hold of the distance.  From a coordinate to itself it is
    exactly [+0] when the latitude lies in [[-90, 90]], as a latitude does,
    and the longitude is finite; and for all four inputs the result is never
    negative: where it is a number, it is at least zero. *)
Theorem distance_identity_and_sign :
  sin_zero -> cos_bounded -> atan2_zero -> atan2_first_quadrant ->
  (forall lat lon,
      (-90 <=? lat) = true -> (lat <=? 90) = true -> is_finite lon = true ->
      calculateDistance lat lon lat lon = 0) /\
  (forall lat1 lon1 lat2 lon2,
      (calculateDistance lat1 lon1 lat2 lon2 <? 0) = false /\
      (is_nan (calculateDistance lat1 lon1 lat2 lon2) = false ->
       (0 <=? calculateDistance lat1 lon1 lat2 lon2) = true)).
Proof.
  intros Hsin Hcos Hat0 Hatq. split.
  - intros lat lon. now apply calculateDistance_self.
  - intros lat1 lon1 lat2 lon2.
    pose proof (calculateDistance_sign lat1 lon1 lat2 lon2 Hatq) as Hs.
    set (d := calculateDistance lat1 lon1 lat2 lon2) in *.
    assert (Hd : is_nan d = false -> (0 <= ord d)%Z).
    { intros N. unfold sign_bit, ord in *.
      pose proof (Prim2SF_valid d) as V.
      assert (Hinf : (0 < 2 ^ 2100)%Z) by (apply Z.pow_pos_nonneg; lia).
      destruct (Prim2SF d) as [b|b| |b m e];
        cbn [SFsign scaled valid_binary] in *; subst;
        unfold cond_Zopp;
        try pose proof (FloatOrder.finite_magnitude _ _ V); lia. }
    split.
    + destruct (is_nan d) eqn:N.
      * rewrite ltb_spec. rewrite is_nan_spec in N.
        destruct (Prim2SF d); try discriminate. reflexivity.
      * rewrite ltb_ord by (auto; reflexivity). apply Z.ltb_ge.
        change (ord 0) with 0%Z. auto.
    + intros N. rewrite leb_ord by (auto; reflexivity). apply Z.leb_le.
      change (ord 0) with 0%Z. auto.
Qed.

(** C6.  Non-negativity fails between antipodes.  Between [(8, 0)] and
    [(-8, 180)] the haversine term [a], exactly [1] on the sphere, comes
    out of the correctly rounded sines and cosines as [1 + 2^-52]; the code
    takes the square root of [1 - a] without bounding [a] by [1], and the
    distance is NaN: neither at least zero nor finite. *)
Theorem distance_nan_between_antipodes :
  rounds_at_eight_degrees -> atan2_nan ->
  calculateDistance 8 0 (-8) 180 = nan /\
  (0 <=? calculateDistance 8 0 (-8) 180) = false /\
  is_finite (calculateDistance 8 0 (-8) 180) = false.
Proof.
  intros (Hs1 & Hc1 & Hc2 & Hs2) Hatan.
  assert (E : calculateDistance 8 0 (-8) 180 = nan).
  { unfold calculateDistance. cbv zeta.
    replace ((-8 - 8) * Math_PI / 180 / 2) with (-0x1.1df46a2529d39p-3)
      by reflexivity.
    replace (8 * Math_PI / 180) with 0x1.1df46a2529d39p-3 by reflexivity.
    replace (-8 * Math_PI / 180) with (-0x1.1df46a2529d39p-3) by reflexivity.
    replace ((180 - 0) * Math_PI / 180 / 2) with 0x1.921fb54442d18p+0
      by reflexivity.
    rewrite Hs1, Hc1, Hc2, Hs2.
    replace (-0x1.1d06c968d9e19p-3 * -0x1.1d06c968d9e19p-3 +
             0x1.fb046a930947ap-1 * 0x1.fb046a930947ap-1 * 1 * 1)
      with 0x1.0000000000001p+0 by reflexivity.
    replace (Math_sqrt (1 - 0x1.0000000000001p+0)) with nan by reflexivity.
    rewrite Hatan. reflexivity. }
  rewrite E. repeat split; reflexivity.
Qed.

(** C7, as amended.  The source validates neither argument: with a cell
    size of zero or below the clusterer still returns normally, its
    clusters holding the input as a multiset; with a negative radius the
    nearby query still returns normally, each point it returns being an
    input point within the radius. *)
Theorem invalid_arguments_return_normally
    (P : list Point) (s : float) (center : LatLng) (radius : float) :
  (s <=? 0) = true -> (radius <? 0) = true ->
  (exists cs, createGridClusters P s = Normal cs /\
              Permutation (List.concat (map points cs)) P) /\
  (exists out, findNearbyPoints P center radius = Normal out /\
               forall p, In p out ->
                         In p P /\ (distanceFrom center p <=? radius) = true).
Proof.
  intros _ _. split.
  - destruct (createGridClusters_spec P s) as (cs & Hcs & Hkeys & Hall).
    exists cs. split; [assumption|].
    rewrite Forall_forall in Hall.
    replace (map points cs)
      with (map (fun k => membersOf s k P) (map clusterKey cs)).
    + apply membersOf_partition.
      * rewrite Hkeys. apply firstAppearances_NoDup.
      * intros p Hp. rewrite Hkeys. apply firstAppearances_In. now apply in_map.
    + rewrite map_map. apply map_ext_in. intros c Hc.
      symmetry. now apply Hall.
  - eexists. split; [reflexivity|]. intros p Hp.
    apply (Permutation_in _ (Array_sort_perm _ _)) in Hp.
    now apply filter_In in Hp.
Qed.

(** C8. On an empty collection both operations return the empty sequence,
    whatever the cell size, the centre and the radius. *)
Theorem empty_input_empty_output (s : float) (center : LatLng) (radius : float) :
  createGridClusters [] s = Normal [] /\
  findNearbyPoints [] center radius = Normal [].
Proof. split; reflexivity. Qed.

(** C9. With a strictly negative radius the nearby query throws nothing and
    returns the empty sequence: no distance, being NaN or non-negative, is
    at most the radius. *)
Theorem negative_radius_finds_nothing
    (allPoints : list Point) (center : LatLng) (radius : float) :
  atan2_first_quadrant -> (radius <? 0) = true ->
  findNearbyPoints allPoints center radius = Normal [].
Proof.
  intros Hatan Hr. unfold findNearbyPoints. cbv zeta.
  rewrite filter_none; [reflexivity|].
  intros p. now apply negative_radius_excludes.
Qed.

(** C10. For every cell size, zero and negative ones included, the
    clusterer returns without throwing, and every input point is a member
    of exactly one of the returned clusters, the one filed under the
    point's key. *)
Theorem clusterer_total (P : list Point) (s : float) :
  exists cs,
    createGridClusters P s = Normal cs /\
    forall p, In p P ->
      exists i c,
        nth_error cs i = Some c /\ In p (points c) /\
        clusterKey c = pointGridKey s p /\
        forall j c', nth_error cs j = Some c' -> In p (points c') -> j = i.
Proof.
  destruct (createGridClusters_spec P s) as (cs & Hcs & Hkeys & Hall).
  exists cs. split; [assumption|]. intros p Hp.
  rewrite Forall_forall in Hall.
  assert (Hnd : NoDup (map clusterKey cs))
    by (rewrite Hkeys; apply firstAppearances_NoDup).
  assert (Hk : In (pointGridKey s p) (map clusterKey cs))
    by (rewrite Hkeys; apply firstAppearances_In; now apply in_map).
  apply in_map_iff in Hk. destruct Hk as (c & Hck & Hin).
  destruct (In_nth_error _ _ Hin) as [i Hi].
  exists i, c. split; [assumption|]. split; [|split; [assumption|]].
  - destruct (Hall c Hin) as [-> _]. unfold membersOf.
    rewrite filter_In, Hck, String.eqb_refl. auto.
  - intros j c' Hj Hpc'.
    apply (cluster_index_unique cs j i c' c Hnd Hj Hi).
    destruct (Hall c' (nth_error_In _ _ Hj)) as [Hm _].
    destruct (cluster_member_key P s c' p Hm Hpc') as [_ <-].
    now symmetry.
Qed.
End Claims.

(** The values and the law that the theorem on the antipodes asks of a
    host, on [EightDegreesHost]. *)
Module EightDegreesHostLaws.
Import EightDegreesHost.
#[local] Existing Instance EightDegreesHost.host.
Local Open Scope float_scope.

Lemma host_rounds_at_eight_degrees : rounds_at_eight_degrees.
Proof. repeat split; reflexivity. Qed.

Lemma host_atan2_nan : atan2_nan.
Proof.
  intros y. cbn [Math_atan2 host]. unfold SmallAngleHost.atan2.
  apply Prim2SF_inj. rewrite div_spec.
  change (Prim2SF nan) with S754_nan.
  now destruct (Prim2SF y).
Qed.
End EightDegreesHostLaws.

(* ===================================================================== *)
(** ** The theorems at work on the sample data *)
(* ===================================================================== *)

Section OnTheSample.
Import SmallAngleHost SmallAngleHostLaws Sample.
#[local] Existing Instance SmallAngleHost.host.
Local Open Scope float_scope.

Example floor_of_melbourne_latitude : Math_floor (lat melbourne / 0.5) = -76.
Proof. reflexivity. Qed.

Example floor_keeps_negative_zero :
  Prim2SF (Math_floor (-0)) = S754_zero true /\ Math_floor 0.75 = 0 /\
  Math_floor (-0.25) = -1 /\ Math_floor neg_infinity = neg_infinity.
Proof. repeat split; reflexivity. Qed.

(** Melbourne and St Kilda share the cell [(-76, 289)]; the clusters come
    in the order New York, Melbourne, London. *)
Example sample_clusters :
  createGridClusters somePoints 0.5 =
  Normal [ {| points := [newYork]; gridX := 81; gridY := -149 |};
           {| points := [melbourne; stKilda]; gridX := -76; gridY := 289 |};
           {| points := [london]; gridX := 103; gridY := -1 |} ].
Proof. reflexivity. Qed.

(** Within 200 km of the demo centre: Melbourne itself, then St Kilda,
    whatever their order in the input.  With radius [0] Melbourne, at
    distance exactly [0], is still found. *)
Example sample_nearby :
  findNearbyPoints [stKilda; newYork; melbourne; london] demoCenter 200 =
  Normal [melbourne; stKilda] /\
  findNearbyPoints somePoints demoCenter 0 = Normal [melbourne].
Proof. split; reflexivity. Qed.

Lemma clusters_partition_witness :
  (0 <? 0.5) = true /\
  exists cs,
    createGridClusters somePoints 0.5 = Normal cs /\
    Permutation (List.concat (map points cs)) somePoints /\
    (forall i j ci cj p,
        nth_error cs i = Some ci -> nth_error cs j = Some cj ->
        In p (points ci) -> In p (points cj) -> i = j).
Proof.
  split; [reflexivity|].
  apply (@clusters_partition host somePoints 0.5). reflexivity.
Defined.

Lemma clusters_by_cell_key_witness :
  toString_faithful /\ toString_comma_free /\ (0 <? 0.5) = true /\
  exists cs,
    createGridClusters somePoints 0.5 = Normal cs /\
    (forall p q, In p somePoints -> In q somePoints ->
       ((exists c, In c cs /\ In p (points c) /\ In q (points c)) <->
        sameCell 0.5 p q = true)) /\
    (forall c p, In c cs -> In p (points c) ->
       sameValueZero (gridX c) (pointGridX 0.5 p) = true /\
       sameValueZero (gridY c) (pointGridY 0.5 p) = true).
Proof.
  split; [exact host_toString_faithful|].
  split; [exact host_toString_comma_free|].
  split; [reflexivity|].
  apply (@clusters_by_cell_key host somePoints 0.5
           host_toString_faithful host_toString_comma_free).
  reflexivity.
Defined.

Lemma clusters_in_input_order_witness :
  (0 <? 0.5) = true /\
  exists cs,
    createGridClusters somePoints 0.5 = Normal cs /\
    map clusterKey cs = firstAppearances (map (pointGridKey 0.5) somePoints) /\
    (forall c, In c cs ->
       points c =
       filter (fun p => String.eqb (pointGridKey 0.5 p) (clusterKey c))
         somePoints) /\
    (forall P' s', P' = somePoints -> s' = 0.5 ->
                   createGridClusters P' s' = Normal cs).
Proof.
  split; [reflexivity|].
  apply (@clusters_in_input_order host somePoints 0.5). reflexivity.
Defined.

Lemma distance_symmetric_witness :
  sin_odd /\
  calculateDistance (lat melbourne) (lng melbourne) (lat stKilda) (lng stKilda) =
  calculateDistance (lat stKilda) (lng stKilda) (lat melbourne) (lng melbourne).
Proof.
  split; [exact host_sin_odd|].
  apply (@distance_symmetric host). exact host_sin_odd.
Defined.

Lemma distance_identity_and_sign_witness :
  sin_zero /\ cos_bounded /\ atan2_zero /\ atan2_first_quadrant /\
  calculateDistance (lat melbourne) (lng melbourne)
    (lat melbourne) (lng melbourne) = 0 /\
  (calculateDistance (lat newYork) (lng newYork)
     (lat london) (lng london) <? 0) = false.
Proof.
  split; [exact host_sin_zero|]. split; [exact host_cos_bounded|].
  split; [exact host_atan2_zero|]. split; [exact host_atan2_first_quadrant|].
  pose proof (@distance_identity_and_sign host host_sin_zero host_cos_bounded
                host_atan2_zero host_atan2_first_quadrant) as [Hid Hsign].
  split.
  - apply Hid; reflexivity.
  - apply Hsign.
Defined.

Lemma distance_nan_between_antipodes_witness :
  @rounds_at_eight_degrees EightDegreesHost.host /\
  @atan2_nan EightDegreesHost.host /\
  @calculateDistance EightDegreesHost.host 8 0 (-8) 180 = nan /\
  (0 <=? @calculateDistance EightDegreesHost.host 8 0 (-8) 180)%float = false /\
  is_finite (@calculateDistance EightDegreesHost.host 8 0 (-8) 180) = false.
Proof.
  split; [exact EightDegreesHostLaws.host_rounds_at_eight_degrees|].
  split; [exact EightDegreesHostLaws.host_atan2_nan|].
  apply (@distance_nan_between_antipodes EightDegreesHost.host
           EightDegreesHostLaws.host_rounds_at_eight_degrees
           EightDegreesHostLaws.host_atan2_nan).
Defined.

(** C7 as stated fails.  With cell size [0] the clusterer returns one
    cluster, filed under [(-Infinity, Infinity)] (the quotients
    [-37.8136 / 0] and [144.9631 / 0]); with radius [-5] the nearby query
    returns the empty sequence, Melbourne being at distance [0] from the demo
    centre.  Neither call throws. *)
Lemma invalid_argument_counterexample :
  createGridClusters [melbourne] 0 =
  Normal [ {| points := [melbourne];
              gridX := neg_infinity; gridY := infinity |} ] /\
  findNearbyPoints [melbourne] demoCenter (-5) = Normal [].
Proof. split; reflexivity. Qed.

Lemma invalid_arguments_return_normally_witness :
  (0 <=? 0) = true /\ (-5 <? 0) = true /\
  (exists cs, createGridClusters somePoints 0 = Normal cs /\
              Permutation (List.concat (map points cs)) somePoints) /\
  (exists out, findNearbyPoints somePoints demoCenter (-5) = Normal out /\
               forall p, In p out ->
                         In p somePoints /\
                         (distanceFrom demoCenter p <=? -5) = true).
Proof.
  split; [reflexivity|]. split; [reflexivity|].
  apply (@invalid_arguments_return_normally host somePoints 0 demoCenter (-5));
    reflexivity.
Defined.

Lemma negative_radius_finds_nothing_witness :
  atan2_first_quadrant /\ (-5 <? 0) = true /\
  findNearbyPoints somePoints demoCenter (-5) = Normal [].
Proof.
  split; [exact host_atan2_first_quadrant|]. split; [reflexivity|].
  apply (@negative_radius_finds_nothing host somePoints demoCenter (-5));
    [exact host_atan2_first_quadrant|reflexivity].
Defined.
End OnTheSample.

(* ===================================================================== *)
(** ** Integers as binary64 numbers *)
(* ===================================================================== *)

Module SmallIntegers.
Import FloatSpec FloatOrder Rounding FloatFacts Magnitude.
Local Open Scope Z_scope.

Lemma shl_align_digits m e e' :
  Zpos (digits2_pos (fst (shl_align m e e'))) + snd (shl_align m e e') =
  Zpos (digits2_pos m) + e.
Proof.
  unfold shl_align. destruct (e' - e) as [|d|d] eqn:E; cbn [fst snd]; try lia.
  rewrite digits2_pos_iter_xO. lia.
Qed.

Lemma shl_align_exponent m e e' :
  snd (shl_align m e e') = Z.min e e'.
Proof.
  unfold shl_align. destruct (e' - e) as [|d|d] eqn:E; cbn [snd]; lia.
Qed.

(** A number with at most 53 significant bits above the smallest exponent
    is not rounded: [binary_round] only aligns it. *)
Lemma binary_round_exact s m e :
  fexp prec emax (Zpos (digits2_pos m) + e) <= e ->
  binary_round prec emax s m e =
  let '(mz, ez) := shl_align m e (fexp prec emax (Zpos (digits2_pos m) + e)) in
  if ez <=? emax - prec then S754_finite s mz ez else S754_infinity s.
Proof.
  intros H. unfold binary_round.
  pose proof (shl_align_digits m e (fexp prec emax (Zpos (digits2_pos m) + e))) as Hd.
  pose proof (shl_align_exponent m e (fexp prec emax (Zpos (digits2_pos m) + e))) as He.
  destruct (shl_align m e _) as [mz ez]. cbn [fst snd] in Hd, He.
  assert (Hn : fexp prec emax (Zdigits2 (Zpos mz) + ez) - ez = 0).
  { cbn [Zdigits2]. rewrite Hd. lia. }
  unfold binary_round_aux, shr_fexp. rewrite Hn. cbn [shr shr_record_of_loc].
  cbn [shr_m loc_of_shr_record round_nearest_even]. rewrite Hn.
  cbn [shr shr_record_of_loc shr_m]. reflexivity.
Qed.

(** An integer below [2^53] in magnitude is a binary64 number. *)
Lemma binary_normalize_integer (z : Z) :
  Z.abs z < 2 ^ 53 ->
  valid_binary (binary_normalize prec emax z 0 false) = true /\
  not_nan (binary_normalize prec emax z 0 false) = true /\
  scaled (binary_normalize prec emax z 0 false) = z * 2 ^ 1074.
Proof.
  intros Hz. destruct z as [|p|p]; [repeat split| |].
  all: cbn [binary_normalize];
    assert (Hp : Zpos p < 2 ^ 53) by lia;
    assert (Hd : Zpos (digits2_pos p) <= 53)
      by (apply (Zdigits2_le_of_lt (Zpos p) 53); lia);
    assert (Hf : fexp prec emax (Zpos (digits2_pos p) + 0) =
                 Zpos (digits2_pos p) - 53)
      by (unfold fexp, SpecFloat.emin, prec, emax; lia);
    rewrite binary_round_exact by (rewrite Hf; lia);
    pose proof (shl_align_digits p 0 (fexp prec emax (Zpos (digits2_pos p) + 0))) as Hdg;
    pose proof (shl_align_exponent p 0 (fexp prec emax (Zpos (digits2_pos p) + 0))) as Hex;
    pose proof (shl_align_value p 0 (fexp prec emax (Zpos (digits2_pos p) + 0))
                  ltac:(rewrite Hf; lia)) as Hv;
    destruct (shl_align p 0 _) as [mz ez]; cbn [fst snd] in *;
    rewrite Hf in *;
    assert (Hez : ez = Zpos (digits2_pos p) - 53) by lia;
    assert (Hle : (ez <=? emax - prec) = true)
      by (apply Z.leb_le; unfold emax, prec; lia);
    rewrite Hle; cbn [valid_binary not_nan scaled cond_Zopp].
  all: repeat split.
  1,3: unfold bounded, canonical_mantissa; rewrite Hle, andb_true_r;
       apply Z.eqb_eq; unfold fexp, SpecFloat.emin, prec, emax; lia.
  all: rewrite Hv; subst ez.
  all: pose proof (Pos2Z.is_pos (digits2_pos p)) as Hpos;
    generalize dependent (Zpos (digits2_pos p)); intros d; intros.
  all: replace (2 ^ 1074) with (2 ^ (0 - (d - 53)) * 2 ^ (d - 53 - emin))
      by (rewrite <- Z.pow_add_r by (unfold emin, emax, prec; lia); f_equal; unfold emin, emax, prec; lia).
  all: rewrite Hez; change (Z.neg p) with (- Z.pos p); ring.
Qed.
End SmallIntegers.

(** *** [Math.round] and array lengths *)

Module Rounded.
Import FloatSpec FloatOrder FloatFacts SmallIntegers.
Local Open Scope Z_scope.

(** The whole number nearest to [k / 2^1074], ties upwards. *)
Definition nearest (k : Z) : Z := (2 * k + 2 ^ 1074) / 2 ^ 1075.

Lemma nearest_mono (a b : Z) : a <= b -> nearest a <= nearest b.
Proof. intros H. unfold nearest. apply Z.div_le_mono; lia. Qed.

Lemma nearest_whole (n : Z) : nearest (n * 2 ^ 1074) = n.
Proof.
  unfold nearest. change (2 ^ 1075) with (2 * 2 ^ 1074).
  replace (2 * (n * 2 ^ 1074) + 2 ^ 1074) with ((2 * n + 1) * 2 ^ 1074) by ring.
  rewrite Z.div_mul_cancel_r by lia.
  replace (2 * n + 1) with (1 + n * 2) by ring.
  rewrite Z.div_add by lia. reflexivity.
Qed.

Lemma Prim2SF_integer (z : Z) :
  Z.abs z < 2 ^ 53 ->
  not_nan (Prim2SF (SF2Prim (binary_normalize prec emax z 0 false))) = true /\
  scaled (Prim2SF (SF2Prim (binary_normalize prec emax z 0 false))) =
  z * 2 ^ 1074.
Proof.
  intros H. destruct (binary_normalize_integer z H) as (V & N & E).
  rewrite Prim2SF_SF2Prim by exact V. auto.
Qed.

(** [Math.round] keeps NaN apart from the numbers, and on a number it
    returns the nearest whole number, ties upwards. *)
Lemma Math_round_spec (x : float) :
  is_nan x = false ->
  is_nan (Math_round x) = false /\
  ord (Math_round x) = nearest (ord x) * 2 ^ 1074.
Proof.
  intros Hx. pose proof (Prim2SF_valid x) as V.
  pose proof (not_nan_of _ Hx) as N.
  unfold Math_round, ord in *. rewrite is_nan_spec.
  destruct (Prim2SF x) as [s|s| |s m e] eqn:E; try discriminate.
  - rewrite E. split; reflexivity.
  - rewrite E. split; [reflexivity|].
    cbn [scaled]. change (2 ^ 2100) with (2 ^ 1026 * 2 ^ 1074).
    destruct s; cbn [cond_Zopp].
    + replace (- (2 ^ 1026 * 2 ^ 1074)) with ((- 2 ^ 1026) * 2 ^ 1074) by ring.
      now rewrite nearest_whole.
    + now rewrite nearest_whole.
  - cbn [valid_binary] in V. destruct (bounded_inv _ _ V) as (He & Hd & _).
    pose proof (digits2_bounds m) as [_ Hm].
    assert (Hm53 : Zpos m < 2 ^ 53).
    { eapply Z.lt_le_trans; [exact Hm|]. apply Z.pow_le_mono_r; [lia|exact Hd]. }
    change emin with (-1074) in *. unfold emax, prec in He.
    cbn [scaled]. set (z := cond_Zopp s (Zpos m)).
    assert (Hz : Z.abs z < 2 ^ 53) by (subst z; destruct s; simpl; lia).
    change emin with (-1074).
    assert (Hsc : cond_Zopp s (Zpos m * 2 ^ (e - -1074)) = z * 2 ^ (e + 1074)).
    { subst z. replace (e - -1074) with (e + 1074) by lia.
      destruct s; cbn [cond_Zopp]; ring. }
    rewrite Hsc.
    destruct (Z.leb_spec 0 e) as [He0|He0].
    + rewrite E. split; [reflexivity|]. cbn [scaled].
      change emin with (-1074). rewrite Hsc.
      rewrite Z.pow_add_r by lia.
      replace (z * (2 ^ e * 2 ^ 1074)) with ((z * 2 ^ e) * 2 ^ 1074) by ring.
      now rewrite nearest_whole.
    + set (n := Z.shiftr (2 * z + 2 ^ (- e)) (- e + 1)).
      assert (Hn : n = nearest (z * 2 ^ (e + 1074))).
      { subst n. rewrite Z.shiftr_div_pow2 by lia. unfold nearest.
        assert (E1 : 2 ^ 1075 = 2 ^ (- e + 1) * 2 ^ (e + 1074))
          by (rewrite <- Z.pow_add_r by lia; f_equal; lia).
        assert (E2 : 2 ^ 1074 = 2 ^ (- e) * 2 ^ (e + 1074))
          by (rewrite <- Z.pow_add_r by lia; f_equal; lia).
        rewrite E1. rewrite E2 at 1.
        replace (2 * (z * 2 ^ (e + 1074)) + 2 ^ (- e) * 2 ^ (e + 1074))
          with ((2 * z + 2 ^ (- e)) * 2 ^ (e + 1074)) by ring.
        rewrite Z.div_mul_cancel_r; [reflexivity| |];
          apply Z.pow_nonzero; lia. }
      assert (Hn53 : Z.abs n < 2 ^ 53).
      { subst n. rewrite Z.shiftr_div_pow2 by lia.
        assert (P1 : 2 ^ (- e + 1) = 2 * 2 ^ (- e))
          by (rewrite Z.pow_add_r by lia; change (2 ^ 1) with 2; ring).
        assert (P2 : 1 < 2 ^ (- e)) by (apply Z.pow_gt_1; lia).
        rewrite P1. generalize dependent (2 ^ (- e)). intros q P1 P2.
        assert (Lo : - 2 ^ 53 < (2 * z + q) / (2 * q)).
        { apply Z.lt_le_trans with ((- 2 ^ 53 + 1) * (2 * q) / (2 * q)).
          - rewrite Z.div_mul by lia. lia.
          - apply Z.div_le_mono; nia. }
        assert (Hi : (2 * z + q) / (2 * q) < 2 ^ 53).
        { apply Z.div_lt_upper_bound; nia. }
        lia. }
      fold n. rewrite <- Hn.
      destruct (Z.eqb_spec n 0) as [Z0|NZ].
      * rewrite Z0. destruct s; split; reflexivity.
      * destruct (Prim2SF_integer n Hn53) as [N' S']. rewrite N', S'. auto.
Qed.

(** The Number of a length below [2^53] is that length. *)
Lemma Number_ofNat_spec (n : nat) :
  Z.of_nat n < 2 ^ 53 ->
  is_nan (Number_ofNat n) = false /\
  ord (Number_ofNat n) = Z.of_nat n * 2 ^ 1074.
Proof.
  intros H. unfold Number_ofNat, ord. rewrite is_nan_spec.
  destruct (Prim2SF_integer (Z.of_nat n)) as [N S']; [lia|].
  rewrite N, S'. auto.
Qed.
End Rounded.

(* ===================================================================== *)
(** ** More on the sort *)
(* ===================================================================== *)

Section SortMore.
Context {A : Type}.
Variable comparefn : A -> A -> float.
Variable key : A -> Z.
Local Abbreviation passes x y := (0 <? SortCompare comparefn x y)%float.
Local Abbreviation sortedByKey := (StronglySorted (fun a b => (key a <= key b)%Z)).

Lemma filter_sorted (f : A -> bool) (l : list A) :
  sortedByKey l -> sortedByKey (filter f l).
Proof.
  induction 1 as [|a l Hs IH Ha]; cbn [filter]; [constructor|].
  destruct (f a); [|assumption]. constructor; [assumption|].
  rewrite Forall_forall in *. intros x Hx. apply filter_In in Hx. apply Ha, Hx.
Qed.

Lemma filter_comm (f g : A -> bool) (l : list A) :
  filter f (filter g l) = filter g (filter f l).
Proof.
  induction l as [|a l IH]; [reflexivity|]. cbn [filter].
  destruct (f a) eqn:F, (g a) eqn:G; cbn [filter]; rewrite ?F, ?G, IH; reflexivity.
Qed.

(** Selecting before the sort or after it gives the same array. *)
Lemma Array_sort_filter_commute (f : A -> bool) (l : list A) :
  (forall x y, In x l -> In y l -> passes x y = (key y <? key x)%Z) ->
  filter f (Array_sort comparefn l) = Array_sort comparefn (filter f l).
Proof.
  intros H. apply (Array_sort_characterised comparefn key).
  - intros x y Hx Hy. apply filter_In in Hx, Hy. apply H; tauto.
  - apply filter_sorted. now apply Array_sort_sorted.
  - intros v. rewrite filter_comm. rewrite (filter_comm _ f l). f_equal.
    apply Array_sort_filter. intros x y Hx Hy Hp Ex Ey.
    rewrite (H x y Hx Hy) in Hp.
    apply Z.eqb_eq in Ex, Ey. apply Z.ltb_lt in Hp. lia.
Qed.

(** The sort leaves a sorted array as it is. *)
Lemma Array_sort_sorted_id (l : list A) :
  (forall x y, In x l -> In y l -> passes x y = (key y <? key x)%Z) ->
  sortedByKey l -> Array_sort comparefn l = l.
Proof.
  intros H Hs. symmetry. now apply (Array_sort_characterised comparefn key).
Qed.

(** In a sorted array the elements up to a bound come first. *)
Lemma sorted_filter_prefix (r : Z) (l : list A) :
  sortedByKey l ->
  l = filter (fun x => (key x <=? r)%Z) l ++
      filter (fun x => negb (key x <=? r)%Z) l.
Proof.
  induction 1 as [|a l Hs IH Ha]; [reflexivity|]. cbn [filter].
  destruct (Z.leb_spec (key a) r) as [Hle|Hgt]; cbn [negb app].
  - now rewrite <- IH.
  - rewrite Forall_forall in Ha.
    assert (E : filter (fun x => (key x <=? r)%Z) l = []).
    { clear IH. induction l as [|b l IHl]; [reflexivity|]. cbn [filter].
      inversion Hs; subst.
      destruct (Z.leb_spec (key b) r) as [Hb|_].
      - specialize (Ha b (or_introl eq_refl)). lia.
      - apply IHl; [assumption|]. intros x Hx. apply Ha. now right. }
    rewrite E in *. cbn [app] in *. now rewrite <- IH.
Qed.
End SortMore.

(** The comparator [(a, b) => f(a) - f(b)] on elements whose [f] is a
    number sends [a] behind [b] exactly when [f(a)] is greater. *)
Lemma difference_passes {A} (f : A -> float) (a b : A) :
  is_nan (f a) = false -> is_nan (f b) = false ->
  (0 <? SortCompare (fun a b => f a - f b) a b)%float =
  (FloatSpec.ord (f b) <? FloatSpec.ord (f a))%Z.
Proof.
  intros Ha Hb. unfold SortCompare.
  rewrite <- (FloatFacts.sub_pos _ _ Ha Hb).
  destruct (is_nan (f a - f b)) eqn:E; [|reflexivity].
  rewrite (FloatFacts.ltb_zero_nan _ E). reflexivity.
Qed.

Lemma sorted_by_leb {A} (f : A -> float) (l : list A) :
  Forall (fun x => is_nan (f x) = false) l ->
  StronglySorted (fun a b => (FloatSpec.ord (f a) <= FloatSpec.ord (f b))%Z) l ->
  StronglySorted (fun a b => (f a <=? f b)%float = true) l.
Proof.
  intros Hn Hs. induction Hs as [|a l Hs IH Ha]; constructor.
  - apply IH. now inversion Hn.
  - inversion Hn as [|? ? Na Nl]; subst. rewrite Forall_forall in *.
    intros b Hb. rewrite FloatFacts.leb_ord by auto. apply Z.leb_le. auto.
Qed.

(* ===================================================================== *)
(** ** Rounding to nearest, from above *)
(* ===================================================================== *)

Module Nearest.
Import FloatSpec FloatOrder Rounding FloatFacts Magnitude.
Local Open Scope Z_scope.

Lemma shr_1_r mrs : 0 <= shr_m mrs -> shr_r (shr_1 mrs) = Z.odd (shr_m mrs).
Proof.
  destruct mrs as [m r s]. simpl.
  destruct m as [|[p|p|]|p]; simpl; intros H; try reflexivity; lia.
Qed.

(** After [n] shifts the round bit is bit [n - 1] of the mantissa. *)
Lemma iter_shr_1_r n : forall mrs,
  0 <= shr_m mrs ->
  shr_r (iter_pos shr_1 n mrs) = Z.testbit (shr_m mrs) (Zpos n - 1).
Proof.
  assert (Hnn : forall a k, 0 <= a -> 0 <= k -> 0 <= Z.shiftr a k)
    by (intros; now apply Z.shiftr_nonneg).
  assert (H1 : forall mrs, 0 <= shr_m mrs ->
               shr_m (shr_1 mrs) = Z.shiftr (shr_m mrs) 1).
  { intros mrs H. rewrite shr_1_m by assumption. now rewrite Z.div2_spec. }
  induction n as [n IH|n IH|]; intros mrs H; cbn [iter_pos].
  - rewrite IH by (rewrite iter_shr_1_m, H1 by (rewrite ?H1; auto with zarith);
                   auto with zarith).
    rewrite iter_shr_1_m, H1 by (rewrite ?H1; auto with zarith).
    rewrite !Z.shiftr_spec by lia. f_equal. lia.
  - rewrite IH by (rewrite iter_shr_1_m by assumption; auto with zarith).
    rewrite iter_shr_1_m by assumption.
    rewrite Z.shiftr_spec by lia. f_equal. lia.
  - rewrite shr_1_r by assumption. now rewrite Z.bit0_odd.
Qed.

Lemma testbit_mod (a n : Z) :
  0 <= a -> 1 <= n -> Z.testbit a (n - 1) = true ->
  2 ^ (n - 1) <= a mod 2 ^ n.
Proof.
  intros Ha Hn Hb. apply Z.testbit_true in Hb; [|lia].
  replace (2 ^ n) with (2 ^ (n - 1) * 2)
    by (rewrite Z.mul_comm, <- Z.pow_succ_r by lia; f_equal; lia).
  assert (Hp : 0 < 2 ^ (n - 1)) by (apply Z.pow_pos_nonneg; lia).
  rewrite Z.rem_mul_r by lia. rewrite Hb.
  pose proof (Z.mod_pos_bound a (2 ^ (n - 1)) Hp). lia.
Qed.

(** The first step of [binary_round_aux]: the rounded mantissa exceeds the
    exact one by half a unit of the new exponent at most. *)
Lemma round_step (P E : Z) :
  0 <= P ->
  let r := shr_fexp prec emax P E loc_Exact in
  let m1 := round_nearest_even (shr_m (fst r)) (loc_of_shr_record (fst r)) in
  snd r = Z.max E (fexp prec emax (Zdigits2 P + E)) /\
  0 <= m1 /\
  2 * m1 * 2 ^ (snd r - E) <= 2 * P + 2 ^ (snd r - E).
Proof.
  intros HP. cbv zeta. unfold shr_fexp, shr.
  set (f := fexp prec emax (Zdigits2 P + E)).
  destruct (f - E) as [|n|n] eqn:En; cbn [fst snd shr_record_of_loc shr_m
    loc_of_shr_record round_nearest_even].
  - replace (E - E) with 0 by lia. change (2 ^ 0) with 1. lia.
  - pose proof (iter_shr_1_m n (shr_record_of_loc P loc_Exact)) as Hm.
    pose proof (iter_shr_1_r n (shr_record_of_loc P loc_Exact)) as Hr.
    cbn [shr_record_of_loc shr_m] in Hm, Hr.
    specialize (Hm HP). specialize (Hr HP).
    destruct (iter_pos shr_1 n _) as [m r s]. cbn [shr_m shr_r] in *.
    replace (E + Zpos n - E) with (Zpos n) by lia.
    assert (Hpow : 0 < 2 ^ Zpos n) by (apply Z.pow_pos_nonneg; lia).
    rewrite Z.shiftr_div_pow2 in Hm by lia.
    pose proof (Z.div_mod P (2 ^ Zpos n) ltac:(lia)) as Hdm.
    pose proof (Z.mod_pos_bound P (2 ^ Zpos n) Hpow) as Hmod.
    assert (Hq : 0 <= P / 2 ^ Zpos n) by (apply Z.div_pos; lia).
    split; [lia|].
    assert (Hup : round_nearest_even m (loc_of_shr_record
                    {| shr_m := m; shr_r := r; shr_s := s |}) <=
                  m + (if r then 1 else 0)).
    { cbn [loc_of_shr_record round_nearest_even].
      destruct r, s; cbn [round_nearest_even]; try lia.
      destruct (Z.even m); lia. }
    pose proof (round_nearest_even_ge m (loc_of_shr_record
                    {| shr_m := m; shr_r := r; shr_s := s |})) as Hlo.
    split; [lia|].
    set (m1 := round_nearest_even _ _) in *.
    destruct r.
    + symmetry in Hr. apply testbit_mod in Hr; [|lia|lia].
      assert (Hhalf : 2 * 2 ^ (Zpos n - 1) = 2 ^ Zpos n)
        by (rewrite <- Z.pow_succ_r by lia; f_equal; lia).
      nia.
    + nia.
  - replace (E - E) with 0 by lia. change (2 ^ 0) with 1. lia.
Qed.

(** The second step only drops low bits. *)
Lemma shr_floor (m e : Z) :
  0 <= m ->
  let r := shr_fexp prec emax m e loc_Exact in
  e <= snd r /\ 0 <= shr_m (fst r) /\ shr_m (fst r) * 2 ^ (snd r - e) <= m.
Proof.
  intros Hm. cbv zeta. unfold shr_fexp, shr.
  destruct (fexp prec emax (Zdigits2 m + e) - e) as [|n|n] eqn:En;
    cbn [fst snd shr_record_of_loc shr_m].
  - replace (e - e) with 0 by lia. change (2 ^ 0) with 1. lia.
  - rewrite iter_shr_1_m by (cbn [shr_record_of_loc shr_m]; lia).
    cbn [shr_record_of_loc shr_m].
    replace (e + Zpos n - e) with (Zpos n) by lia.
    rewrite Z.shiftr_div_pow2 by lia.
    assert (Hpow : 0 < 2 ^ Zpos n) by (apply Z.pow_pos_nonneg; lia).
    split; [lia|]. split; [apply Z.div_pos; lia|].
    rewrite Z.mul_comm. apply Z.mul_div_le. lia.
  - replace (e - e) with 0 by lia. change (2 ^ 0) with 1. lia.
Qed.

(** A finite result of [binary_round_aux] exceeds the exact value by half
    a unit of the rounding exponent at most. *)
Lemma binary_round_aux_upper (s : bool) (P E : Z) s' m2 e2 :
  0 <= P ->
  binary_round_aux prec emax s P E loc_Exact = S754_finite s' m2 e2 ->
  E <= e2 /\
  2 * Zpos m2 * 2 ^ (e2 - E) <=
  2 * P + 2 ^ (Z.max E (fexp prec emax (Zdigits2 P + E)) - E).
Proof.
  intros HP. unfold binary_round_aux.
  pose proof (round_step P E HP) as Hstep. cbv zeta in Hstep.
  destruct (shr_fexp prec emax P E loc_Exact) as [mrs' e'].
  cbn [fst snd] in Hstep. destruct Hstep as (He' & Hm1 & Hb).
  set (m1 := round_nearest_even _ _) in *.
  pose proof (shr_floor m1 e' Hm1) as Hfl. cbv zeta in Hfl.
  destruct (shr_fexp prec emax m1 e' loc_Exact) as [mrs'' e''].
  cbn [fst snd] in Hfl. destruct Hfl as (He'' & Hm2 & Hfl).
  destruct (shr_m mrs'') as [|p|p] eqn:Em; try discriminate.
  destruct (e'' <=? emax - prec); try discriminate.
  intros H. injection H as _ <- <-.
  assert (HE : E <= e') by lia.
  split; [lia|]. rewrite <- He'.
  replace (e'' - E) with ((e'' - e') + (e' - E)) by lia.
  rewrite Z.pow_add_r by lia.
  assert (0 < 2 ^ (e' - E)) by (apply Z.pow_pos_nonneg; lia).
  assert (0 < 2 ^ (e'' - e')) by (apply Z.pow_pos_nonneg; lia).
  nia.
Qed.
End Nearest.

(* ===================================================================== *)
(** ** A random index *)
(* ===================================================================== *)

Module RandomIndex.
Import FloatSpec FloatOrder Rounding FloatFacts Magnitude Nearest.
Local Open Scope Z_scope.

(** A number of [[0, 1)] is a zero or [m * 2^e] with [m < 2^-e]. *)
Lemma unit_interval (r : float) :
  (0 <=? r)%float = true -> (r <? 1)%float = true ->
  match Prim2SF r with
  | S754_zero _ => True
  | S754_finite false m e => e < 0 /\ Zpos m < 2 ^ (- e)
  | _ => False
  end.
Proof.
  intros H0 H1. destruct (leb_true_not_nan _ _ H0) as [_ Hn].
  pose proof (leb_ord 0 r eq_refl Hn) as Q0.
  pose proof (ltb_ord r 1 Hn eq_refl) as Q1.
  assert (H0' : (ord 0 <=? ord r) = true) by congruence.
  assert (H1' : (ord r <? ord 1) = true) by congruence.
  clear H0 H1 Q0 Q1. rename H0' into H0. rename H1' into H1.
  apply Z.leb_le in H0. apply Z.ltb_lt in H1.
  change (ord 0) with 0 in H0.
  replace (ord 1) with (2 ^ 1074) in H1 by (vm_compute; reflexivity).
  pose proof (Prim2SF_valid r) as V. pose proof (not_nan_of _ Hn) as N.
  unfold ord in *.
  destruct (Prim2SF r) as [s|s| |s m e]; cbn [scaled] in *; [exact I| | |].
  - destruct s; cbn [cond_Zopp] in *; [lia|].
    assert (2 ^ 1074 < 2 ^ 2100) by (apply Z.pow_lt_mono_r; lia). lia.
  - discriminate N.
  - cbn [valid_binary] in V. pose proof (finite_magnitude m e V) as [Hpos _].
    destruct (bounded_inv _ _ V) as (He & _).
    change emin with (-1074) in *.
    destruct s; cbn [cond_Zopp] in *; [lia|].
    assert (He0 : e < 0).
    { destruct (Z.lt_ge_cases e 0) as [|Hge]; [assumption|exfalso].
      assert (2 ^ 1074 <= 2 ^ (e - -1074)) by (apply Z.pow_le_mono_r; lia).
      nia. }
    split; [assumption|].
    replace (2 ^ 1074) with (2 ^ (- e) * 2 ^ (e - -1074)) in H1
      by (rewrite <- Z.pow_add_r by lia; f_equal; lia).
    assert (0 < 2 ^ (e - -1074)) by (apply Z.pow_pos_nonneg; lia).
    nia.
Qed.

(** Five times a number of [[0, 1)] is below five also after rounding. *)
Lemma times_five (r : float) :
  (0 <=? r)%float = true -> (r <? 1)%float = true ->
  match Prim2SF (r * 5)%float with
  | S754_zero _ => True
  | S754_finite false m2 e2 =>
      (0 <= e2 -> Zpos m2 * 2 ^ e2 < 5) /\
      (e2 < 0 -> Zpos m2 / 2 ^ (- e2) < 5)
  | _ => False
  end.
Proof.
  intros H0 H1. pose proof (unit_interval r H0 H1) as Hr.
  pose proof (Prim2SF_valid r) as V.
  rewrite mul_spec. unfold SF64mul.
  change (Prim2SF 5) with (S754_finite false 5629499534213120 (-50)).
  destruct (Prim2SF r) as [s|s| |[|] m e]; try contradiction; [exact I|].
  destruct Hr as [He0 Hm]. cbn [valid_binary] in V.
  destruct (bounded_inv _ _ V) as (He & Hd & _).
  change emin with (-1074) in *. unfold prec in Hd.
  assert (Hmag : SFmag_le (SFmul prec emax (S754_finite false m e)
                             (S754_finite false 5629499534213120 (-50))) 4).
  { apply (SFmul_mag _ _ 0 3).
    - exact V.
    - reflexivity.
    - cbn [SFmag_le].
      change (Zpos (digits2_pos m)) with (Zdigits2 (Zpos m)).
      pose proof (Zdigits2_le_of_lt (Zpos m) (- e)). lia.
    - cbn. lia.
    - unfold SpecFloat.emin, emax, prec. lia.
    - unfold emax. lia. }
  pose proof (binary_round_aux_signed (xorb false false)
                (Zpos (m * 5629499534213120)) (e + -50) loc_Exact) as Hs.
  cbn [SFmul] in *.
  destruct (binary_round_aux prec emax (xorb false false)
              (Zpos (m * 5629499534213120)) (e + -50) loc_Exact)
    as [s|s| |s m2 e2] eqn:Er; cbn [SFmag_le signed] in *;
    try contradiction; [exact I|].
  cbn [xorb] in Hs. subst s.
  destruct (binary_round_aux_upper _ _ _ _ _ _ (Pos2Z.is_nonneg _) Er)
    as [HE Hup].
  set (E := e + -50) in *. set (P := Zpos (m * 5629499534213120)) in *.
  assert (HP : P = Zpos m * 5629499534213120) by reflexivity.
  assert (Hk : Z.max E (fexp prec emax (Zdigits2 P + E)) - E <= 53).
  { pose proof (digits2_pos_mul m 5629499534213120) as Hdm.
    change (Zpos (digits2_pos 5629499534213120)) with 53 in Hdm.
    change (Zdigits2 P) with (Zpos (digits2_pos (m * 5629499534213120))).
    unfold fexp, SpecFloat.emin, prec, emax. subst E. lia. }
  assert (Hk0 : 0 <= Z.max E (fexp prec emax (Zdigits2 P + E)) - E) by lia.
  assert (Hpk : 2 ^ (Z.max E (fexp prec emax (Zdigits2 P + E)) - E) <= 2 ^ 53)
    by (apply Z.pow_le_mono_r; lia).
  assert (Hlim : Zpos m2 * 2 ^ (e2 - E) < 5 * 2 ^ (- E)).
  { replace (2 ^ (- E)) with (2 ^ 50 * 2 ^ (- e))
      by (rewrite <- Z.pow_add_r by lia; f_equal; subst E; lia).
    change (2 ^ 53) with 9007199254740992 in Hpk.
    change (2 ^ 50) with 1125899906842624.
    lia. }
  assert (HE0 : E < 0) by (subst E; lia).
  split; intros He2.
  - replace (2 ^ (e2 - E)) with (2 ^ e2 * 2 ^ (- E)) in Hlim
      by (rewrite <- Z.pow_add_r by lia; f_equal; lia).
    assert (0 < 2 ^ (- E)) by (apply Z.pow_pos_nonneg; lia). nia.
  - replace (2 ^ (- E)) with (2 ^ (- e2) * 2 ^ (e2 - E)) in Hlim
      by (rewrite <- Z.pow_add_r by lia; f_equal; lia).
    assert (0 < 2 ^ (e2 - E)) by (apply Z.pow_pos_nonneg; lia).
    apply Z.div_lt_upper_bound; [apply Z.pow_pos_nonneg; lia|]. nia.
Qed.

(** [array[Math.floor(Math.random() * 5)]] is an element of an array of
    five. *)
Lemma random_index {A} (l : list A) (r : float) :
  List.length l = 5%nat ->
  (0 <=? r)%float = true -> (r <? 1)%float = true ->
  exists c, Array_at l (Math_floor (r * 5)%float) = Some c /\ In c l.
Proof.
  intros Hl H0 H1. pose proof (times_five r H0 H1) as H5.
  assert (Hnth : forall k, (k < 5)%nat ->
                   exists c, nth_error l k = Some c /\ In c l).
  { intros k Hk. destruct (nth_error l k) as [c|] eqn:E.
    - exists c. split; [reflexivity|]. eapply nth_error_In, E.
    - apply nth_error_None in E. lia. }
  unfold Math_floor.
  destruct (Prim2SF (r * 5)%float) as [s|s| |[|] m2 e2] eqn:Ep;
    try contradiction.
  - unfold Array_at. rewrite Ep. apply Hnth. lia.
  - destruct H5 as [Hge Hlt]. destruct (Z.leb_spec 0 e2) as [He|He].
    + unfold Array_at. rewrite Ep.
      destruct (Z.leb_spec 0 e2) as [_|]; [|lia].
      apply Hnth. specialize (Hge He).
      assert (0 < 2 ^ e2) by (apply Z.pow_pos_nonneg; lia). nia.
    + specialize (Hlt He). cbn [cond_Zopp].
      rewrite Z.shiftr_div_pow2 by lia.
      assert (Hk0 : 0 <= Zpos m2 / 2 ^ (- e2))
        by (apply Z.div_pos; [lia|apply Z.pow_pos_nonneg; lia]).
      set (k := Zpos m2 / 2 ^ (- e2)) in *.
      destruct l as [|a0 [|a1 [|a2 [|a3 [|a4 [|]]]]]]; try discriminate.
      assert (Hk : k = 0 \/ k = 1 \/ k = 2 \/ k = 3 \/ k = 4) by lia.
      destruct Hk as [->|[->|[->|[->| ->]]]]; eexists;
        (split; [reflexivity|cbn; tauto]).
Qed.
End RandomIndex.

(* ===================================================================== *)
(** ** Further properties of the nearby query *)
(* ===================================================================== *)

Section NearbyMore.
Import FloatSpec FloatFacts.
Context {host : Host}.
Local Open Scope float_scope.

Lemma within_passes (center : LatLng) (radius : float) (allPoints : list Point)
    (x y : Point) :
  In x (filter (fun p => distanceFrom center p <=? radius) allPoints) ->
  In y (filter (fun p => distanceFrom center p <=? radius) allPoints) ->
  (0 <? SortCompare (fun a b => distanceFrom center a - distanceFrom center b) x y) =
  (ord (distanceFrom center y) <? ord (distanceFrom center x))%Z.
Proof.
  intros Hx Hy. pose proof (within_not_nan center radius allPoints) as Hnn.
  rewrite Forall_forall in Hnn.
  apply (difference_passes (distanceFrom center)); auto.
Qed.

Lemma filter_filter_le (center : LatLng) (r1 r2 : float) (l : list Point) :
  (r1 <=? r2) = true ->
  filter (fun p => distanceFrom center p <=? r1)
    (filter (fun p => distanceFrom center p <=? r2) l) =
  filter (fun p => distanceFrom center p <=? r1) l.
Proof.
  intros Hr. destruct (leb_true_not_nan _ _ Hr) as [N1 N2].
  induction l as [|a l IH]; [reflexivity|]. cbn [filter].
  destruct (distanceFrom center a <=? r1) eqn:E1.
  - assert (E2 : (distanceFrom center a <=? r2) = true).
    { destruct (leb_true_not_nan _ _ E1) as [Na _].
      rewrite leb_ord in * by assumption.
      apply Z.leb_le in E1, Hr. apply Z.leb_le. lia. }
    rewrite E2. cbn [filter]. now rewrite E1, IH.
  - destruct (distanceFrom center a <=? r2); cbn [filter]; now rewrite ?E1, IH.
Qed.

(** X1. Widening the radius only adds points at the far end: the result
    for the smaller radius is the result for the larger one restricted to
    the smaller radius, and it is an initial segment of it. *)
Theorem nearby_radius_monotone
    (allPoints : list Point) (center : LatLng) (r1 r2 : float) :
  (r1 <=? r2) = true ->
  exists out1 out2 rest,
    findNearbyPoints allPoints center r1 = Normal out1 /\
    findNearbyPoints allPoints center r2 = Normal out2 /\
    out1 = filter (fun p => distanceFrom center p <=? r1) out2 /\
    out2 = out1 ++ rest /\
    Forall (fun p => (r1 <? distanceFrom center p) = true) rest.
Proof.
  intros Hr. destruct (leb_true_not_nan _ _ Hr) as [N1 N2].
  unfold findNearbyPoints.
  set (cmp := fun a b : Point => distanceFrom center a - distanceFrom center b).
  set (l2 := filter (fun p => distanceFrom center p <=? r2) allPoints).
  set (key := fun p : Point => ord (distanceFrom center p)).
  assert (Hp : forall x y, In x l2 -> In y l2 ->
                 (0 <? SortCompare cmp x y) = (key y <? key x)%Z)
    by (intros x y; apply within_passes).
  assert (Hnn : forall p, In p (Array_sort cmp l2) ->
                          is_nan (distanceFrom center p) = false).
  { intros p Hin. apply (Permutation_in _ (Array_sort_perm cmp l2)) in Hin.
    apply filter_In in Hin. now destruct (leb_true_not_nan _ _ (proj2 Hin)). }
  assert (E1 : Array_sort cmp (filter (fun p => distanceFrom center p <=? r1) allPoints) =
               filter (fun p => distanceFrom center p <=? r1) (Array_sort cmp l2)).
  { rewrite <- (filter_filter_le center r1 r2 allPoints Hr). fold l2.
    symmetry. now apply (Array_sort_filter_commute cmp key). }
  exists (Array_sort cmp (filter (fun p => distanceFrom center p <=? r1) allPoints)),
         (Array_sort cmp l2),
         (filter (fun p => negb (key p <=? ord r1)%Z) (Array_sort cmp l2)).
  split; [reflexivity|]. split; [reflexivity|]. split; [exact E1|].
  assert (Hext : filter (fun p => distanceFrom center p <=? r1) (Array_sort cmp l2) =
                 filter (fun p => (key p <=? ord r1)%Z) (Array_sort cmp l2)).
  { apply filter_ext_in. intros p Hin. unfold key.
    now rewrite leb_ord by auto. }
  split.
  - rewrite E1, Hext. apply sorted_filter_prefix.
    now apply (Array_sort_sorted cmp key).
  - apply Forall_forall. intros p Hin. apply filter_In in Hin.
    destruct Hin as [Hin Hk]. rewrite ltb_ord by auto.
    apply negb_true_iff, Z.leb_gt in Hk. apply Z.ltb_lt. exact Hk.
Qed.

(** X2. The query is idempotent: asked again on its own result, with the
    same centre and radius, it returns that result unchanged. *)
Theorem nearby_idempotent
    (allPoints : list Point) (center : LatLng) (radius : float) :
  exists out,
    findNearbyPoints allPoints center radius = Normal out /\
    findNearbyPoints out center radius = Normal out.
Proof.
  unfold findNearbyPoints.
  set (cmp := fun a b : Point => distanceFrom center a - distanceFrom center b).
  set (l := filter (fun p => distanceFrom center p <=? radius) allPoints).
  set (key := fun p : Point => ord (distanceFrom center p)).
  exists (Array_sort cmp l). split; [reflexivity|]. f_equal.
  assert (Hp : forall x y, In x l -> In y l ->
                 (0 <? SortCompare cmp x y) = (key y <? key x)%Z)
    by (intros x y; apply within_passes).
  assert (Hin : forall p, In p (Array_sort cmp l) -> In p l)
    by (intros p; apply Permutation_in, Array_sort_perm).
  assert (Hall : filter (fun p => distanceFrom center p <=? radius) (Array_sort cmp l) =
                 Array_sort cmp l).
  { apply forallb_filter_id. apply forallb_forall. intros p Hp'.
    apply Hin, filter_In in Hp'. tauto. }
  rewrite Hall. apply (Array_sort_sorted_id cmp key).
  - intros x y Hx Hy. apply Hp; auto.
  - now apply Array_sort_sorted.
Qed.
End NearbyMore.

(* ===================================================================== *)
(** ** The sample of nearby points *)
(* ===================================================================== *)

Section SampleNearby.
Import FloatSpec FloatFacts Rounded.
Context {host : Host}.
Local Open Scope float_scope.

Local Abbreviation fromSample := (distanceFrom sampleCenter).
Local Abbreviation withinSample :=
  (filter (fun p => fromSample p <=? sampleRadius)).
Local Abbreviation annotate :=
  (fun point => {| spread := point; distance := Math_round (fromSample point) |}).

Lemma annotated_number (allPoints : list Point) (q : NearbyPoint) :
  In q (map annotate (withinSample allPoints)) ->
  is_nan (distance q) = false /\
  distance q = Math_round (fromSample (spread q)) /\
  In (spread q) allPoints /\
  (fromSample (spread q) <=? sampleRadius) = true.
Proof.
  intros H. apply in_map_iff in H. destruct H as (p & <- & Hp).
  apply filter_In in Hp. destruct Hp as [Hin Hle]. cbn [spread distance].
  destruct (leb_true_not_nan _ _ Hle) as [Hn _].
  destruct (Math_round_spec _ Hn) as [Hr _]. auto.
Qed.

(** X3. The demo list holds exactly the loaded points within 3000 km of
    London, each once, with its distance rounded to a whole number of
    kilometres that is at most 3000; it is in non-decreasing order of the
    rounded distance, and points with the same rounded distance keep the
    order they were loaded in. *)
Theorem sample_within_rounded_sorted (allPoints : list Point) :
  Permutation (map spread (showSampleNearbyPoints allPoints))
    (filter (fun p => distanceFrom sampleCenter p <=? sampleRadius) allPoints) /\
  Forall (fun q =>
            distance q = Math_round (distanceFrom sampleCenter (spread q)) /\
            (exists n : Z, ord (distance q) = n * 2 ^ 1074 /\ n <= 3000)%Z /\
            (distance q <=? sampleRadius) = true)
    (showSampleNearbyPoints allPoints) /\
  StronglySorted (fun a b => (distance a <=? distance b) = true)
    (showSampleNearbyPoints allPoints) /\
  (forall d,
      map spread (filter (fun q => distance q =? d)
                    (showSampleNearbyPoints allPoints)) =
      filter (fun p => Math_round (distanceFrom sampleCenter p) =? d)
        (filter (fun p => distanceFrom sampleCenter p <=? sampleRadius)
           allPoints)).
Proof.
  unfold showSampleNearbyPoints.
  set (cmp := fun a b : NearbyPoint => distance a - distance b).
  set (l := map annotate (withinSample allPoints)).
  assert (Hl : forall q, In q l -> is_nan (distance q) = false)
    by (intros q Hq; now destruct (annotated_number allPoints q Hq)).
  assert (Hperm := Array_sort_perm cmp l).
  assert (Hp : forall x y, In x l -> In y l ->
                 (0 <? SortCompare cmp x y) =
                 (ord (distance y) <? ord (distance x))%Z)
    by (intros x y Hx Hy; apply (difference_passes distance); auto).
  assert (Hspread : map spread l = withinSample allPoints).
  { subst l. rewrite map_map. cbn [spread]. apply map_id. }
  split; [|split; [|split]].
  - rewrite <- Hspread. now apply Permutation_map.
  - apply Forall_forall. intros q Hq.
    apply (Permutation_in _ Hperm) in Hq.
    destruct (annotated_number allPoints q Hq) as (Hn & Hd & _ & Hle).
    destruct (leb_true_not_nan _ _ Hle) as [Hdn _].
    destruct (Math_round_spec _ Hdn) as [_ Ho]. rewrite <- Hd in Ho.
    assert (Hb : (nearest (ord (fromSample (spread q))) <= 3000)%Z).
    { rewrite leb_ord in Hle by auto. apply Z.leb_le in Hle.
      apply nearest_mono in Hle.
      replace (ord sampleRadius) with (3000 * 2 ^ 1074)%Z in Hle
        by (vm_compute; reflexivity).
      now rewrite nearest_whole in Hle. }
    split; [exact Hd|]. split; [eauto|].
    rewrite leb_ord by auto. apply Z.leb_le. rewrite Ho.
    replace (ord sampleRadius) with (3000 * 2 ^ 1074)%Z
      by (vm_compute; reflexivity).
    apply Z.mul_le_mono_nonneg_r; [lia|exact Hb].
  - apply sorted_by_leb.
    + apply Forall_forall. intros q Hq. apply Hl.
      now apply (Permutation_in _ Hperm).
    + now apply (Array_sort_sorted cmp (fun q => ord (distance q))).
  - intros d.
    rewrite (Array_sort_filter cmp (fun q => distance q =? d) l).
    + subst l. clear. induction (withinSample allPoints) as [|a l IH];
        [reflexivity|].
      cbn [map filter distance].
      destruct (Math_round (fromSample a) =? d); cbn [map spread];
        now rewrite IH.
    + intros a b Ha Hb Hpass Da Db.
      rewrite (Hp a b Ha Hb) in Hpass.
      destruct (eqb_true_not_nan _ _ Da) as [_ Nd].
      rewrite eqb_ord in Da, Db by auto.
      apply Z.eqb_eq in Da, Db. apply Z.ltb_lt in Hpass. lia.
Qed.
End SampleNearby.

(* ===================================================================== *)
(** ** Further properties of the clusterer *)
(* ===================================================================== *)

Lemma firstAppearances_length (l : list string) :
  (List.length (firstAppearances l) <= List.length l)%nat.
Proof.
  induction l as [|a l IH]; simpl; [lia|].
  pose proof (filter_length_le (fun y => negb (String.eqb y a))
                (firstAppearances l)). lia.
Qed.

Lemma firstAppearances_NoDup_id (l : list string) :
  NoDup l -> firstAppearances l = l.
Proof.
  induction 1 as [|a l Ha Hnd IH]; simpl; [reflexivity|].
  rewrite IH. f_equal. apply forallb_filter_id, forallb_forall.
  intros y Hy. apply negb_true_iff, String.eqb_neq. congruence.
Qed.

Lemma filter_filter {A} (f g : A -> bool) (l : list A) :
  filter f (filter g l) = filter (fun x => g x && f x) l.
Proof.
  induction l as [|a l IH]; [reflexivity|]. cbn [filter].
  destruct (g a); cbn [filter andb]; now rewrite IH.
Qed.

(** Keys met after a first array appear behind its keys, the new ones
    only. *)
Lemma firstAppearances_app (a b : list string) :
  firstAppearances (a ++ b) =
  firstAppearances a ++
  filter (fun y => negb (existsb (String.eqb y) a)) (firstAppearances b).
Proof.
  induction a as [|x a IH]; cbn [app firstAppearances existsb].
  - symmetry. apply forallb_filter_id, forallb_forall. reflexivity.
  - rewrite IH, filter_app. cbn [app]. f_equal. f_equal.
    rewrite filter_filter. apply filter_ext. intros y.
    now rewrite negb_orb, andb_comm.
Qed.

Section ClustererMore.
Context {host : Host}.

Local Abbreviation hasFirst s c :=
  (exists p0 rest, points c = p0 :: rest /\
                   gridX c = pointGridX s p0 /\ gridY c = pointGridY s p0).

(** X4. No cluster is empty; the cell coordinates a cluster stores are
    those computed from its first member; there are at most as many
    clusters as points, and none only for no points. *)
Theorem clusters_nonempty_counted (P : list Point) (s : float) :
  exists cs,
    createGridClusters P s = Normal cs /\
    Forall (fun c => exists p0 rest,
                points c = p0 :: rest /\
                gridX c = Math_floor (lat p0 / s) /\
                gridY c = Math_floor (lng p0 / s)) cs /\
    (List.length cs <= List.length P)%nat /\
    (cs = [] <-> P = []).
Proof.
  destruct (createGridClusters_spec P s) as (cs & Hcs & Hkeys & Hall).
  exists cs. split; [assumption|]. split; [|split].
  - eapply Forall_impl; [|exact Hall]. intros c [_ H]. exact H.
  - rewrite <- (length_map clusterKey cs), Hkeys.
    rewrite <- (length_map (pointGridKey s) P). apply firstAppearances_length.
  - split; intros E.
    + subst cs. destruct P as [|p P]; [reflexivity|]. discriminate.
    + subst P. destruct cs; [reflexivity|discriminate].
Qed.

(** X5. Points that arrive later leave the earlier clusters in place:
    clustering [P ++ Q] gives the clusters of [P], at the same positions
    and with the same stored cell, each extended at its end by the points
    of [Q] of its cell, followed by clusters for the cells new in [Q]. *)
Theorem clusters_grow_at_the_end (P Q : list Point) (s : float) :
  exists csP csPQ fresh,
    createGridClusters P s = Normal csP /\
    createGridClusters (P ++ Q) s = Normal csPQ /\
    map clusterKey csPQ = map clusterKey csP ++ fresh /\
    (forall k, In k fresh -> ~ In k (map clusterKey csP)) /\
    (forall i c, nth_error csP i = Some c ->
       exists c', nth_error csPQ i = Some c' /\
                  gridX c' = gridX c /\ gridY c' = gridY c /\
                  points c' =
                  points c ++
                  filter (fun p => String.eqb (pointGridKey s p) (clusterKey c)) Q).
Proof.
  destruct (createGridClusters_spec P s) as (csP & HP & KP & AP).
  destruct (createGridClusters_spec (P ++ Q) s) as (csPQ & HPQ & KPQ & APQ).
  rewrite map_app, firstAppearances_app, <- KP in KPQ.
  eexists csP, csPQ, _. split; [assumption|]. split; [assumption|].
  split; [exact KPQ|]. split.
  - intros k Hk Hin. apply filter_In in Hk. destruct Hk as [_ Hk].
    apply negb_true_iff in Hk.
    assert (Hex : existsb (String.eqb k) (map (pointGridKey s) P) = true).
    { apply existsb_exists. exists k. split; [|apply String.eqb_refl].
      apply firstAppearances_In. rewrite <- KP. exact Hin. }
    congruence.
  - intros i c Hi.
    assert (Hlt : (i < List.length csP)%nat) by (apply nth_error_Some; congruence).
    assert (Hk : nth_error (map clusterKey csPQ) i = Some (clusterKey c)).
    { rewrite KPQ, nth_error_app1 by now rewrite length_map.
      now rewrite nth_error_map, Hi. }
    rewrite nth_error_map in Hk.
    destruct (nth_error csPQ i) as [c'|] eqn:Hi'; [|discriminate].
    injection Hk as Hk. exists c'. split; [reflexivity|].
    rewrite Forall_forall in AP, APQ.
    destruct (AP c (nth_error_In _ _ Hi)) as (Hpts & p0 & rest & Hp0 & Hx & Hy).
    destruct (APQ c' (nth_error_In _ _ Hi')) as (Hpts' & p0' & rest' & Hp0' & Hx' & Hy').
    assert (E : points c' = points c ++ membersOf s (clusterKey c) Q).
    { rewrite Hpts', Hk, Hpts. unfold membersOf. apply filter_app. }
    rewrite Hp0, Hp0' in E. cbn [app] in E. injection E as E0 _. subst p0'.
    split; [congruence|]. split; [congruence|].
    rewrite Hpts', Hk, Hpts. unfold membersOf. apply filter_app.
Qed.

(** Clusters are determined by their keys once the members of each key and
    the stored cell of its first member are. *)
Lemma clusters_determined (s : float) (F : string -> list Point)
    (cs : list Cluster) : forall cs',
  map clusterKey cs = map clusterKey cs' ->
  Forall (fun c => points c = F (clusterKey c) /\ hasFirst s c) cs ->
  Forall (fun c => points c = F (clusterKey c) /\ hasFirst s c) cs' ->
  cs = cs'.
Proof.
  induction cs as [|c cs IH]; intros [|c' cs'] Hk H H'; try discriminate;
    [reflexivity|].
  cbn [map] in Hk. injection Hk as Hk Hks.
  inversion H as [|? ? [Hp (p0 & rest & E0 & Hx & Hy)] Hr]; subst.
  inversion H' as [|? ? [Hp' (p0' & rest' & E0' & Hx' & Hy')] Hr']; subst.
  f_equal; [|now apply IH].
  assert (E : points c = points c') by congruence.
  rewrite E0, E0' in E. injection E as -> ->.
  destruct c as [pc xc yc], c' as [pc' xc' yc']. cbn [points gridX gridY] in *.
  congruence.
Qed.

(** The members of a key among the clusters laid end to end are the
    members of its cluster. *)
Lemma membersOf_concat (s : float) (cs : list Cluster) :
  NoDup (map clusterKey cs) ->
  Forall (fun c => forall p, In p (points c) ->
                             pointGridKey s p = clusterKey c) cs ->
  Forall (fun c => membersOf s (clusterKey c) (List.concat (map points cs)) =
                   points c) cs.
Proof.
  induction cs as [|c cs IH]; intros Hnd Hall; [constructor|].
  cbn [map] in Hnd. inversion Hnd as [|? ? Hc Hnd']; subst.
  inversion Hall as [|? ? Hm Hall']; subst.
  assert (Hown : membersOf s (clusterKey c) (points c) = points c).
  { apply forallb_filter_id, forallb_forall. intros p Hp.
    apply String.eqb_eq. auto. }
  assert (Hrest : membersOf s (clusterKey c) (List.concat (map points cs)) = []).
  { apply membersOf_absent. intros Hin. apply in_map_iff in Hin.
    destruct Hin as (p & Hp & Hin). apply in_concat in Hin.
    destruct Hin as (l & Hl & Hpl). apply in_map_iff in Hl.
    destruct Hl as (c0 & <- & Hc0). rewrite Forall_forall in Hall'.
    apply Hc. apply in_map_iff. exists c0. split; [|assumption].
    rewrite <- Hp. symmetry. now apply Hall'. }
  constructor.
  - cbn [map List.concat]. unfold membersOf in *.
    rewrite filter_app, Hown, Hrest. apply app_nil_r.
  - specialize (IH Hnd' Hall'). rewrite Forall_forall in *.
    intros c0 Hc0. cbn [map List.concat]. unfold membersOf in *.
    rewrite filter_app, (IH c0 Hc0).
    fold (membersOf s (clusterKey c0) (points c)).
    rewrite membersOf_absent; [reflexivity|].
    intros Hin. apply in_map_iff in Hin. destruct Hin as (p & Hp & Hin).
    rewrite (Hm p Hin) in Hp. apply Hc. rewrite Hp. now apply in_map.
Qed.

(** The keys of the clusters laid end to end appear first in the order of
    the clusters. *)
Lemma firstAppearances_concat (s : float) (cs : list Cluster) :
  NoDup (map clusterKey cs) ->
  Forall (fun c => points c <> [] /\
                   forall p, In p (points c) ->
                             pointGridKey s p = clusterKey c) cs ->
  firstAppearances (map (pointGridKey s) (List.concat (map points cs))) =
  map clusterKey cs.
Proof.
  induction cs as [|c cs IH]; intros Hnd Hall; [reflexivity|].
  cbn [map] in Hnd. inversion Hnd as [|? ? Hc Hnd']; subst.
  inversion Hall as [|? ? [Hne Hm] Hall']; subst.
  cbn [map List.concat]. rewrite map_app, firstAppearances_app, (IH Hnd' Hall').
  assert (Hblock : forall l, l <> [] ->
             (forall p, In p l -> pointGridKey s p = clusterKey c) ->
             firstAppearances (map (pointGridKey s) l) = [clusterKey c]).
  { clear. induction l as [|p l IHl]; intros Hne Hm; [congruence|].
    cbn [map firstAppearances]. rewrite (Hm p) by now left. f_equal.
    destruct l as [|q l]; [reflexivity|].
    rewrite IHl; [|discriminate|intros p' Hp'; apply Hm; now right].
    cbn [filter]. now rewrite String.eqb_refl. }
  rewrite (Hblock _ Hne Hm). cbn [app]. f_equal.
  apply forallb_filter_id, forallb_forall. intros k Hk.
  apply negb_true_iff. destruct (existsb _ _) eqn:Ex; [|reflexivity].
  apply existsb_exists in Ex. destruct Ex as (k' & Hk' & Ek).
  apply String.eqb_eq in Ek. subst k'. apply in_map_iff in Hk'.
  destruct Hk' as (p & Hp & Hin). rewrite (Hm p Hin) in Hp. subst k.
  contradiction.
Qed.

(** X6. Clustering is idempotent: the points of the clusters, laid end to
    end and clustered again with the same cell size, give the same
    clusters. *)
Theorem reclustering_is_identity (P : list Point) (s : float) :
  exists cs,
    createGridClusters P s = Normal cs /\
    createGridClusters (List.concat (map points cs)) s = Normal cs.
Proof.
  destruct (createGridClusters_spec P s) as (cs & Hcs & Hkeys & Hall).
  exists cs. split; [assumption|].
  destruct (createGridClusters_spec (List.concat (map points cs)) s)
    as (cs' & Hcs' & Hkeys' & Hall').
  rewrite Hcs'. f_equal.
  assert (Hnd : NoDup (map clusterKey cs))
    by (rewrite Hkeys; apply firstAppearances_NoDup).
  assert (Hmem : Forall (fun c => forall p, In p (points c) ->
                                   pointGridKey s p = clusterKey c) cs).
  { eapply Forall_impl; [|exact Hall]. intros c [Hp _] p Hin.
    now destruct (cluster_member_key P s c p Hp Hin). }
  assert (Hne : Forall (fun c => points c <> [] /\
                          forall p, In p (points c) ->
                                    pointGridKey s p = clusterKey c) cs).
  { rewrite Forall_forall in *. intros c Hc. split; [|now apply Hmem].
    destruct (Hall c Hc) as (_ & p0 & rest & E & _). now rewrite E. }
  rewrite (firstAppearances_concat s cs Hnd Hne) in Hkeys'.
  apply (clusters_determined s
           (fun k => membersOf s k (List.concat (map points cs)))).
  - exact Hkeys'.
  - exact Hall'.
  - pose proof (membersOf_concat s cs Hnd Hmem) as Hmc.
    rewrite Forall_forall in *. intros c Hc.
    split; [symmetry; now apply Hmc|]. now destruct (Hall c Hc).
Qed.
End ClustererMore.

Section ClustererOrder.
Context {host : Host}.

Lemma filter_Permutation {A} (f : A -> bool) (l l' : list A) :
  Permutation l l' -> Permutation (filter f l) (filter f l').
Proof.
  induction 1 as [|x l l' _ IH|x y l|l l' l'' _ IH1 _ IH2]; cbn [filter].
  - constructor.
  - destruct (f x); [now constructor|assumption].
  - destruct (f x), (f y); try reflexivity. apply perm_swap.
  - now transitivity (filter f l').
Qed.

(** X7. The order of the input decides only the order of the output: a
    reordered input gives as many clusters, for the same cells, and the
    cluster of each cell has the same members, in another order at most. *)
Theorem clusters_up_to_order (P P' : list Point) (s : float) :
  Permutation P P' ->
  exists cs cs',
    createGridClusters P s = Normal cs /\
    createGridClusters P' s = Normal cs' /\
    Permutation (map clusterKey cs) (map clusterKey cs') /\
    List.length cs = List.length cs' /\
    (forall c c', In c cs -> In c' cs' -> clusterKey c = clusterKey c' ->
                  Permutation (points c) (points c')).
Proof.
  intros Hperm.
  destruct (createGridClusters_spec P s) as (cs & Hcs & Hkeys & Hall).
  destruct (createGridClusters_spec P' s) as (cs' & Hcs' & Hkeys' & Hall').
  exists cs, cs'. split; [assumption|]. split; [assumption|].
  assert (Hk : Permutation (map clusterKey cs) (map clusterKey cs')).
  { rewrite Hkeys, Hkeys'.
    apply NoDup_Permutation; try apply firstAppearances_NoDup.
    intros k. rewrite !firstAppearances_In.
    split; apply Permutation_in; [|symmetry]; now apply Permutation_map. }
  split; [exact Hk|]. split.
  - apply Permutation_length in Hk. now rewrite !length_map in Hk.
  - intros c c' Hc Hc' E. rewrite Forall_forall in Hall, Hall'.
    destruct (Hall c Hc) as [-> _]. destruct (Hall' c' Hc') as [-> _].
    rewrite E. unfold membersOf. now apply filter_Permutation.
Qed.
End ClustererOrder.

(* ===================================================================== *)
(** ** The markers *)
(* ===================================================================== *)

Lemma fold_left_snoc {A B} (f : A -> B) (l : list A) (init : list B) :
  fold_left (fun acc x => acc ++ [f x]) l init = init ++ map f l.
Proof.
  revert init. induction l as [|a l IH]; intros init; cbn [fold_left map].
  - now rewrite app_nil_r.
  - rewrite IH, <- app_assoc. reflexivity.
Qed.

Section Markers.
Context {host : Host}.
Local Open Scope float_scope.

Lemma represented_clusterMarker (c : Cluster) :
  represented (clusterMarker c) = points c.
Proof.
  unfold clusterMarker. destruct (points c) as [|p [|q l]] eqn:E;
    cbn [represented click pointMarker]; congruence.
Qed.

Lemma represented_pointMarkers (l : list Point) :
  List.concat (map represented (map pointMarker l)) = l.
Proof.
  induction l as [|p l IH]; [reflexivity|].
  cbn [map List.concat represented click pointMarker app]. now rewrite IH.
Qed.

Lemma clusters_cover (P : list Point) (s : float) (cs : list Cluster) :
  map clusterKey cs = firstAppearances (map (pointGridKey s) P) ->
  Forall (fun c => points c = membersOf s (clusterKey c) P) cs ->
  Permutation (List.concat (map points cs)) P.
Proof.
  intros Hkeys Hall.
  assert (E : map points cs = map (fun k => membersOf s k P) (map clusterKey cs)).
  { rewrite map_map. apply map_ext_in. intros c Hc.
    rewrite Forall_forall in Hall. now apply Hall. }
  rewrite E, Hkeys. apply membersOf_partition.
  - apply firstAppearances_NoDup.
  - intros p Hp. apply firstAppearances_In. now apply in_map.
Qed.

Lemma loadPointsWithClustering_eq (pts : list Point) (layer : list Marker)
    (fitted : option (list (float * float))) :
  exists cs,
    createGridClusters pts 0.5 = Normal cs /\
    map clusterKey cs = firstAppearances (map (pointGridKey 0.5) pts) /\
    Forall (fun c => points c = membersOf 0.5 (clusterKey c) pts /\
                     points c <> []) cs /\
    loadPointsWithClustering pts layer fitted =
    Normal (layer ++ map clusterMarker cs,
            if (0 <? List.length cs)%nat
            then Some (map (fun c => (centerLat c, centerLng c)) cs)
            else fitted).
Proof.
  destruct (createGridClusters_spec pts 0.5) as (cs & Hcs & Hkeys & Hall).
  exists cs. split; [assumption|]. split; [assumption|]. split.
  - eapply Forall_impl; [|exact Hall].
    intros c (Hp & p0 & rest & E & _). split; [assumption|]. now rewrite E.
  - unfold loadPointsWithClustering. rewrite Hcs. cbn [bind].
    now rewrite fold_left_snoc.
Qed.

Lemma markers_cover (pts : list Point) (cs : list Cluster) :
  map clusterKey cs = firstAppearances (map (pointGridKey 0.5) pts) ->
  Forall (fun c => points c = membersOf 0.5 (clusterKey c) pts /\
                   points c <> []) cs ->
  Permutation (List.concat (map represented (map clusterMarker cs))) pts.
Proof.
  intros Hkeys Hall. rewrite map_map.
  rewrite (map_ext _ points) by apply represented_clusterMarker.
  apply (clusters_cover pts 0.5); [assumption|].
  eapply Forall_impl; [|exact Hall]. now intros c [H _].
Qed.

Lemma clusterMarker_of (c : Cluster) :
  points c <> [] ->
  represented (clusterMarker c) = points c /\
  match points c with
  | [p] =>
      clusterMarker c =
      {| latlng := (lat p, lng p); icon := None;
         popup := pointPopup p; click := handleMarkerClick p |}
  | _ =>
      (2 <= List.length (points c))%nat /\
      clusterMarker c =
      {| latlng := (centerLat c, centerLng c); icon := Some (clusterIcon c);
         popup := createClusterPopup (points c);
         click := handleClusterClick c |}
  end.
Proof.
  intros Hne. split; [apply represented_clusterMarker|].
  unfold clusterMarker.
  destruct (points c) as [|p [|q l]]; [congruence|reflexivity|].
  split; [simpl; lia|reflexivity].
Qed.

Lemma Forall2_map_of {A B} (P : A -> B -> Prop) (f : A -> B) (l : list A) :
  Forall (fun a => P a (f a)) l -> Forall2 P l (map f l).
Proof. induction 1; cbn [map]; constructor; assumption. Qed.

(** X8. The clustering loader never throws and adds, behind the markers
    the layer holds, one marker per cluster of [createGridClusters] with
    0.5 degree cells, in the order of the clusters.  The marker of a
    cluster of one point is the plain marker of that point: at its
    position, with its popup and its click handler.  The marker of any
    other cluster, of two points or more, sits at the mean of the members'
    coordinates, carries the icon with their number and the cluster popup,
    and hands the cluster to [handleClusterClick].  So every point is
    under exactly one of the added markers, and there are at most as many
    markers as points.  The view is fitted to the centres of the clusters,
    one position per marker; for no points nothing is added and the view
    is left alone. *)
Theorem cluster_markers_cover_points (pts : list Point) (layer : list Marker)
    (fitted : option (list (float * float))) :
  exists cs added fitted',
    createGridClusters pts 0.5 = Normal cs /\
    loadPointsWithClustering pts layer fitted = Normal (layer ++ added, fitted') /\
    Forall2 (fun c m =>
               represented m = points c /\
               match points c with
               | [p] =>
                   m = {| latlng := (lat p, lng p); icon := None;
                          popup := pointPopup p;
                          click := handleMarkerClick p |}
               | _ =>
                   (2 <= List.length (points c))%nat /\
                   m = {| latlng := (centerLat c, centerLng c);
                          icon := Some (clusterIcon c);
                          popup := createClusterPopup (points c);
                          click := handleClusterClick c |}
               end) cs added /\
    (List.length added <= List.length pts)%nat /\
    Permutation (List.concat (map represented added)) pts /\
    Forall (fun m =>
              match icon m with
              | None => exists p, represented m = [p] /\
                                  latlng m = (lat p, lng p) /\
                                  popup m = pointPopup p
              | Some _ => (2 <= List.length (represented m))%nat /\
                          popup m = createClusterPopup (represented m)
              end) added /\
    (pts = [] -> added = [] /\ fitted' = fitted) /\
    (pts <> [] ->
       fitted' = Some (map (fun c => (centerLat c, centerLng c)) cs) /\
       exists positions,
         fitted' = Some positions /\
         List.length positions = List.length added).
Proof.
  destruct (loadPointsWithClustering_eq pts layer fitted)
    as (cs & Hcs & Hkeys & Hall & Heq).
  exists cs. eexists _, _. split; [exact Hcs|]. split; [exact Heq|].
  assert (Hlen : (List.length cs <= List.length pts)%nat).
  { rewrite <- (length_map clusterKey cs), Hkeys.
    rewrite <- (length_map (pointGridKey 0.5) pts).
    apply firstAppearances_length. }
  split; [|split; [now rewrite length_map|split; [|split; [|split]]]].
  - apply Forall2_map_of. eapply Forall_impl; [|exact Hall].
    intros c [_ Hne]. now apply clusterMarker_of.
  - now apply markers_cover.
  - apply Forall_forall. intros m Hm. apply in_map_iff in Hm.
    destruct Hm as (c & <- & Hc). rewrite Forall_forall in Hall.
    destruct (Hall c Hc) as [_ Hne]. unfold clusterMarker.
    destruct (points c) as [|p [|q l]] eqn:E; [congruence| |].
    + cbn [icon pointMarker]. exists p. auto.
    + cbn [icon represented click popup]. rewrite E. split; [simpl; lia|].
      reflexivity.
  - intros ->. destruct cs; [auto|discriminate].
  - intros Hne. destruct cs as [|c cs].
    + destruct pts; [congruence|discriminate].
    + split; [reflexivity|].
      eexists. split; [reflexivity|]. now rewrite !length_map.
Qed.

Lemma lone_markers (pts : list Point) (s : float) (cs : list Cluster) :
  forall P0,
  map clusterKey cs = map (pointGridKey s) P0 ->
  Forall (fun c => points c = membersOf s (clusterKey c) pts) cs ->
  Forall (fun p => membersOf s (pointGridKey s p) pts = [p]) P0 ->
  map clusterMarker cs = map pointMarker P0.
Proof.
  induction cs as [|c cs IH]; intros [|p P0] Hk Hc Hp; try discriminate;
    [reflexivity|].
  cbn [map] in *. injection Hk as Hk Hks.
  inversion Hc as [|? ? Hc1 Hc2]; subst. inversion Hp as [|? ? Hp1 Hp2]; subst.
  f_equal; [|now apply IH].
  unfold clusterMarker. now rewrite Hc1, Hk, Hp1.
Qed.

Lemma lone_members (s : float) (pts : list Point) :
  NoDup (map (pointGridKey s) pts) ->
  Forall (fun p => membersOf s (pointGridKey s p) pts = [p]) pts.
Proof.
  induction pts as [|a l IH]; intros Hnd; [constructor|].
  cbn [map] in Hnd. inversion Hnd as [|? ? Ha Hnd']; subst. constructor.
  - unfold membersOf. cbn [filter]. rewrite String.eqb_refl. f_equal.
    now apply membersOf_absent.
  - specialize (IH Hnd'). rewrite Forall_forall in *. intros p Hp.
    unfold membersOf. cbn [filter].
    destruct (String.eqb_spec (pointGridKey s a) (pointGridKey s p)) as [E|_].
    + exfalso. apply Ha. rewrite E. now apply in_map.
    + now apply IH.
Qed.

(** X9. When no two points share a cell, the clustering loader adds the
    very markers the standard loader would: one plain marker per point, in
    the order of the points. *)
Theorem lone_points_plain_markers (pts : list Point) (layer : list Marker)
    (fitted : option (list (float * float))) :
  NoDup (map (pointGridKey 0.5) pts) ->
  exists fitted',
    loadPointsWithClustering pts layer fitted =
    Normal (fold_left (fun layer point => layer ++ [pointMarker point])
              pts layer,
            fitted').
Proof.
  intros Hnd.
  destruct (loadPointsWithClustering_eq pts layer fitted)
    as (cs & Hcs & Hkeys & Hall & Heq).
  eexists. rewrite Heq, fold_left_snoc. f_equal. f_equal. f_equal.
  apply (lone_markers pts 0.5).
  - now rewrite Hkeys, firstAppearances_NoDup_id.
  - eapply Forall_impl; [|exact Hall]. now intros c [H _].
  - now apply lone_members.
Qed.

(** One load keeps the markers and the loaded points in step, whatever it
    fetches and also when the fetch fails. *)
Lemma loadMapPoints_consistent (Math_random : nat -> float) (app : App)
    (tm : bool) (ts : nat) (tt : string) :
  consistent app -> consistent (loadMapPoints Math_random app tm ts tt).
Proof.
  intros Hc. unfold loadMapPoints.
  destruct (fetchMapPoints Math_random tm ts tt) as [pts|e]; [|assumption].
  unfold consistent in Hc.
  destruct (isLeafletAvailable app) eqn:L, (markersLayer app) as [old|] eqn:M;
    unfold consistent; cbn [markersLayer isLeafletAvailable allPoints];
    rewrite ?M; auto.
  - destruct (1000 <? List.length pts)%nat.
    + destruct (loadPointsWithClustering_eq pts [] (view app))
        as (cs & Hcs & Hkeys & Hall & Heq).
      rewrite Heq. cbn [markersLayer isLeafletAvailable allPoints List.app].
      split; [reflexivity|]. now apply (markers_cover pts cs).
    + cbn [markersLayer isLeafletAvailable allPoints].
      rewrite fold_left_snoc. cbn [List.app]. split; [reflexivity|].
      now rewrite represented_pointMarkers.
  - destruct Hc as [Hc _]. discriminate.
Qed.

(** X10. In every state the page can reach by loading, the markers on the
    map stand for exactly the loaded points, each point under one marker:
    this holds at the start and after any sequence of loads, of any mode,
    size and type, with or without Leaflet. *)
Theorem markers_always_match_points (leafletDefined : bool)
    (requests : list LoadRequest) :
  consistent (afterLoads (initialApp leafletDefined) requests).
Proof.
  unfold afterLoads.
  assert (H0 : consistent (initialApp leafletDefined)).
  { destruct leafletDefined; unfold consistent; cbn; auto. }
  revert H0. generalize (initialApp leafletDefined).
  induction requests as [|r rs IH]; intros app Happ; [assumption|].
  cbn [fold_left]. apply IH. now apply loadMapPoints_consistent.
Qed.

(** X11. What a load that fetches [pts] shows with Leaflet: the points
    become the loaded points and the old markers are gone; up to 1000
    points get one plain marker each, in their order; beyond that there is
    one marker per occupied cell; the view is fitted to one position per
    marker, or left alone when there is no point. *)
Theorem load_shows_fetched_points (Math_random : nat -> float) (app : App)
    (tm : bool) (ts : nat) (tt : string) (pts : list Point)
    (old : list Marker) :
  fetchMapPoints Math_random tm ts tt = Normal pts ->
  isLeafletAvailable app = true ->
  markersLayer app = Some old ->
  exists layer,
    allPoints (loadMapPoints Math_random app tm ts tt) = pts /\
    markersLayer (loadMapPoints Math_random app tm ts tt) = Some layer /\
    ((List.length pts <= 1000)%nat -> layer = map pointMarker pts) /\
    ((1000 < List.length pts)%nat ->
       exists cs, createGridClusters pts 0.5 = Normal cs /\
                  layer = map clusterMarker cs) /\
    (pts = [] -> layer = [] /\
                 view (loadMapPoints Math_random app tm ts tt) = view app) /\
    (pts <> [] -> exists positions,
        view (loadMapPoints Math_random app tm ts tt) = Some positions /\
        List.length positions = List.length layer).
Proof.
  intros Hf Hl Hm. unfold loadMapPoints. rewrite Hf, Hl, Hm.
  destruct (Nat.ltb_spec 1000 (List.length pts)) as [Hbig|Hsmall].
  - destruct (loadPointsWithClustering_eq pts [] (view app))
      as (cs & Hcs & Hkeys & Hall & Heq).
    rewrite Heq. cbn [markersLayer allPoints view List.app].
    eexists. split; [reflexivity|]. split; [reflexivity|].
    split; [lia|]. split; [eauto|]. split.
    + intros ->. simpl in Hbig. lia.
    + intros _. destruct cs as [|c cs].
      * destruct pts; [simpl in Hbig; lia|discriminate].
      * eexists. split; [reflexivity|]. now rewrite !length_map.
  - cbn [markersLayer allPoints view]. rewrite fold_left_snoc. cbn [List.app].
    eexists. split; [reflexivity|]. split; [reflexivity|].
    split; [reflexivity|]. split; [lia|]. split.
    + intros ->. auto.
    + intros Hne. destruct pts as [|p pts]; [congruence|].
      eexists. split; [reflexivity|]. now rewrite !length_map.
Qed.
End Markers.

(* ===================================================================== *)
(** ** Test data and the fetch *)
(* ===================================================================== *)

Section TestData.
Context {host : Host}.
Variable Math_random : nat -> float.
Local Open Scope float_scope.

(** The loop of the ['random'] branch, from any counter and state on: it
    never throws, and its [j]-th round appends the point numbered [i + j]
    made from the next two random values. *)
Lemma forLoop_pushRandom (size : nat) : forall i pts calls,
  exists added,
    forLoop i size (pushRandom Math_random) (pts, calls) =
    Normal ((pts ++ added)%list, (calls + 2 * size)%nat) /\
    List.length added = size /\
    forall j p, nth_error added j = Some p ->
      id p = (Z.of_nat (i + j) + 1000)%Z /\
      type_ p = "test"%string /\
      lat p = (Math_random (calls + 2 * j)%nat - 0.5) * 180 /\
      lng p = (Math_random (calls + 2 * j + 1)%nat - 0.5) * 360.
Proof.
  induction size as [|size IH]; intros i pts calls.
  - exists []. cbn [forLoop]. rewrite app_nil_r, Nat.mul_0_r, Nat.add_0_r.
    split; [reflexivity|]. split; [reflexivity|].
    intros [|j] p H; discriminate.
  - cbn [forLoop pushRandom bind].
    destruct (IH (S i) (pts ++ [ {| id := Z.of_nat i + 1000;
               name := "Test Point " ++ Number_toString (Number_ofNat i + 1);
               lat := (Math_random calls - 0.5) * 180;
               lng := (Math_random (calls + 1)%nat - 0.5) * 360;
               type_ := "test";
               description :=
                 "Generated test point " ++
                 Number_toString (Number_ofNat i + 1) ++
                 " for stress testing" |} ])%list (calls + 2)%nat)
      as (added & Heq & Hlen & Hnth).
    eexists (_ :: added). rewrite Heq, <- app_assoc. cbn [List.app].
    split; [do 2 f_equal; lia|]. split; [simpl; lia|].
    intros [|j] p Hp; cbn [nth_error] in Hp.
    + injection Hp as <-. cbn [id type_ lat lng].
      replace (i + 0)%nat with i by lia.
      replace (calls + 2 * 0)%nat with calls by lia. auto.
    + destruct (Hnth j p Hp) as (H1 & H2 & H3 & H4).
      replace (i + S j)%nat with (S i + j)%nat by lia.
      replace (calls + 2 * S j)%nat with (calls + 2 + 2 * j)%nat by lia.
      auto.
Qed.

Lemma mockPoints_ids :
  map id mockPoints =
  [1; 2; 3; 4; 5; 6; 7; 8; 9; 10; 11; 12; 13; 14; 15; 16; 17; 18; 19; 20]%Z.
Proof. reflexivity. Qed.

Lemma mockPoints_NoDup : NoDup (map id mockPoints).
Proof.
  rewrite mockPoints_ids.
  repeat (constructor; [cbn [In]; intros H; repeat destruct H as [H|H]; lia|]).
  constructor.
Qed.

Lemma ids_NoDup (pts : list Point) :
  (forall j p, nth_error pts j = Some p -> id p = (Z.of_nat j + 1000)%Z) ->
  NoDup (map id pts).
Proof.
  intros H. apply NoDup_nth_error. intros i j Hi E.
  rewrite length_map in Hi. rewrite !nth_error_map in E.
  destruct (nth_error pts i) as [p|] eqn:Ei;
    [|apply nth_error_None in Ei; lia].
  destruct (nth_error pts j) as [q|] eqn:Ej; [|discriminate].
  injection E as E. rewrite (H i p Ei), (H j q Ej) in E. lia.
Qed.

Lemma generateTestDataset_random (size : nat) :
  exists pts,
    generateTestDataset Math_random size "random" = Normal pts /\
    List.length pts = size /\
    forall i p, nth_error pts i = Some p ->
      id p = (Z.of_nat i + 1000)%Z /\
      type_ p = "test"%string /\
      lat p = (Math_random (2 * i)%nat - 0.5) * 180 /\
      lng p = (Math_random (2 * i + 1)%nat - 0.5) * 360.
Proof.
  destruct (forLoop_pushRandom size 0 [] 0) as (pts & Heq & Hlen & Hnth).
  exists pts. unfold generateTestDataset. cbn [String.eqb Ascii.eqb Bool.eqb].
  rewrite Heq. cbn [bind fst List.app]. auto.
Qed.

(** X12. A ['random'] test dataset never fails and has exactly [size]
    points; the point at index [i] has id [i + 1000], type ['test'] and
    coordinates made from the random values number [2i] and [2i + 1] of
    the call.  The ids are pairwise distinct and differ from the id of
    every point of the built-in data. *)
Theorem random_dataset_shape (size : nat) :
  exists pts,
    generateTestDataset Math_random size "random" = Normal pts /\
    List.length pts = size /\
    (forall i p, nth_error pts i = Some p ->
       id p = (Z.of_nat i + 1000)%Z /\
       type_ p = "test"%string /\
       lat p = (Math_random (2 * i)%nat - 0.5) * 180 /\
       lng p = (Math_random (2 * i + 1)%nat - 0.5) * 360) /\
    NoDup (map id pts) /\
    (forall p q, In p pts -> In q mockPoints -> id p <> id q).
Proof.
  destruct (generateTestDataset_random size) as (pts & Heq & Hlen & Hnth).
  exists pts. split; [assumption|]. split; [assumption|].
  assert (Hid : forall j p, nth_error pts j = Some p ->
                            id p = (Z.of_nat j + 1000)%Z)
    by (intros j p Hp; now destruct (Hnth j p Hp)).
  split; [exact Hnth|]. split; [now apply ids_NoDup|].
  intros p q Hp Hq E. apply In_nth_error in Hp. destruct Hp as [j Hj].
  apply (in_map id) in Hq. rewrite mockPoints_ids in Hq.
  rewrite <- E, (Hid j p Hj) in Hq. cbn [In] in Hq.
  repeat destruct Hq as [Hq|Hq]; lia.
Qed.

End TestData.

Section ClusteredData.
Context {host : Host}.
Variable Math_random : nat -> float.
Hypothesis Hunit : unit_random Math_random.
Local Open Scope float_scope.

(** The loop of the ['clustered'] branch: with random numbers of [[0, 1)]
    the index drawn is always within the table of centres, so the loop
    never throws; its [j]-th round appends the point numbered [i + j],
    placed around one of the centres by the next three random values. *)
Lemma forLoop_pushClustered (size : nat) : forall i pts calls,
  exists added,
    forLoop i size (pushClustered Math_random) (pts, calls) =
    Normal ((pts ++ added)%list, (calls + 3 * size)%nat) /\
    List.length added = size /\
    forall j p, nth_error added j = Some p ->
      id p = (Z.of_nat (i + j) + 1000)%Z /\
      type_ p = "test-clustered"%string /\
      exists center, In center centers /\
        lat p = center_lat center +
                Math_random (calls + 3 * j + 2)%nat * 0.5 *
                Math_cos (Math_random (calls + 3 * j + 1)%nat * 2 * Math_PI) /\
        lng p = center_lng center +
                Math_random (calls + 3 * j + 2)%nat * 0.5 *
                Math_sin (Math_random (calls + 3 * j + 1)%nat * 2 * Math_PI).
Proof.
  induction size as [|size IH]; intros i pts calls.
  - exists []. cbn [forLoop]. rewrite app_nil_r, Nat.mul_0_r, Nat.add_0_r.
    split; [reflexivity|]. split; [reflexivity|].
    intros [|j] p H; discriminate.
  - cbn [forLoop]. unfold pushClustered at 1.
    replace (Number_ofNat (List.length centers)) with 5
      by (vm_compute; reflexivity).
    destruct (Hunit calls) as [H0 H1].
    destruct (RandomIndex.random_index centers (Math_random calls)
                eq_refl H0 H1) as (center & Hc & Hin).
    rewrite Hc. cbn [bind].
    match goal with
    | |- context [forLoop (S i) size _ (?pts', ?calls')] =>
        destruct (IH (S i) pts' calls') as (added & Heq & Hlen & Hnth)
    end.
    eexists (_ :: added). rewrite Heq, <- app_assoc. cbn [List.app].
    split; [do 2 f_equal; lia|]. split; [simpl; lia|].
    intros [|j] p Hp; cbn [nth_error] in Hp.
    + injection Hp as <-. cbn [id type_ lat lng].
      replace (i + 0)%nat with i by lia.
      replace (calls + 3 * 0 + 2)%nat with (calls + 2)%nat by lia.
      replace (calls + 3 * 0 + 1)%nat with (calls + 1)%nat by lia.
      split; [reflexivity|]. split; [reflexivity|].
      exists center. auto.
    + destruct (Hnth j p Hp) as (H2 & H3 & c & Hcin & H4 & H5).
      replace (i + S j)%nat with (S i + j)%nat by lia.
      replace (calls + 3 * S j + 2)%nat with (calls + 3 + 3 * j + 2)%nat by lia.
      replace (calls + 3 * S j + 1)%nat with (calls + 3 + 3 * j + 1)%nat by lia.
      split; [assumption|]. split; [assumption|]. exists c. auto.
Qed.

Lemma generateTestDataset_clustered (size : nat) :
  exists pts,
    generateTestDataset Math_random size "clustered" = Normal pts /\
    List.length pts = size /\
    forall i p, nth_error pts i = Some p ->
      id p = (Z.of_nat i + 1000)%Z /\
      type_ p = "test-clustered"%string /\
      exists center, In center centers /\
        lat p = center_lat center +
                Math_random (3 * i + 2)%nat * 0.5 *
                Math_cos (Math_random (3 * i + 1)%nat * 2 * Math_PI) /\
        lng p = center_lng center +
                Math_random (3 * i + 2)%nat * 0.5 *
                Math_sin (Math_random (3 * i + 1)%nat * 2 * Math_PI).
Proof.
  destruct (forLoop_pushClustered size 0 [] 0) as (pts & Heq & Hlen & Hnth).
  exists pts. unfold generateTestDataset. cbn [String.eqb Ascii.eqb Bool.eqb].
  rewrite Heq. cbn [bind fst List.app]. auto.
Qed.

(** X13. With random numbers of [[0, 1)] a ['clustered'] test dataset never
    fails: the index [Math.floor(Math.random() * 5)] always selects one of
    the five centres.  The dataset has exactly [size] points; the point at
    index [i] has id [i + 1000] and type ['test-clustered'] and lies around
    one of the centres, displaced by the random values number [3i + 1]
    (angle) and [3i + 2] (distance) of the call.  The ids are pairwise
    distinct. *)
Theorem clustered_dataset_shape (size : nat) :
  exists pts,
    generateTestDataset Math_random size "clustered" = Normal pts /\
    List.length pts = size /\
    (forall i p, nth_error pts i = Some p ->
       id p = (Z.of_nat i + 1000)%Z /\
       type_ p = "test-clustered"%string /\
       exists center, In center centers /\
         lat p = center_lat center +
                 Math_random (3 * i + 2)%nat * 0.5 *
                 Math_cos (Math_random (3 * i + 1)%nat * 2 * Math_PI) /\
         lng p = center_lng center +
                 Math_random (3 * i + 2)%nat * 0.5 *
                 Math_sin (Math_random (3 * i + 1)%nat * 2 * Math_PI)) /\
    NoDup (map id pts).
Proof.
  destruct (generateTestDataset_clustered size) as (pts & Heq & Hlen & Hnth).
  exists pts. split; [assumption|]. split; [assumption|].
  split; [exact Hnth|]. apply ids_NoDup.
  intros j p Hp. now destruct (Hnth j p Hp).
Qed.

(** X14. With random numbers of [[0, 1)] the fetch never fails, whatever
    the mode, the size and the type, and what it returns has pairwise
    distinct ids: the built-in data unless test mode is on with a positive
    size; then a generated dataset of exactly that size for the types
    ['random'] and ['clustered'], and no point for any other type. *)
Theorem fetch_never_fails (testMode : bool) (testSize : nat)
    (testType : string) :
  exists pts,
    fetchMapPoints Math_random testMode testSize testType = Normal pts /\
    NoDup (map id pts) /\
    (if testMode && (0 <? testSize)%nat
     then if String.eqb testType "random" || String.eqb testType "clustered"
          then List.length pts = testSize
          else pts = []
     else pts = mockPoints).
Proof.
  unfold fetchMapPoints.
  destruct (testMode && (0 <? testSize)%nat).
  - destruct (String.eqb_spec testType "random") as [->|Hr].
    + destruct (generateTestDataset_random Math_random testSize)
        as (pts & Heq & Hlen & Hnth).
      exists pts. rewrite Heq. cbn [bind]. split; [reflexivity|].
      split; [|exact Hlen]. apply ids_NoDup.
      intros j p Hp. now destruct (Hnth j p Hp).
    + destruct (String.eqb_spec testType "clustered") as [->|Hc].
      * destruct (generateTestDataset_clustered testSize)
          as (pts & Heq & Hlen & Hnth).
        exists pts. rewrite Heq. cbn [bind]. split; [reflexivity|].
        split; [|exact Hlen]. apply ids_NoDup.
        intros j p Hp. now destruct (Hnth j p Hp).
      * exists []. unfold generateTestDataset.
        apply String.eqb_neq in Hr, Hc. rewrite Hr, Hc. cbn [bind fst].
        split; [reflexivity|]. split; [constructor|reflexivity].
  - exists mockPoints. split; [reflexivity|].
    split; [apply mockPoints_NoDup|reflexivity].
Qed.
End ClusteredData.

Section UnknownType.
Context {host : Host}.

(** X15. A test load of a type other than ['random'] and ['clustered']
    fetches no point at all, whatever the size asked for: with Leaflet the
    map is left without markers and its view as it was. *)
Theorem unknown_type_loads_nothing (Math_random : nat -> float) (app : App)
    (testSize : nat) (testType : string) (old : list Marker) :
  testType <> "random"%string -> testType <> "clustered"%string ->
  (0 < testSize)%nat ->
  isLeafletAvailable app = true -> markersLayer app = Some old ->
  generateTestDataset Math_random testSize testType = Normal [] /\
  loadMapPoints Math_random app true testSize testType =
  {| allPoints := []; isLeafletAvailable := true;
     markersLayer := Some []; view := view app |}.
Proof.
  intros Hr Hc Hs Hl Hm.
  assert (Hg : generateTestDataset Math_random testSize testType = Normal []).
  { unfold generateTestDataset.
    apply String.eqb_neq in Hr, Hc. now rewrite Hr, Hc. }
  split; [exact Hg|].
  unfold loadMapPoints, fetchMapPoints.
  apply Nat.ltb_lt in Hs. rewrite Hs, Hg, Hl, Hm. reflexivity.
Qed.

Lemma fold_left_names (l : list Point) (content : string) :
  fold_left (fun content point =>
               (content ++ bullet ++ " " ++ name point ++ "<br>")%string)
    l content =
  fold_left (fun content n => (content ++ bullet ++ " " ++ n ++ "<br>")%string)
    (map name l) content.
Proof.
  revert content. induction l as [|p l IH]; intros content; [reflexivity|].
  cbn [map fold_left]. apply IH.
Qed.

(** X16. The popup of a cluster shows nothing but the number of its points
    and the names of the first five: two arrays of the same length whose
    first five names agree get the same popup. *)
Theorem popup_shows_count_and_five_names (ps qs : list Point) :
  List.length ps = List.length qs ->
  firstn 5 (map name ps) = firstn 5 (map name qs) ->
  createClusterPopup ps = createClusterPopup qs.
Proof.
  intros Hlen Hnames. unfold createClusterPopup, lengthString. cbv zeta.
  rewrite !fold_left_names, <- !firstn_map, Hnames, Hlen. reflexivity.
Qed.
End UnknownType.

(* ===================================================================== *)
(** ** The distance under reflection *)
(* ===================================================================== *)

Module Reflection.
Import Mirror.

Lemma SFsub_opp_opp x y :
  SFsub prec emax (SFopp x) (SFopp y) = SFsub prec emax y x.
Proof.
  destruct x as [sx|sx| |sx mx ex], y as [sy|sy| |sy my ey];
    cbn [SFsub SFopp];
    try (destruct sx); try (destruct sy); cbn [negb SFopp]; auto.
  all: rewrite (Z.min_comm ey ex); f_equal; cbn [cond_Zopp]; lia.
Qed.

Local Open Scope float_scope.

Lemma sub_opp_opp (x y : float) : (- x) - (- y) = y - x.
Proof.
  apply Prim2SF_inj. rewrite !sub_spec, !opp_spec. apply SFsub_opp_opp.
Qed.
End Reflection.

Section DistanceReflection.
Import Mirror Reflection.
Context {host : Host}.
Local Open Scope float_scope.

Lemma radians_opp (x : float) : (- x) * Math_PI / 180 = - (x * Math_PI / 180).
Proof. now rewrite mul_opp_l, div_opp_l. Qed.

(** X17. The distance does not change when both points are reflected:
    through the prime meridian (both longitudes negated), through the
    equator (both latitudes negated), or through both. *)
Theorem distance_reflection_invariant (lat1 lon1 lat2 lon2 : float) :
  sin_odd -> cos_even ->
  calculateDistance lat1 (- lon1) lat2 (- lon2) =
  calculateDistance lat1 lon1 lat2 lon2 /\
  calculateDistance (- lat1) lon1 (- lat2) lon2 =
  calculateDistance lat1 lon1 lat2 lon2 /\
  calculateDistance (- lat1) (- lon1) (- lat2) (- lon2) =
  calculateDistance lat1 lon1 lat2 lon2.
Proof.
  intros Hodd Heven. unfold calculateDistance. cbv zeta.
  rewrite !sub_opp_opp, !radians_opp, !Heven.
  rewrite (half_angle_sq_swap lat1 lat2 Hodd).
  rewrite (half_angle_swap _ lon1 lon2 Hodd).
  auto.
Qed.
End DistanceReflection.

(* ===================================================================== *)
(** ** The further properties on the sample data *)
(* ===================================================================== *)

Section MoreOnTheSample.
Import SmallAngleHost SmallAngleHostLaws Sample.
#[local] Existing Instance SmallAngleHost.host.
Local Open Scope float_scope.
#[local] Set Warnings "-inexact-float".

Lemma host_cos_even : cos_even.
Proof.
  intros x. cbn [Math_cos host]. unfold cos.
  rewrite !Magnitude.is_finite_spec, opp_spec.
  now destruct (Prim2SF x).
Qed.

(** Rounding as [Math.round] does: halves go up, towards [+Infinity], and
    a result between [-0.5] and [0] is [-0]. *)
Example rounding_halves_up :
  map Math_round [0.4; 0.5; 1.5; 2.5; -1.5; -2.5; 2999.5; infinity] =
  [0; 1; 2; 3; -1; -2; 3000; infinity] /\
  Prim2SF (Math_round (-0.5)) = S754_zero true /\
  Prim2SF (Math_round (-0.2)) = S754_zero true.
Proof. repeat split; reflexivity. Qed.

(** Whole indices within bounds select; anything else is [undefined]. *)
Example array_index :
  map (Array_at [10; 20; 30]%Z) [0; -0; 2; 3; 1.5; -1; nan; infinity] =
  [Some 10; Some 10; Some 30; None; None; None; None; None]%Z.
Proof. reflexivity. Qed.

Lemma nearby_radius_monotone_witness :
  (200 <=? 2000) = true /\
  exists out1 out2 rest,
    findNearbyPoints somePoints demoCenter 200 = Normal out1 /\
    findNearbyPoints somePoints demoCenter 2000 = Normal out2 /\
    out1 = filter (fun p => distanceFrom demoCenter p <=? 200) out2 /\
    out2 = out1 ++ rest /\
    Forall (fun p => (200 <? distanceFrom demoCenter p) = true) rest.
Proof.
  split; [reflexivity|].
  apply (@nearby_radius_monotone host somePoints demoCenter 200 2000).
  reflexivity.
Defined.

Lemma lone_points_plain_markers_witness :
  NoDup (map (pointGridKey 0.5) [newYork; london; melbourne]) /\
  exists fitted',
    loadPointsWithClustering [newYork; london; melbourne] [] None =
    Normal (fold_left (fun layer point => layer ++ [pointMarker point])
              [newYork; london; melbourne] [],
            fitted').
Proof.
  assert (H : NoDup (map (pointGridKey 0.5) [newYork; london; melbourne])).
  { repeat (constructor;
            [cbn [In]; intros H; repeat destruct H as [H|H];
             try discriminate H; exact H|]).
    constructor. }
  split; [exact H|].
  apply (@lone_points_plain_markers host [newYork; london; melbourne] [] None H).
Defined.

Lemma load_shows_fetched_points_witness :
  fetchMapPoints (fun _ => 0.5) false 0 "random" = Normal mockPoints /\
  isLeafletAvailable (initialApp true) = true /\
  markersLayer (initialApp true) = Some [] /\
  exists layer,
    allPoints (loadMapPoints (fun _ => 0.5) (initialApp true) false 0 "random") =
    mockPoints /\
    markersLayer (loadMapPoints (fun _ => 0.5) (initialApp true) false 0 "random") =
    Some layer /\
    ((List.length mockPoints <= 1000)%nat -> layer = map pointMarker mockPoints) /\
    ((1000 < List.length mockPoints)%nat ->
       exists cs, createGridClusters mockPoints 0.5 = Normal cs /\
                  layer = map clusterMarker cs) /\
    (mockPoints = [] ->
       layer = [] /\
       view (loadMapPoints (fun _ => 0.5) (initialApp true) false 0 "random") =
       view (initialApp true)) /\
    (mockPoints <> [] -> exists positions,
        view (loadMapPoints (fun _ => 0.5) (initialApp true) false 0 "random") =
        Some positions /\
        List.length positions = List.length layer).
Proof.
  split; [reflexivity|]. split; [reflexivity|]. split; [reflexivity|].
  apply (@load_shows_fetched_points host (fun _ => 0.5) (initialApp true)
           false 0%nat "random"%string mockPoints []); reflexivity.
Defined.

Lemma unknown_type_loads_nothing_witness :
  "grid"%string <> "random"%string /\ "grid"%string <> "clustered"%string /\
  (0 < 5)%nat /\
  isLeafletAvailable (initialApp true) = true /\
  markersLayer (initialApp true) = Some [] /\
  generateTestDataset (fun _ => 0.5) 5 "grid" = Normal [] /\
  loadMapPoints (fun _ => 0.5) (initialApp true) true 5 "grid" =
  {| allPoints := []; isLeafletAvailable := true;
     markersLayer := Some []; view := view (initialApp true) |}.
Proof.
  split; [discriminate|]. split; [discriminate|]. split; [lia|].
  split; [reflexivity|]. split; [reflexivity|].
  apply (@unknown_type_loads_nothing host (fun _ => 0.5) (initialApp true)
           5%nat "grid"%string []);
    [discriminate|discriminate|lia|reflexivity|reflexivity].
Defined.

Lemma popup_shows_count_and_five_names_witness :
  List.length [london] = List.length [{| id := 99; name := "London"; lat := 0; lng := 0; type_ := "town"; description := "London, Ontario" |}] /\
  firstn 5 (map name [london]) =
  firstn 5 (map name [{| id := 99; name := "London"; lat := 0; lng := 0; type_ := "town"; description := "London, Ontario" |}]) /\
  createClusterPopup [london] =
  createClusterPopup [{| id := 99; name := "London"; lat := 0; lng := 0; type_ := "town"; description := "London, Ontario" |}].
Proof.
  split; [reflexivity|]. split; [reflexivity|].
  apply (@popup_shows_count_and_five_names host); reflexivity.
Defined.

Lemma distance_reflection_invariant_witness :
  sin_odd /\ cos_even /\
  calculateDistance (lat melbourne) (- lng melbourne)
    (lat london) (- lng london) =
  calculateDistance (lat melbourne) (lng melbourne) (lat london) (lng london) /\
  calculateDistance (- lat melbourne) (lng melbourne)
    (- lat london) (lng london) =
  calculateDistance (lat melbourne) (lng melbourne) (lat london) (lng london) /\
  calculateDistance (- lat melbourne) (- lng melbourne)
    (- lat london) (- lng london) =
  calculateDistance (lat melbourne) (lng melbourne) (lat london) (lng london).
Proof.
  split; [exact host_sin_odd|]. split; [exact host_cos_even|].
  apply (@distance_reflection_invariant host); [exact host_sin_odd|exact host_cos_even].
Defined.

Lemma clusters_up_to_order_witness :
  Permutation somePoints (rev somePoints) /\
  exists cs cs',
    createGridClusters somePoints 0.5 = Normal cs /\
    createGridClusters (rev somePoints) 0.5 = Normal cs' /\
    Permutation (map clusterKey cs) (map clusterKey cs') /\
    List.length cs = List.length cs' /\
    (forall c c', In c cs -> In c' cs' -> clusterKey c = clusterKey c' ->
                  Permutation (points c) (points c')).
Proof.
  split; [apply Permutation_rev|].
  apply (@clusters_up_to_order host somePoints (rev somePoints) 0.5).
  apply Permutation_rev.
Defined.

Lemma clustered_dataset_shape_witness :
  unit_random (fun _ => 0.5) /\
  exists pts,
    generateTestDataset (fun _ => 0.5) 3 "clustered" = Normal pts /\
    List.length pts = 3%nat /\
    (forall i p, nth_error pts i = Some p ->
       id p = (Z.of_nat i + 1000)%Z /\
       type_ p = "test-clustered"%string /\
       exists center, In center centers /\
         lat p = center_lat center + 0.5 * 0.5 * Math_cos (0.5 * 2 * Math_PI) /\
         lng p = center_lng center + 0.5 * 0.5 * Math_sin (0.5 * 2 * Math_PI)) /\
    NoDup (map id pts).
Proof.
  assert (H : unit_random (fun _ => 0.5)) by (intros n; split; reflexivity).
  split; [exact H|].
  apply (@clustered_dataset_shape host (fun _ => 0.5) H 3%nat).
Defined.

Lemma fetch_never_fails_witness :
  unit_random (fun _ => 0.5) /\
  exists pts,
    fetchMapPoints (fun _ => 0.5) true 3 "clustered" = Normal pts /\
    NoDup (map id pts) /\
    List.length pts = 3%nat.
Proof.
  assert (H : unit_random (fun _ => 0.5)) by (intros n; split; reflexivity).
  split; [exact H|].
  apply (@fetch_never_fails host (fun _ => 0.5) H true 3%nat "clustered"%string).
Defined.

(** A clustered dataset on this host: the draw [0.5] selects the third
    centre, Tokyo. *)
Example clustered_sample :
  option_map (map (fun p => (id p, type_ p)))
    (match generateTestDataset (fun _ => 0.5) 2 "clustered" with
     | Normal pts => Some pts
     | Throw _ => None
     end) =
  Some [(1000%Z, "test-clustered"%string); (1001%Z, "test-clustered"%string)] /\
  Array_at centers (Math_floor (0.5 * 5)) =
  Some {| center_lat := 35.6762; center_lng := 139.6503 |}.
Proof. split; reflexivity. Qed.

(** The sample of nearby points on the built-in data, as this host
    computes distances. *)
Example sample_on_the_built_in_data :
  map (fun q => name (spread q)) (showSampleNearbyPoints mockPoints) =
  ["London"; "Paris"]%string.
Proof. vm_compute. reflexivity. Qed.
End MoreOnTheSample.
